(** * Pose-to-skeleton retargeting: the body-model rigging hooks

    A shallow embedding of the retargeting code of the try-on application:
    the two [useBodyModelRigging] hooks (the rest-relative one of
    [hooks/useBodyModelRigging.ts] and the calibrated single-axis one that
    reads the debug store), the capture of rest poses, and the
    direction-to-rotation helpers of [utils/boneMapping] and
    [utils/poseRetargeting].

    JavaScript numbers are modelled as real numbers: rounding, NaN and the
    infinities of IEEE doubles are outside the model.  Objects that the code
    mutates in place (bones, the model group) live in an explicit store that
    every effect takes and returns.  Cached matrices ([updateMatrix],
    [updateMatrixWorld]), the [frustumCulled] flag and console output are
    left out: no property below depends on them. *)

From Stdlib Require Import Reals Lra Lia List Ascii String.
From stdpp Require Import gmap strings list fin_maps.

Local Open Scope R_scope.

(** * Part I: the embedding *)

(** ** Numbers of the JavaScript runtime *)

Module JsMath.

(** [Math.max] and [Math.min] on numbers. *)
Definition max (a b : R) : R := Rmax a b.
Definition min (a b : R) : R := Rmin a b.

(** [Math.atan2 (y, x)]: the angle of the point [(x, y)], in (-PI, PI],
    with [atan2 (0, 0) = 0]. *)
Definition atan2 (y x : R) : R :=
  if Rlt_dec 0 x then atan (y / x)
  else if Rlt_dec x 0 then
    (if Rle_dec 0 y then atan (y / x) + PI else atan (y / x) - PI)
  else if Rlt_dec 0 y then PI / 2
  else if Rlt_dec y 0 then - (PI / 2)
  else 0.

(** [a || b] on numbers: the left operand unless it is falsy ([0]). *)
Definition orElse (a b : R) : R := if Req_dec_T a 0 then b else a.

End JsMath.

(** ** The three.js value classes the code uses

    [Euler], [Vector3] and [Quaternion] come from the three.js library; the
    operations below follow its definitions ([normalize] divides by
    [length () || 1], [setFromAxisAngle] does not renormalise). *)

Module Euler.
Record t : Type := mk { x : R; y : R; z : R }.
End Euler.

Module Vector3.
Record t : Type := mk { x : R; y : R; z : R }.

Definition dot (a b : t) : R := x a * x b + y a * y b + z a * z b.
Definition lengthSq (a : t) : R := x a * x a + y a * y a + z a * z a.
Definition length (a : t) : R := sqrt (lengthSq a).
Definition multiplyScalar (a : t) (s : R) : t := mk (x a * s) (y a * s) (z a * s).
Definition divideScalar (a : t) (s : R) : t := multiplyScalar a (1 / s).
Definition normalize (a : t) : t := divideScalar a (JsMath.orElse (length a) 1).
Definition crossVectors (a b : t) : t :=
  mk (y a * z b - z a * y b) (z a * x b - x a * z b) (x a * y b - y a * x b).
Definition cross (a b : t) : t := crossVectors a b.
Definition add (a b : t) : t := mk (x a + x b) (y a + y b) (z a + z b).
Definition addVectors (a b : t) : t := add a b.
Definition sub (a b : t) : t := mk (x a - x b) (y a - y b) (z a - z b).
(** [this.lerp (v, alpha)] *)
Definition lerp (a v : t) (alpha : R) : t :=
  mk (x a + (x v - x a) * alpha) (y a + (y v - y a) * alpha) (z a + (z v - z a) * alpha).

End Vector3.

Module Quaternion.
Record t : Type := mk { x : R; y : R; z : R; w : R }.

Definition identity : t := mk 0 0 0 1.
Definition setFromAxisAngle (axis : Vector3.t) (angle : R) : t :=
  let halfAngle := angle / 2 in
  let s := sin halfAngle in
  mk (Vector3.x axis * s) (Vector3.y axis * s) (Vector3.z axis * s) (cos halfAngle).

(** Squared norm; a quaternion stands for a rotation when it is 1. *)
Definition normSq (q : t) : R := x q * x q + y q * y q + z q * z q + w q * w q.
Definition isRotation (q : t) : Prop := normSq q = 1.
(** [this.multiply (q)], that is [multiplyQuaternions (this, q)]. *)
Definition multiply (a b : t) : t :=
  mk (x a * w b + w a * x b + y a * z b - z a * y b)
     (y a * w b + w a * y b + z a * x b - x a * z b)
     (z a * w b + w a * z b + x a * y b - y a * x b)
     (w a * w b - x a * x b - y a * y b - z a * z b).

End Quaternion.

(** [v.applyQuaternion (q)]: the action of [q] on a vector,
    [v + q.w * t + cross (q.xyz, t)] with [t = 2 * cross (q.xyz, v)]. *)
Definition applyQuaternion (v : Vector3.t) (q : Quaternion.t) : Vector3.t :=
  let qv := Vector3.mk (Quaternion.x q) (Quaternion.y q) (Quaternion.z q) in
  let t := Vector3.multiplyScalar (Vector3.crossVectors qv v) 2 in
  Vector3.add (Vector3.add v (Vector3.multiplyScalar t (Quaternion.w q)))
              (Vector3.crossVectors qv t).

(** ** Strings: [toLowerCase] and [includes] on ASCII names *)

Module Str.

Definition lowerChar (c : ascii) : ascii :=
  let n := nat_of_ascii c in
  if (Nat.leb 65 n && Nat.leb n 90)%bool then ascii_of_nat (n + 32) else c.

Fixpoint toLowerCase (s : string) : string :=
  match s with
  | EmptyString => EmptyString
  | String c r => String (lowerChar c) (toLowerCase r)
  end.

(** [s.includes (pat)]: [pat] occurs in [s] at some position. *)
Fixpoint includes (s pat : string) : bool :=
  (String.prefix pat s ||
   match s with
   | EmptyString => false
   | String _ r => includes r pat
   end)%bool.

Definition eqb (a b : string) : bool := String.eqb a b.

End Str.

(** ** The scene: bones with identity, skinned meshes, the model group *)

(** Bone objects are told apart by identity, a number. *)
Abbreviation BoneId := nat.

Module Bone.
Record t : Type := mk { name : string; rotation : Euler.t }.
End Bone.

(** A model group, as [traverse] sees it: the [skeleton.bones] array of each
    skinned mesh that has a skeleton, in traversal order.  The same bone
    object may occur in several arrays. *)
Record Group : Type := mkGroup { skinned : list (list BoneId) }.

(** The mutable objects: every bone object by identity, and the transform of
    the model group. *)
Record World : Type := mkWorld {
  bones : gmap nat Bone.t;
  position : Vector3.t;
  scale : Vector3.t;
  rotation : Euler.t
}.

Definition setBones (w : World) (b : gmap nat Bone.t) : World :=
  mkWorld b (position w) (scale w) (rotation w).

(** [model.position.set (x, y, z)] *)
Definition positionSet (w : World) (x y z : R) : World :=
  mkWorld (bones w) (Vector3.mk x y z) (scale w) (rotation w).

(** [model.scale.setScalar (s)] *)
Definition scaleSetScalar (w : World) (s : R) : World :=
  mkWorld (bones w) (position w) (Vector3.mk s s s) (rotation w).

(** [model.rotation.y = v] *)
Definition rotationSetY (w : World) (v : R) : World :=
  mkWorld (bones w) (position w) (scale w)
          (Euler.mk (Euler.x (rotation w)) v (Euler.z (rotation w))).

(** ** Landmark frames *)

Module Landmark.
Record t : Type := mk { x : R; y : R; z : option R }.
(** [l.z || 0] *)
Definition zOr0 (l : t) : R :=
  match z l with Some v => JsMath.orElse v 0 | None => 0 end.
End Landmark.

Record Results : Type := mkResults { poseLandmarks : option (list Landmark.t) }.

(** [landmarks?.poseLandmarks] *)
Definition poseOf (landmarks : option Results) : option (list Landmark.t) :=
  match landmarks with
  | Some r => poseLandmarks r
  | None => None
  end.

Module MP_LANDMARKS.
Definition LEFT_SHOULDER : nat := 11.
Definition RIGHT_SHOULDER : nat := 12.
Definition LEFT_ELBOW : nat := 13.
Definition RIGHT_ELBOW : nat := 14.
Definition LEFT_WRIST : nat := 15.
Definition RIGHT_WRIST : nat := 16.
Definition LEFT_HIP : nat := 23.
Definition RIGHT_HIP : nat := 24.
End MP_LANDMARKS.

(** ** State shared by the rigging hooks: the refs of one hook instance *)

Record ArmBones : Type := mkArmBones {
  upperarm_l : list BoneId;
  upperarm_r : list BoneId;
  lowerarm_l : list BoneId;
  lowerarm_r : list BoneId
}.

Record Refs : Type := mkRefs {
  armBonesRef : option ArmBones;
  restRotationsRef : gmap string Euler.t;
  smoothRotations : gmap string Euler.t;
  initializedRef : bool;
  frameRef : nat
}.

(** The refs of a freshly mounted hook. *)
Definition mountRefs : Refs := mkRefs None ∅ ∅ false 0.

(** The outcome of running an effect: it ran to its end or a property read
    on [undefined] threw; either way the store is as the effect left it. *)
Inductive Outcome : Type :=
| Done (r : Refs) (w : World)
| Threw (r : Refs) (w : World).

Definition outRefs (o : Outcome) : Refs :=
  match o with Done r _ | Threw r _ => r end.
Definition outWorld (o : Outcome) : World :=
  match o with Done _ w | Threw _ w => w end.

(** ** Binding: the initialisation effect (both hooks share it) *)

Definition excludedCommon (name : string) : bool :=
  (Str.includes name "twist" || Str.includes name "corrective" ||
   Str.includes name "_in" || Str.includes name "_out" ||
   Str.includes name "_fwd" || Str.includes name "_bck")%bool.

Definition excludedUpper (name : string) : bool :=
  (excludedCommon name || Str.includes name "bicep" || Str.includes name "tricep")%bool.

Definition matchUpper (pat name : string) : bool :=
  (Str.includes name pat && negb (excludedUpper name))%bool.

Definition matchLower (pat name : string) : bool :=
  (Str.includes name pat && negb (excludedCommon name))%bool.

(** One turn of the [forEach] over [skeleton.bones]: the four [if]s. *)
Definition pushBone (store : gmap nat Bone.t) (acc : ArmBones) (id : BoneId) : ArmBones :=
  match store !! id with
  | None => acc
  | Some b =>
    let name := Str.toLowerCase (Bone.name b) in
    let ul := if matchUpper "upperarm_l" name then upperarm_l acc ++ [id] else upperarm_l acc in
    let ur := if matchUpper "upperarm_r" name then upperarm_r acc ++ [id] else upperarm_r acc in
    let ll := if matchLower "lowerarm_l" name then lowerarm_l acc ++ [id] else lowerarm_l acc in
    let lr := if matchLower "lowerarm_r" name then lowerarm_r acc ++ [id] else lowerarm_r acc in
    mkArmBones ul ur ll lr
  end.

Definition collectArmBones (store : gmap nat Bone.t) (g : Group) : ArmBones :=
  foldl (pushBone store) (mkArmBones [] [] [] []) (concat (skinned g)).

Definition allBones (ab : ArmBones) : list BoneId :=
  upperarm_l ab ++ upperarm_r ab ++ lowerarm_l ab ++ lowerarm_r ab.

(** [restRotationsRef.current.set (bone.name, bone.rotation.clone ())] *)
Definition captureRest (store : gmap nat Bone.t) (rest : gmap string Euler.t) (id : BoneId)
  : gmap string Euler.t :=
  match store !! id with
  | None => rest
  | Some b => <[Bone.name b := Bone.rotation b]> rest
  end.

Definition initEffect (model : option Group) (r : Refs) (w : World) : Refs :=
  match model with
  | None => r
  | Some g =>
    let ab := collectArmBones (bones w) g in
    mkRefs (Some ab)
           (foldl (captureRest (bones w)) (restRotationsRef r) (allBones ab))
           (smoothRotations r)
           true
           0
  end.

(** ** Temporal smoothing, shared by both appliers *)

(** [s += (target - s) * SMOOTH] *)
Definition smoothStep (SMOOTH target s : R) : R := s + (target - s) * SMOOTH.

(** The [get] / [new Euler] / [+=] block at the head of both appliers. *)
Definition smoothUpdate (SMOOTH : R) (prev : option Euler.t) (x y z : R) : Euler.t :=
  match prev with
  | None => Euler.mk x y z
  | Some s =>
    Euler.mk (smoothStep SMOOTH x (Euler.x s))
             (smoothStep SMOOTH y (Euler.y s))
             (smoothStep SMOOTH z (Euler.z s))
  end.

Definition setSmooth (r : Refs) (key : string) (e : Euler.t) : Refs :=
  mkRefs (armBonesRef r) (restRotationsRef r) (<[key := e]> (smoothRotations r))
         (initializedRef r) (frameRef r).

Definition bumpFrame (r : Refs) : Refs :=
  mkRefs (armBonesRef r) (restRotationsRef r) (smoothRotations r)
         (initializedRef r) (S (frameRef r)).

(** ** The calibrated hook: debug store, manual mode, single-axis tracking *)

Record DebugValues : Type := mkDebugValues {
  leftUpperArmX : R; leftUpperArmY : R; leftUpperArmZ : R;
  leftLowerArmX : R; leftLowerArmY : R; leftLowerArmZ : R;
  rightUpperArmX : R; rightUpperArmY : R; rightUpperArmZ : R;
  rightLowerArmX : R; rightLowerArmY : R; rightLowerArmZ : R;
  smoothingFactor : R;
  enableTracking : bool;
  useManualRotations : bool
}.

(** [defaultValues] of the debug store, for the fields the hook reads. *)
Definition defaultValues : DebugValues :=
  mkDebugValues 0 0 0 0 0 0 0 0 0 0 0 0 0.35 true false.

Module Calibrated.

Definition DEG2RAD : R := PI / 180.
Definition Y_ROTATION_ARMS_DOWN : R := 13.
Definition Y_ROTATION_T_POSE : R := -48.

(** The body of [bones.forEach] in [applyArmRotation]: the rotation is
    written only when the rest map has an entry under the bone's name. *)
Definition writeBone (rest : gmap string Euler.t) (smooth : Euler.t)
    (store : gmap nat Bone.t) (id : BoneId) : gmap nat Bone.t :=
  match store !! id with
  | None => store
  | Some b =>
    match rest !! Bone.name b with
    | Some r =>
      <[id := Bone.mk (Bone.name b)
                (Euler.mk (Euler.x r + Euler.x smooth)
                          (Euler.y r + Euler.y smooth)
                          (Euler.z r + Euler.z smooth))]> store
    | None => store
    end
  end.

(** The bone object as one such write leaves it. *)
Definition posed (rest : gmap string Euler.t) (smooth : Euler.t) (b : Bone.t) : Bone.t :=
  match rest !! Bone.name b with
  | Some r =>
    Bone.mk (Bone.name b)
            (Euler.mk (Euler.x r + Euler.x smooth)
                      (Euler.y r + Euler.y smooth)
                      (Euler.z r + Euler.z smooth))
  | None => b
  end.

Definition applyArmRotation (SMOOTH : R) (bs : list BoneId) (key : string)
    (xDelta yDelta zDelta : R) (r : Refs) (w : World) : Refs * World :=
  match bs with
  | [] => (r, w)
  | _ :: _ =>
    let smooth := smoothUpdate SMOOTH (smoothRotations r !! key) xDelta yDelta zDelta in
    (setSmooth r key smooth,
     setBones w (foldl (writeBone (restRotationsRef r) smooth) (bones w) bs))
  end.

Definition calcArmRatio (shoulder elbow : Landmark.t) : R :=
  let dx := Rabs (Landmark.x elbow - Landmark.x shoulder) in
  let dy := - (Landmark.y elbow - Landmark.y shoulder) in
  let angle := JsMath.atan2 dy dx in
  let ratio := (angle + PI / 2) / (PI / 2) in
  JsMath.max 0 (JsMath.min 1 ratio).

Definition mapToYRotation (ratio : R) : R :=
  let yDegrees := Y_ROTATION_ARMS_DOWN + (Y_ROTATION_T_POSE - Y_ROTATION_ARMS_DOWN) * ratio in
  yDegrees * DEG2RAD.

(** The four [applyArmRotation] calls of manual mode, in source order. *)
Definition manualMode (dv : DebugValues) (ab : ArmBones) (r : Refs) (w : World) : Refs * World :=
  let SMOOTH := smoothingFactor dv in
  let '(r1, w1) := applyArmRotation SMOOTH (upperarm_l ab) "upperarm_l"
                     (leftUpperArmX dv * DEG2RAD) (leftUpperArmY dv * DEG2RAD)
                     (leftUpperArmZ dv * DEG2RAD) r w in
  let '(r2, w2) := applyArmRotation SMOOTH (lowerarm_l ab) "lowerarm_l"
                     (leftLowerArmX dv * DEG2RAD) (leftLowerArmY dv * DEG2RAD)
                     (leftLowerArmZ dv * DEG2RAD) r1 w1 in
  let '(r3, w3) := applyArmRotation SMOOTH (upperarm_r ab) "upperarm_r"
                     (rightUpperArmX dv * DEG2RAD) (rightUpperArmY dv * DEG2RAD)
                     (rightUpperArmZ dv * DEG2RAD) r2 w2 in
  let '(r4, w4) := applyArmRotation SMOOTH (lowerarm_r ab) "lowerarm_r"
                     (rightLowerArmX dv * DEG2RAD) (rightLowerArmY dv * DEG2RAD)
                     (rightLowerArmZ dv * DEG2RAD) r3 w3 in
  (r4, rotationSetY w4 0).

Definition MIN_X : R := -0.6.
Definition MAX_X : R := 0.6.
Definition MIN_Y : R := -7.0.
Definition MAX_Y : R := 0.9.
Definition MIN_SCALE : R := 0.6.
Definition MAX_SCALE : R := 1.8.

(** Body position and scale with their constraints, up to
    [model.rotation.y = 0]. *)
Definition placeModel (mirrored : bool) (leftShoulder rightShoulder : Landmark.t)
    (w : World) : World :=
  let m := if mirrored then -1 else 1 in
  let shoulderWidth :=
    sqrt ((Landmark.x leftShoulder - Landmark.x rightShoulder) ^ 2 +
          (Landmark.y leftShoulder - Landmark.y rightShoulder) ^ 2) in
  let shoulderCenterX := ((Landmark.x leftShoulder + Landmark.x rightShoulder) / 2 - 0.5) * m in
  let shoulderCenterY := - ((Landmark.y leftShoulder + Landmark.y rightShoulder) / 2 - 0.5) in
  let rawX := shoulderCenterX * 2 in
  let rawY := shoulderCenterY * 2 - 2.5 in
  let rawScale := shoulderWidth * 8 in
  let clampedX := JsMath.max MIN_X (JsMath.min MAX_X rawX) in
  let clampedY := JsMath.max MIN_Y (JsMath.min MAX_Y rawY) in
  let clampedScale := JsMath.max MIN_SCALE (JsMath.min MAX_SCALE rawScale) in
  rotationSetY (scaleSetScalar (positionSet w clampedX clampedY 0) clampedScale) 0.

(** Tracking mode once [poseLandmarks] is there.  A landmark index that the
    array lacks reads as [undefined], and the first property read on it
    throws. *)
Definition trackingMode (dv : DebugValues) (mirrored : bool) (ab : ArmBones)
    (pose : list Landmark.t) (r : Refs) (w : World) : Outcome :=
  let SMOOTH := smoothingFactor dv in
  let r0 := bumpFrame r in
  match pose !! MP_LANDMARKS.LEFT_SHOULDER, pose !! MP_LANDMARKS.RIGHT_SHOULDER with
  | Some leftShoulder, Some rightShoulder =>
    let w0 := placeModel mirrored leftShoulder rightShoulder w in
    let lShoulder := if mirrored then rightShoulder else leftShoulder in
    let lElbow := if mirrored then pose !! MP_LANDMARKS.RIGHT_ELBOW
                  else pose !! MP_LANDMARKS.LEFT_ELBOW in
    let rShoulder := if mirrored then leftShoulder else rightShoulder in
    let rElbow := if mirrored then pose !! MP_LANDMARKS.LEFT_ELBOW
                  else pose !! MP_LANDMARKS.RIGHT_ELBOW in
    match lElbow with
    | None => Threw r0 w0
    | Some lElbow =>
      let '(r1, w1) := applyArmRotation SMOOTH (upperarm_l ab) "upperarm_l"
                         0 (mapToYRotation (calcArmRatio lShoulder lElbow)) 0 r0 w0 in
      match rElbow with
      | None => Threw r1 w1
      | Some rElbow =>
        let '(r2, w2) := applyArmRotation SMOOTH (upperarm_r ab) "upperarm_r"
                           0 (mapToYRotation (calcArmRatio rShoulder rElbow)) 0 r1 w1 in
        let '(r3, w3) := applyArmRotation SMOOTH (lowerarm_l ab) "lowerarm_l" 0 0 0 r2 w2 in
        let '(r4, w4) := applyArmRotation SMOOTH (lowerarm_r ab) "lowerarm_r" 0 0 0 r3 w3 in
        Done r4 w4
      end
    end
  | _, _ => Threw r0 w
  end.

(** The per-frame effect of the calibrated hook. *)
Definition frameEffect (model : option Group) (landmarks : option Results)
    (mirrored : bool) (dv : DebugValues) (r : Refs) (w : World) : Outcome :=
  match model with
  | None => Done r w
  | Some _ =>
    if negb (initializedRef r) then Done r w
    else
      match armBonesRef r with
      | None => Done r w
      | Some ab =>
        if (negb (enableTracking dv) && negb (useManualRotations dv))%bool then Done r w
        else if useManualRotations dv then
          let '(r', w') := manualMode dv ab r w in Done r' w'
        else
          match poseOf landmarks with
          | None => Done r w
          | Some pose => trackingMode dv mirrored ab pose r w
          end
      end
  end.

(** [n] consecutive runs of the effect, each on the store the previous one
    left. *)
Fixpoint frames (n : nat) (model : option Group) (landmarks : option Results)
    (mirrored : bool) (dv : DebugValues) (r : Refs) (w : World) : Refs * World :=
  match n with
  | O => (r, w)
  | S k =>
    let o := frameEffect model landmarks mirrored dv r w in
    frames k model landmarks mirrored dv (outRefs o) (outWorld o)
  end.

End Calibrated.

(** ** The rest-relative hook of [hooks/useBodyModelRigging.ts] *)

Module RestRelative.

Definition SMOOTH : R := 0.35.

(** The body of [bones.forEach] in [applyRotationToAll]: rest X and Y (or 0
    when the name has no rest entry) plus the smoothed value; Z is absolute. *)
Definition writeBone (rest : gmap string Euler.t) (smooth : Euler.t)
    (store : gmap nat Bone.t) (id : BoneId) : gmap nat Bone.t :=
  match store !! id with
  | None => store
  | Some b =>
    let r := rest !! Bone.name b in
    <[id := Bone.mk (Bone.name b)
              (Euler.mk (match r with Some e => Euler.x e | None => 0 end + Euler.x smooth)
                        (match r with Some e => Euler.y e | None => 0 end + Euler.y smooth)
                        (Euler.z smooth))]> store
  end.

(** The bone object as one such write leaves it. *)
Definition posed (rest : gmap string Euler.t) (smooth : Euler.t) (b : Bone.t) : Bone.t :=
  let r := rest !! Bone.name b in
  Bone.mk (Bone.name b)
          (Euler.mk (match r with Some e => Euler.x e | None => 0 end + Euler.x smooth)
                    (match r with Some e => Euler.y e | None => 0 end + Euler.y smooth)
                    (Euler.z smooth)).

Definition applyRotationToAll (bs : list BoneId) (key : string)
    (x y z : R) (r : Refs) (w : World) : Refs * World :=
  match bs with
  | [] => (r, w)
  | _ :: _ =>
    let smooth := smoothUpdate SMOOTH (smoothRotations r !! key) x y z in
    (setSmooth r key smooth,
     setBones w (foldl (writeBone (restRotationsRef r) smooth) (bones w) bs))
  end.

Definition getRestZ (r : Refs) (w : World) (bs : list BoneId) : R :=
  match bs with
  | [] => 0
  | id :: _ =>
    match bones w !! id with
    | None => 0
    | Some b =>
      match restRotationsRef r !! Bone.name b with
      | Some rest => Euler.z rest
      | None => 0
      end
    end
  end.

Definition calcVerticalAngle (shoulderPos elbowPos : Landmark.t) : R :=
  let dy := - (Landmark.y elbowPos - Landmark.y shoulderPos) in
  let dx := Rabs (Landmark.x elbowPos - Landmark.x shoulderPos) in
  JsMath.atan2 dy dx.

(** Body position, scale and turn. *)
Definition placeModel (mirrored : bool)
    (leftShoulder rightShoulder leftHip rightHip : Landmark.t) (w : World) : World :=
  let m := if mirrored then -1 else 1 in
  let hipX := ((Landmark.x leftHip + Landmark.x rightHip) / 2 - 0.5) * m in
  let hipY := - ((Landmark.y leftHip + Landmark.y rightHip) / 2 - 0.5) in
  let shoulderWidth :=
    sqrt ((Landmark.x leftShoulder - Landmark.x rightShoulder) ^ 2 +
          (Landmark.y leftShoulder - Landmark.y rightShoulder) ^ 2) in
  let depthDiff := (Landmark.zOr0 leftShoulder - Landmark.zOr0 rightShoulder) * m in
  let bodyTurn := JsMath.atan2 depthDiff shoulderWidth * 1.2 in
  rotationSetY
    (scaleSetScalar (positionSet w (hipX * 3) (hipY * 3 - 0.4) 0) (shoulderWidth * 5.5))
    bodyTurn.

Definition armsStep (mirrored : bool) (ab : ArmBones) (pose : list Landmark.t)
    (leftShoulder rightShoulder : Landmark.t) (r0 : Refs) (w0 : World) : Outcome :=
  let lShoulder := if mirrored then rightShoulder else leftShoulder in
  let lElbow := if mirrored then pose !! MP_LANDMARKS.RIGHT_ELBOW
                else pose !! MP_LANDMARKS.LEFT_ELBOW in
  let lWrist := if mirrored then pose !! MP_LANDMARKS.RIGHT_WRIST
                else pose !! MP_LANDMARKS.LEFT_WRIST in
  let rShoulder := if mirrored then leftShoulder else rightShoulder in
  let rElbow := if mirrored then pose !! MP_LANDMARKS.LEFT_ELBOW
                else pose !! MP_LANDMARKS.RIGHT_ELBOW in
  let rWrist := if mirrored then pose !! MP_LANDMARKS.LEFT_WRIST
                else pose !! MP_LANDMARKS.RIGHT_WRIST in
  let restAngle := - PI / 2 in
  match lElbow with
  | None => Threw r0 w0
  | Some lElbow =>
    let deltaUL := calcVerticalAngle lShoulder lElbow - restAngle in
    let '(r1, w1) := applyRotationToAll (upperarm_l ab) "upperarm_l" 0 0
                       (getRestZ r0 w0 (upperarm_l ab) + deltaUL) r0 w0 in
    match lWrist with
    | None => Threw r1 w1
    | Some lWrist =>
      let deltaLL := calcVerticalAngle lElbow lWrist - restAngle in
      let '(r2, w2) := applyRotationToAll (lowerarm_l ab) "lowerarm_l" 0 0
                         (getRestZ r1 w1 (lowerarm_l ab) + deltaLL * 0.7) r1 w1 in
      match rElbow with
      | None => Threw r2 w2
      | Some rElbow =>
        let deltaUR := calcVerticalAngle rShoulder rElbow - restAngle in
        let '(r3, w3) := applyRotationToAll (upperarm_r ab) "upperarm_r" 0 0
                           (getRestZ r2 w2 (upperarm_r ab) - deltaUR) r2 w2 in
        match rWrist with
        | None => Threw r3 w3
        | Some rWrist =>
          let deltaLR := calcVerticalAngle rElbow rWrist - restAngle in
          let '(r4, w4) := applyRotationToAll (lowerarm_r ab) "lowerarm_r" 0 0
                             (getRestZ r3 w3 (lowerarm_r ab) - deltaLR * 0.7) r3 w3 in
          Done r4 w4
        end
      end
    end
  end.

(** The per-frame effect of the rest-relative hook. *)
Definition frameEffect (model : option Group) (landmarks : option Results)
    (mirrored : bool) (r : Refs) (w : World) : Outcome :=
  match model, poseOf landmarks with
  | Some _, Some pose =>
    if negb (initializedRef r) then Done r w
    else
      match armBonesRef r with
      | None => Done r w
      | Some ab =>
        let r0 := bumpFrame r in
        match pose !! MP_LANDMARKS.LEFT_HIP, pose !! MP_LANDMARKS.RIGHT_HIP,
              pose !! MP_LANDMARKS.LEFT_SHOULDER, pose !! MP_LANDMARKS.RIGHT_SHOULDER with
        | Some leftHip, Some rightHip, Some leftShoulder, Some rightShoulder =>
          armsStep mirrored ab pose leftShoulder rightShoulder r0
                   (placeModel mirrored leftShoulder rightShoulder leftHip rightHip w)
        | _, _, _, _ => Threw r0 w
        end
      end
  | _, _ => Done r w
  end.

End RestRelative.

(** ** The absolute hook: smoothed angles written as they are

    The variant of [useBodyModelRigging] that keeps no rest rotations: it
    shares the binding and the placement of the rest-relative hook and
    writes the smoothed Euler angles to the bones directly. *)

Module Absolute.

Definition SMOOTH : R := 0.35.

(** The body of [bones.forEach] in [applyRotationToAll]: all three angles
    of the bone are set to the smoothed ones. *)
Definition posed (smooth : Euler.t) (b : Bone.t) : Bone.t :=
  Bone.mk (Bone.name b) (Euler.mk (Euler.x smooth) (Euler.y smooth) (Euler.z smooth)).

Definition writeBone (smooth : Euler.t) (store : gmap nat Bone.t) (id : BoneId)
  : gmap nat Bone.t :=
  match store !! id with
  | None => store
  | Some b => <[id := posed smooth b]> store
  end.

Definition applyRotationToAll (bs : list BoneId) (key : string)
    (x y z : R) (r : Refs) (w : World) : Refs * World :=
  match bs with
  | [] => (r, w)
  | _ :: _ =>
    let smooth := smoothUpdate SMOOTH (smoothRotations r !! key) x y z in
    (setSmooth r key smooth, setBones w (foldl (writeBone smooth) (bones w) bs))
  end.

(** The four [zRot] blocks.  Only the left upper arm scales its horizontal
    difference, by 415. *)
Definition leftUpperZ (m : R) (shoulder elbow : Landmark.t) : R :=
  let dx := (Landmark.x elbow - Landmark.x shoulder) * m * 415 in
  let dy := - (Landmark.y elbow - Landmark.y shoulder) in
  let armAngle := JsMath.atan2 dy (Rabs dx) in
  armAngle - PI / 6.

Definition leftLowerZ (m : R) (elbow wrist : Landmark.t) : R :=
  let dx := (Landmark.x wrist - Landmark.x elbow) * m in
  let dy := - (Landmark.y wrist - Landmark.y elbow) in
  let armAngle := JsMath.atan2 dy (Rabs dx) in
  armAngle * 0.6.

Definition rightUpperZ (m : R) (shoulder elbow : Landmark.t) : R :=
  let dx := (Landmark.x elbow - Landmark.x shoulder) * m in
  let dy := - (Landmark.y elbow - Landmark.y shoulder) in
  let armAngle := JsMath.atan2 dy (Rabs dx) in
  - (armAngle - PI / 6).

Definition rightLowerZ (m : R) (elbow wrist : Landmark.t) : R :=
  let dx := (Landmark.x wrist - Landmark.x elbow) * m in
  let dy := - (Landmark.y wrist - Landmark.y elbow) in
  let armAngle := JsMath.atan2 dy (Rabs dx) in
  - armAngle * 0.6.

Definition armsStep (mirrored : bool) (ab : ArmBones) (pose : list Landmark.t)
    (leftShoulder rightShoulder : Landmark.t) (r0 : Refs) (w0 : World) : Outcome :=
  let m := if mirrored then -1 else 1 in
  let lShoulder := if mirrored then rightShoulder else leftShoulder in
  let lElbow := if mirrored then pose !! MP_LANDMARKS.RIGHT_ELBOW
                else pose !! MP_LANDMARKS.LEFT_ELBOW in
  let lWrist := if mirrored then pose !! MP_LANDMARKS.RIGHT_WRIST
                else pose !! MP_LANDMARKS.LEFT_WRIST in
  let rShoulder := if mirrored then leftShoulder else rightShoulder in
  let rElbow := if mirrored then pose !! MP_LANDMARKS.LEFT_ELBOW
                else pose !! MP_LANDMARKS.RIGHT_ELBOW in
  let rWrist := if mirrored then pose !! MP_LANDMARKS.LEFT_WRIST
                else pose !! MP_LANDMARKS.RIGHT_WRIST in
  match lElbow with
  | None => Threw r0 w0
  | Some lElbow =>
    let '(r1, w1) := applyRotationToAll (upperarm_l ab) "upperarm_l" 0 0
                       (leftUpperZ m lShoulder lElbow) r0 w0 in
    match lWrist with
    | None => Threw r1 w1
    | Some lWrist =>
      let '(r2, w2) := applyRotationToAll (lowerarm_l ab) "lowerarm_l" 0 0
                         (leftLowerZ m lElbow lWrist) r1 w1 in
      match rElbow with
      | None => Threw r2 w2
      | Some rElbow =>
        let '(r3, w3) := applyRotationToAll (upperarm_r ab) "upperarm_r" 0 0
                           (rightUpperZ m rShoulder rElbow) r2 w2 in
        match rWrist with
        | None => Threw r3 w3
        | Some rWrist =>
          let '(r4, w4) := applyRotationToAll (lowerarm_r ab) "lowerarm_r" 0 0
                             (rightLowerZ m rElbow rWrist) r3 w3 in
          Done r4 w4
        end
      end
    end
  end.

(** The per-frame effect of the absolute hook. *)
Definition frameEffect (model : option Group) (landmarks : option Results)
    (mirrored : bool) (r : Refs) (w : World) : Outcome :=
  match model, poseOf landmarks with
  | Some _, Some pose =>
    if negb (initializedRef r) then Done r w
    else
      match armBonesRef r with
      | None => Done r w
      | Some ab =>
        let r0 := bumpFrame r in
        match pose !! MP_LANDMARKS.LEFT_HIP, pose !! MP_LANDMARKS.RIGHT_HIP,
              pose !! MP_LANDMARKS.LEFT_SHOULDER, pose !! MP_LANDMARKS.RIGHT_SHOULDER with
        | Some leftHip, Some rightHip, Some leftShoulder, Some rightShoulder =>
          armsStep mirrored ab pose leftShoulder rightShoulder r0
                   (RestRelative.placeModel mirrored leftShoulder rightShoulder
                      leftHip rightHip w)
        | _, _, _, _ => Threw r0 w
        end
      end
  | _, _ => Done r w
  end.

End Absolute.

(** ** Direction-to-rotation helpers *)

Module BoneMapping.

(** [quaternionFromDirections] of [utils/boneMapping]. *)
Definition quaternionFromDirections (from to : Vector3.t) : Quaternion.t :=
  let f := Vector3.normalize from in
  let t := Vector3.normalize to in
  let dot := Vector3.dot f t in
  if Rlt_dec 0.9999 dot then Quaternion.identity
  else if Rlt_dec dot (-0.9999) then
    let perp := if Rlt_dec (Rabs (Vector3.x f)) 0.9
                then Vector3.mk 1 0 0 else Vector3.mk 0 1 0 in
    let axis := Vector3.normalize (Vector3.crossVectors f perp) in
    Quaternion.setFromAxisAngle axis PI
  else
    let axis := Vector3.normalize (Vector3.crossVectors f t) in
    let angle := acos (JsMath.max (-1) (JsMath.min 1 dot)) in
    Quaternion.setFromAxisAngle axis angle.

(** [findBone]: the first bone whose lower-cased name equals the lower-cased
    [name]. *)
Definition findBone (store : gmap nat Bone.t) (skeleton : list BoneId) (name : string)
  : option BoneId :=
  List.find (fun id =>
    match store !! id with
    | Some b => Str.eqb (Str.toLowerCase (Bone.name b)) (Str.toLowerCase name)
    | None => false
    end) skeleton.

Module LANDMARKS.
Definition LEFT_SHOULDER : nat := 11.
Definition RIGHT_SHOULDER : nat := 12.
End LANDMARKS.

(** [landmarkTo3D]: X mirrored, Y inverted, depth doubled. *)
Definition landmarkTo3D (landmark : Landmark.t) : Vector3.t :=
  Vector3.mk (- (Landmark.x landmark - 0.5) * 2)
             (- (Landmark.y landmark - 0.5) * 2)
             (- Landmark.zOr0 landmark * 2).

Definition landmarkToScreen (landmark : Landmark.t) (aspect : R) : Vector3.t :=
  Vector3.mk (- (Landmark.x landmark - 0.5) * 2 * aspect)
             (- (Landmark.y landmark - 0.5) * 2)
             0.

Definition landmarkMidpoint (l1 l2 : Landmark.t) (aspect : R) : Vector3.t :=
  let v1 := landmarkToScreen l1 aspect in
  let v2 := landmarkToScreen l2 aspect in
  Vector3.multiplyScalar (Vector3.addVectors v1 v2) 0.5.

(** The three shoulder measures read [landmarks[11]] and [landmarks[12]];
    a missing entry makes the property read throw, [None] here. *)
Definition shoulderTiltAngle (landmarks : list Landmark.t) : option R :=
  match landmarks !! LANDMARKS.LEFT_SHOULDER, landmarks !! LANDMARKS.RIGHT_SHOULDER with
  | Some left_, Some right_ =>
    let dy := Landmark.y right_ - Landmark.y left_ in
    let dx := Landmark.x right_ - Landmark.x left_ in
    Some (JsMath.atan2 dy dx)
  | _, _ => None
  end.

Definition normalizedShoulderWidth (landmarks : list Landmark.t) : option R :=
  match landmarks !! LANDMARKS.LEFT_SHOULDER, landmarks !! LANDMARKS.RIGHT_SHOULDER with
  | Some left_, Some right_ =>
    let dx := Landmark.x left_ - Landmark.x right_ in
    let dy := Landmark.y left_ - Landmark.y right_ in
    Some (sqrt (dx * dx + dy * dy))
  | _, _ => None
  end.

Definition bodyTurnAngle (landmarks : list Landmark.t) : option R :=
  match landmarks !! LANDMARKS.LEFT_SHOULDER, landmarks !! LANDMARKS.RIGHT_SHOULDER with
  | Some left_, Some right_ =>
    let dz := Landmark.zOr0 left_ - Landmark.zOr0 right_ in
    match normalizedShoulderWidth landmarks with
    | Some width => Some (JsMath.atan2 dz width * 1.5)
    | None => None
    end
  | _, _ => None
  end.

Definition landmarkDirection (from to : Landmark.t) : Vector3.t :=
  let f := landmarkTo3D from in
  let t := landmarkTo3D to in
  Vector3.normalize (Vector3.sub t f).

End BoneMapping.

Module PoseRetargeting.

(** [getRotationBetweenVectors] of [utils/poseRetargeting]. *)
Definition getRotationBetweenVectors (from to : Vector3.t) : Quaternion.t :=
  let fromNorm := Vector3.normalize from in
  let toNorm := Vector3.normalize to in
  let dot := Vector3.dot fromNorm toNorm in
  if Rlt_dec 0.9999 dot then Quaternion.identity
  else if Rlt_dec dot (-0.9999) then
    let axis := Vector3.cross (Vector3.mk 1 0 0) fromNorm in
    let axis := if Rlt_dec (Vector3.lengthSq axis) 0.001
                then Vector3.cross (Vector3.mk 0 1 0) fromNorm else axis in
    Quaternion.setFromAxisAngle (Vector3.normalize axis) PI
  else
    let axis := Vector3.normalize (Vector3.cross fromNorm toNorm) in
    let angle := acos (JsMath.max (-1) (JsMath.min 1 dot)) in
    Quaternion.setFromAxisAngle axis angle.

Inductive BoneKey : Type :=
| hips | spine | spine1 | spine2 | neck | head
| leftShoulder | leftUpperArm | leftLowerArm | leftHand
| rightShoulder | rightUpperArm | rightLowerArm | rightHand
| leftUpperLeg | leftLowerLeg | leftFoot | leftToe
| rightUpperLeg | rightLowerLeg | rightFoot | rightToe.

Definition BONE_NAME_PATTERNS (k : BoneKey) : list string :=
  match k with
  | hips => ["pelvis"; "hips"; "root"; "hip"]
  | spine => ["spine_01"; "spine"; "spine1"; "spine.001"]
  | spine1 => ["spine_02"; "spine_03"; "spine2"; "spine.002"; "chest"]
  | spine2 => ["spine_04"; "spine_05"; "spine3"; "spine.003"; "upperchest"]
  | neck => ["neck_01"; "neck_02"; "neck"]
  | head => ["head"; "head_01"]
  | leftShoulder => ["clavicle_l"; "leftshoulder"; "shoulder_l"; "l_clavicle"; "shoulder.l"]
  | leftUpperArm => ["upperarm_l"; "leftarm"; "l_upperarm"; "arm_l"; "upper_arm.l"; "upperarm.l"]
  | leftLowerArm => ["lowerarm_l"; "leftforearm"; "l_lowerarm"; "forearm_l"; "lower_arm.l"; "lowerarm.l"]
  | leftHand => ["hand_l"; "lefthand"; "l_hand"; "hand.l"]
  | rightShoulder => ["clavicle_r"; "rightshoulder"; "shoulder_r"; "r_clavicle"; "shoulder.r"]
  | rightUpperArm => ["upperarm_r"; "rightarm"; "r_upperarm"; "arm_r"; "upper_arm.r"; "upperarm.r"]
  | rightLowerArm => ["lowerarm_r"; "rightforearm"; "r_lowerarm"; "forearm_r"; "lower_arm.r"; "lowerarm.r"]
  | rightHand => ["hand_r"; "righthand"; "r_hand"; "hand.r"]
  | leftUpperLeg => ["thigh_l"; "leftupleg"; "l_thigh"; "upperleg_l"; "upper_leg.l"; "thigh.l"]
  | leftLowerLeg => ["calf_l"; "leftleg"; "l_calf"; "lowerleg_l"; "lower_leg.l"; "shin.l"]
  | leftFoot => ["foot_l"; "leftfoot"; "l_foot"; "foot.l"]
  | leftToe => ["ball_l"; "lefttoebase"; "toe_l"; "l_toe"; "toe.l"]
  | rightUpperLeg => ["thigh_r"; "rightupleg"; "r_thigh"; "upperleg_r"; "upper_leg.r"; "thigh.r"]
  | rightLowerLeg => ["calf_r"; "rightleg"; "r_calf"; "lowerleg_r"; "lower_leg.r"; "shin.r"]
  | rightFoot => ["foot_r"; "rightfoot"; "r_foot"; "foot.r"]
  | rightToe => ["ball_r"; "righttoebase"; "toe_r"; "r_toe"; "toe.r"]
  end.

(** [b.name.toLowerCase ()] of the bone object with identity [id]. *)
Definition lowerName (store : gmap nat Bone.t) (id : BoneId) : option string :=
  match store !! id with
  | Some b => Some (Str.toLowerCase (Bone.name b))
  | None => None
  end.

Definition exactMatch (store : gmap nat Bone.t) (pattern : string) (id : BoneId) : bool :=
  match lowerName store id with
  | Some n => Str.eqb n (Str.toLowerCase pattern)
  | None => false
  end.

Definition includesMatch (store : gmap nat Bone.t) (pattern : string) (id : BoneId) : bool :=
  match lowerName store id with
  | Some n =>
    (Str.includes n (Str.toLowerCase pattern) &&
     negb (Str.includes n "twist") &&
     negb (Str.includes n "corrective") &&
     negb (Str.includes n "_in_") &&
     negb (Str.includes n "_out_") &&
     negb (Str.includes n "_fwd") &&
     negb (Str.includes n "_bck"))%bool
  | None => false
  end.

(** A [for (const pattern of patterns)] loop that returns the first bone
    some pattern finds. *)
Fixpoint firstFound (test : string -> BoneId -> bool) (skeleton : list BoneId)
    (patterns : list string) : option BoneId :=
  match patterns with
  | [] => None
  | pattern :: rest =>
    match List.find (test pattern) skeleton with
    | Some id => Some id
    | None => firstFound test skeleton rest
    end
  end.

Definition findBoneByPattern (store : gmap nat Bone.t) (skeleton : list BoneId)
    (boneKey : BoneKey) : option BoneId :=
  let patterns := BONE_NAME_PATTERNS boneKey in
  match firstFound (exactMatch store) skeleton patterns with
  | Some id => Some id
  | None => firstFound (includesMatch store) skeleton patterns
  end.

Definition landmarkToWorld (landmark : Landmark.t) (scale : R) : Vector3.t :=
  Vector3.mk ((Landmark.x landmark - 0.5) * scale)
             (- (Landmark.y landmark - 0.5) * scale)
             (- Landmark.zOr0 landmark * scale * 0.5).

Definition getLandmarkMidpoint (l1 l2 : Landmark.t) (scale : R) : Vector3.t :=
  let p1 := landmarkToWorld l1 scale in
  let p2 := landmarkToWorld l2 scale in
  Vector3.multiplyScalar (Vector3.add p1 p2) 0.5.

(** [calculateLimbRotation]: the rest rotation times the rotation from the
    rest direction to the parent-to-child direction. *)
Definition calculateLimbRotation (parentPos childPos restDirection : Vector3.t)
    (restRotation : Quaternion.t) : Quaternion.t :=
  let currentDir := Vector3.normalize (Vector3.sub childPos parentPos) in
  let deltaRotation := getRotationBetweenVectors restDirection currentDir in
  Quaternion.multiply restRotation deltaRotation.

Definition lerpVector3 (from to : Vector3.t) (t : R) : Vector3.t :=
  Vector3.lerp from to t.

End PoseRetargeting.

(** ** Rest poses of the jacket hook *)

Module Jacket.

(** A jacket bone: its name and its local [quaternion]. *)
Record JBone : Type := mkJBone { jname : string; quaternion : Quaternion.t }.

(** [traverse] keeps the skeleton of the last skinned mesh it meets. *)
Definition lastSkeleton (skeletons : list (list BoneId)) : option (list BoneId) :=
  last skeletons.

(** [restPoses.set (bone.name, bone.quaternion.clone ())] over
    [skeleton.bones], into a fresh map. *)
Definition captureRestPoses (store : gmap nat JBone) (skeleton : list BoneId)
  : gmap string Quaternion.t :=
  foldl (fun m id =>
           match store !! id with
           | Some b => <[jname b := quaternion b]> m
           | None => m
           end) ∅ skeleton.

(** The initialisation effect: [restPosesRef] is replaced when the model has
    a skeleton and kept otherwise. *)
Definition initEffect (model : option (list (list BoneId))) (store : gmap nat JBone)
    (restPosesRef : gmap string Quaternion.t) : gmap string Quaternion.t :=
  match model with
  | None => restPosesRef
  | Some skeletons =>
    match lastSkeleton skeletons with
    | Some skeleton => captureRestPoses store skeleton
    | None => restPosesRef
    end
  end.

Definition SMOOTH : R := 0.15.

(** [lerp] of the hook. *)
Definition lerp (a b t : R) : R := a + (b - a) * t.

(** The placement refs of one hook instance. *)
Record Placement : Type := mkPlacement {
  prevPos : Vector3.t;
  prevScale : R;
  prevRotZ : R;
  prevRotY : R;
  initialized : bool;
  frameCountRef : nat
}.

(** The refs as [useRef] creates them. *)
Definition mountPlacement : Placement :=
  mkPlacement (Vector3.mk 0 0 0) 1 0 0 false 0.

(** The transform of the jacket model group. *)
Record Transform : Type := mkTransform {
  position : Vector3.t;
  scale : Vector3.t;
  rotation : Euler.t
}.

(** Section 1 of the frame effect, position and scale of the whole model;
    [None] when a property read on a missing landmark throws. *)
Definition placeModel (pose : list Landmark.t) (aspect : R) (p : Placement)
  : option (Placement * Transform) :=
  match pose !! BoneMapping.LANDMARKS.LEFT_SHOULDER,
        pose !! BoneMapping.LANDMARKS.RIGHT_SHOULDER with
  | Some l1, Some l2 =>
    let mid := BoneMapping.landmarkMidpoint l1 l2 aspect in
    let shoulderMid := Vector3.mk (Vector3.x mid) (Vector3.y mid - 0.15) (Vector3.z mid) in
    match BoneMapping.normalizedShoulderWidth pose,
          BoneMapping.shoulderTiltAngle pose,
          BoneMapping.bodyTurnAngle pose with
    | Some shoulderW, Some targetRotZ, Some targetRotY =>
      let targetScale := shoulderW * 5.0 in
      let smoothFactor := 1 - SMOOTH in
      let p1 := if initialized p then p
                else mkPlacement shoulderMid targetScale targetRotZ targetRotY true
                       (frameCountRef p) in
      let p2 := mkPlacement (Vector3.lerp (prevPos p1) shoulderMid smoothFactor)
                  (lerp (prevScale p1) targetScale smoothFactor)
                  (lerp (prevRotZ p1) targetRotZ smoothFactor)
                  (lerp (prevRotY p1) targetRotY smoothFactor)
                  (initialized p1) (frameCountRef p1) in
      Some (p2, mkTransform (prevPos p2)
                  (Vector3.mk (prevScale p2) (prevScale p2) (prevScale p2))
                  (Euler.mk PI (prevRotY p2) (prevRotZ p2)))
    | _, _, _ => None
    end
  | _, _ => None
  end.

(** The frame effect as far as the placement refs and the model transform
    go.  The bone-level section that follows section 1 inside the same [try]
    writes bone quaternions and [prevBones] only; whatever is thrown is
    caught, after the frame counter has been incremented. *)
Definition frameEffect (jacketModel : option (list (list BoneId)))
    (landmarks : option Results) (aspect : R) (p : Placement) (m : Transform)
  : Placement * Transform :=
  match jacketModel, poseOf landmarks with
  | Some _, Some pose =>
    let p0 := mkPlacement (prevPos p) (prevScale p) (prevRotZ p) (prevRotY p)
                (initialized p) (S (frameCountRef p)) in
    match placeModel pose aspect p0 with
    | Some (p', m') => (p', m')
    | None => (p0, m)
    end
  | _, _ => (p, m)
  end.

(** The same frame, [n] times over. *)
Definition frames (jacketModel : option (list (list BoneId)))
    (landmarks : option Results) (aspect : R) (n : nat) (s : Placement * Transform)
  : Placement * Transform :=
  Nat.iter n (fun s => frameEffect jacketModel landmarks aspect s.1 s.2) s.

(** A run of frames, each with its own landmarks. *)
Definition run (jacketModel : option (list (list BoneId)))
    (fs : list (option Results * R)) (s : Placement * Transform)
  : Placement * Transform :=
  foldl (fun s f => frameEffect jacketModel f.1 f.2 s.1 s.2) s fs.

End Jacket.

(** ** Vocabulary of the properties *)

(** The bone object [id] exists and its lower-cased name passes [test]. *)
Definition boundAs (store : gmap nat Bone.t) (test : string -> bool) (id : BoneId) : Prop :=
  exists b, store !! id = Some b /\ test (Str.toLowerCase (Bone.name b)) = true.

(** The refs a frame never writes: bindings, rest map, initialised flag. *)
Definition sameBinding (r r' : Refs) : Prop :=
  armBonesRef r' = armBonesRef r /\
  restRotationsRef r' = restRotationsRef r /\
  initializedRef r' = initializedRef r.

(** One [map.set (key, value)] of a capture loop, whatever the objects and
    the captured values are. *)
Definition captureStep {X V : Type} (store : gmap nat X) (key : X -> string) (val : X -> V)
    (m : gmap string V) (id : nat) : gmap string V :=
  match store !! id with
  | None => m
  | Some b => <[key b := val b]> m
  end.

(** The smoothing map after one applier call on binding [bs]: untouched
    when the binding is empty. *)
Definition smoothed (SMOOTH : R) (bs : list BoneId) (key : string) (x y z : R)
    (m : gmap string Euler.t) : gmap string Euler.t :=
  match bs with
  | [] => m
  | _ :: _ => <[key := smoothUpdate SMOOTH (m !! key) x y z]> m
  end.

(** The clamp invariant of the model transform in the calibrated hook. *)
Definition clampInvariant (w : World) : Prop :=
  Calibrated.MIN_X <= Vector3.x (position w) <= Calibrated.MAX_X /\
  Calibrated.MIN_Y <= Vector3.y (position w) <= Calibrated.MAX_Y /\
  Vector3.z (position w) = 0 /\
  (exists s, scale w = Vector3.mk s s s /\
             Calibrated.MIN_SCALE <= s <= Calibrated.MAX_SCALE) /\
  Euler.y (rotation w) = 0.

(** ** A rig whose single bone matches two joint keys

    The lower-cased name includes both [upperarm_r] and [lowerarm_l] and no
    excluded marker, so the bone is pushed to both arrays. *)



(** ** Skeletons with secondary deformation bones *)

Definition upperArmMarkers : list string :=
  ["twist"; "corrective"; "_in"; "_out"; "_fwd"; "_bck"; "bicep"; "tricep"].

(** The markers that the substring pass of [findBoneByPattern] rejects. *)
Definition patternPassMarkers : list string :=
  ["twist"; "corrective"; "_in_"; "_out_"; "_fwd"; "_bck"].

Definition twistStore : gmap nat Bone.t :=
  <[0%nat := Bone.mk "upperarm_l" (Euler.mk 0 0 0)]>
    (<[1%nat := Bone.mk "upperarm_l_twist01" (Euler.mk 0 0 0)]> ∅).


(** ** Example frames and debug values *)

(** A frame of 33 landmarks: left shoulder at (0.3, 0.4) with the left elbow
    straight below it at (0.3, 0.6), the right arm likewise at x = 0.7, and
    every other landmark at the image centre. *)
Definition scenarioLandmark (i : nat) : Landmark.t :=
  if Nat.eqb i 11 then Landmark.mk 0.3 0.4 None
  else if Nat.eqb i 13 then Landmark.mk 0.3 0.6 None
  else if Nat.eqb i 12 then Landmark.mk 0.7 0.4 None
  else if Nat.eqb i 14 then Landmark.mk 0.7 0.6 None
  else Landmark.mk 0.5 0.5 None.

Definition scenarioPose : list Landmark.t := List.map scenarioLandmark (seq 0 33).

Definition scenarioFrame : option Results := Some (mkResults (Some scenarioPose)).

(** Manual mode with both upper-arm Y sliders at 13 degrees. *)
Definition manualValues : DebugValues :=
  mkDebugValues 0 13 0 0 0 0 0 13 0 0 0 0 0.35 true true.

(** ** A rig with two duplicate armatures

    Two skinned meshes, each with its own skeleton of one bone; both bones
    are named [upperarm_l] and stand at different rotations. *)

Definition dupBone0 : Bone.t := Bone.mk "upperarm_l" (Euler.mk 0 0 0.1).
Definition dupBone1 : Bone.t := Bone.mk "upperarm_l" (Euler.mk 0 0 0.2).
Definition dupStore : gmap nat Bone.t := <[0%nat := dupBone0]> (<[1%nat := dupBone1]> ∅).
Definition dupRig : Group := mkGroup [[0%nat]; [1%nat]].
Definition dupWorld : World :=
  mkWorld dupStore (Vector3.mk 0 0 0) (Vector3.mk 1 1 1) (Euler.mk 0 0 0).

(** ** Vocabulary of the further properties *)

(** Did the effect throw? *)
Definition threw (o : Outcome) : bool :=
  match o with Done _ _ => false | Threw _ _ => true end.

(** Two stores that agree except that the model sits at mirrored X. *)
Definition mirrorX (w w' : World) : Prop :=
  bones w = bones w' /\ scale w = scale w' /\ rotation w = rotation w' /\
  Vector3.x (position w) = - Vector3.x (position w') /\
  Vector3.y (position w) = Vector3.y (position w') /\
  Vector3.z (position w) = Vector3.z (position w').

(** From [w] to [w'] no bone changed its name, and no bone outside [S]
    changed at all. *)
Definition touchesOnly (S : list BoneId) (w w' : World) : Prop :=
  forall i : nat,
    Bone.name <$> bones w' !! i = Bone.name <$> bones w !! i /\
    (i ∉ S -> bones w' !! i = bones w !! i).

(** The example frame with left and right shoulders and elbows exchanged. *)
Definition swappedLandmark (i : nat) : Landmark.t :=
  if Nat.eqb i 11 then scenarioLandmark 12
  else if Nat.eqb i 12 then scenarioLandmark 11
  else if Nat.eqb i 13 then scenarioLandmark 14
  else if Nat.eqb i 14 then scenarioLandmark 13
  else scenarioLandmark i.

Definition swappedPose : list Landmark.t := List.map swappedLandmark (seq 0 33).

(** The bone object [o] after the [forEach] of one [applyArmRotation] call
    on the binding [bs], seen from identity [i]. *)
Definition wrote (rest : gmap string Euler.t) (s : Euler.t) (bs : list BoneId)
    (i : nat) (o : option Bone.t) : option Bone.t :=
  if decide (i ∈ bs) then Calibrated.posed rest s <$> o else o.

(** The smoothing map after the four calls of a tracking frame whose upper
    arm targets are [tl] and [tr]. *)
Definition trackedSmooth (SMOOTH : R) (ab : ArmBones) (tl tr : R)
    (m : gmap string Euler.t) : gmap string Euler.t :=
  smoothed SMOOTH (lowerarm_r ab) "lowerarm_r" 0 0 0
    (smoothed SMOOTH (lowerarm_l ab) "lowerarm_l" 0 0 0
       (smoothed SMOOTH (upperarm_r ab) "upperarm_r" 0 tr 0
          (smoothed SMOOTH (upperarm_l ab) "upperarm_l" 0 tl 0 m))).

(** The bone object [o] after the four calls of a tracking frame that
    started from the smoothing map [m]. *)
Definition trackedBone (SMOOTH : R) (ab : ArmBones) (tl tr : R)
    (rest m : gmap string Euler.t) (i : nat) (o : option Bone.t) : option Bone.t :=
  wrote rest (smoothUpdate SMOOTH (m !! "lowerarm_r") 0 0 0) (lowerarm_r ab) i
    (wrote rest (smoothUpdate SMOOTH (m !! "lowerarm_l") 0 0 0) (lowerarm_l ab) i
       (wrote rest (smoothUpdate SMOOTH (m !! "upperarm_r") 0 tr 0) (upperarm_r ab) i
          (wrote rest (smoothUpdate SMOOTH (m !! "upperarm_l") 0 tl 0) (upperarm_l ab) i o))).

(** The markers that keep a bone out of the lower-arm arrays. *)
Definition lowerArmMarkers : list string :=
  ["twist"; "corrective"; "_in"; "_out"; "_fwd"; "_bck"].

(** [pat] occurs in [s]: [s] is [pat] with something before and after. *)
Definition substring (pat s : string) : Prop :=
  exists pre post, s = (pre +:+ pat +:+ post)%string.

(** The lower-cased name of the bone object [id] has [pat] as a substring
    and none of [markers]. *)
Definition namedLike (store : gmap nat Bone.t) (pat : string) (markers : list string)
    (id : BoneId) : Prop :=
  exists b, store !! id = Some b /\
    substring pat (Str.toLowerCase (Bone.name b)) /\
    Forall (fun m => ~ substring m (Str.toLowerCase (Bone.name b))) markers.

(** The bone object [o] after the [forEach] of one [applyRotationToAll]
    call on the binding [bs], seen from identity [i]. *)
Definition wroteAll (rest : gmap string Euler.t) (s : Euler.t) (bs : list BoneId)
    (i : nat) (o : option Bone.t) : option Bone.t :=
  if decide (i ∈ bs) then RestRelative.posed rest s <$> o else o.

(** The four target Z angles of a rest-relative frame: rest Z of the first
    bound bone plus (left) or minus (right) the arm angle measured from the
    arms-down direction, the forearms at 0.7 of it. *)
Definition targetZ (r : Refs) (w : World) (bs : list BoneId) (sign factor : R)
    (from to : Landmark.t) : R :=
  RestRelative.getRestZ r w bs
  + sign * ((RestRelative.calcVerticalAngle from to - (- PI / 2)) * factor).

(** What every run of the jacket hook keeps true of its placement refs. *)
Definition placementInvariant (p : Jacket.Placement) : Prop :=
  Vector3.z (Jacket.prevPos p) = 0 /\
  0 <= Jacket.prevScale p /\
  - PI <= Jacket.prevRotZ p <= PI /\
  - (0.75 * PI) <= Jacket.prevRotY p <= 0.75 * PI.

(** The model transform is still [m0], or carries a placement. *)
Definition placedOrUntouched (m0 m : Jacket.Transform) : Prop :=
  m = m0 \/
  exists s, 0 <= s /\ Jacket.scale m = Vector3.mk s s s /\
            Vector3.z (Jacket.position m) = 0 /\
            Euler.x (Jacket.rotation m) = PI.

(** ** The camera loop of [useBodyTracking] *)

Module BodyTracking.

(** The refs the camera callback reads: the frame counter, and whether
    [poseRef.current] and [videoRef.current] are set. *)
Record Refs : Type := mkRefs {
  frameCountRef : nat;
  poseRef : bool;
  videoRef : bool
}.

(** [onFrame]: the refs afterwards, and whether the frame was sent to the
    pose model. *)
Definition onFrame (r : Refs) : Refs * bool :=
  let r := mkRefs (S (frameCountRef r)) (poseRef r) (videoRef r) in
  if negb (frameCountRef r mod 2 =? 0)%nat then (r, false)
  else if (poseRef r && videoRef r)%bool then (r, true)
  else (r, false).

(** The cleanup of the effect: camera and pose model dropped, counter reset. *)
Definition cleanup (r : Refs) : Refs := mkRefs 0 false (videoRef r).

(** [n] camera frames in a row: the refs afterwards and, frame by frame,
    whether it was sent. *)
Fixpoint onFrames (n : nat) (r : Refs) : Refs * list bool :=
  match n with
  | O => (r, [])
  | S k => let '(r1, sent) := onFrame r in
           let '(r2, rest) := onFrames k r1 in
           (r2, sent :: rest)
  end.

End BodyTracking.

(** The bone object [o] after the [forEach] of one [applyRotationToAll]
    call of the absolute hook on the binding [bs], seen from identity [i]. *)
Definition wroteAbs (s : Euler.t) (bs : list BoneId) (i : nat) (o : option Bone.t)
  : option Bone.t :=
  if decide (i ∈ bs) then Absolute.posed s <$> o else o.

(** * Part II: properties *)

(** ** The string and number primitives on small inputs *)

Example includes_twist : Str.includes "upperarm_l_twist01" "twist" = true.
Proof. reflexivity. Qed.

Example includes_empty_pattern : Str.includes "hand_l" "" = true.
Proof. reflexivity. Qed.

Example includes_needs_all : Str.includes "upperarm_l" "upperarm_r" = false.
Proof. reflexivity. Qed.

Example toLowerCase_mixed : Str.toLowerCase "UpperArm_L" = "upperarm_l"%string.
Proof. reflexivity. Qed.

Example matchUpper_plain : matchUpper "upperarm_l" "upperarm_l" = true.
Proof. reflexivity. Qed.

Example matchUpper_twist : matchUpper "upperarm_l" "upperarm_l_twist01" = false.
Proof. reflexivity. Qed.

Example matchUpper_inner : matchUpper "upperarm_l" "upperarm_l_inner" = false.
Proof. reflexivity. Qed.

(** ** Arithmetic of the JavaScript functions *)

Lemma atan2_neg_axis (y : R) : y < 0 -> JsMath.atan2 y 0 = - (PI / 2).
Proof.
  intros Hy. unfold JsMath.atan2.
  destruct (Rlt_dec 0 0) as [H0 | _]; [lra |].
  destruct (Rlt_dec 0 y) as [H1 | _]; [lra |].
  destruct (Rlt_dec y 0) as [_ | H2]; [reflexivity | lra].
Qed.

(** On the half plane [0 <= x] the angle stays within a quarter turn of the
    horizontal. *)
Lemma atan2_half_plane (y x : R) :
  0 <= x -> - (PI / 2) <= JsMath.atan2 y x <= PI / 2.
Proof.
  intros Hx. pose proof PI_RGT_0 as Hpi. unfold JsMath.atan2.
  destruct (Rlt_dec 0 x) as [_ | Hnx].
  - pose proof (atan_bound (y / x)) as [? ?]. lra.
  - destruct (Rlt_dec x 0) as [Hx0 | _]; [lra |].
    destruct (Rlt_dec 0 y) as [_ | _]; [lra |].
    destruct (Rlt_dec y 0) as [_ | _]; lra.
Qed.

Lemma clamp_bounds (lo hi v : R) :
  lo <= hi -> lo <= JsMath.max lo (JsMath.min hi v) <= hi.
Proof.
  intros Hle. unfold JsMath.max, JsMath.min. split.
  - apply Rmax_l.
  - apply Rmax_lub; [exact Hle | apply Rmin_l].
Qed.

Lemma clamp_inside (lo hi v : R) :
  lo <= v <= hi -> JsMath.max lo (JsMath.min hi v) = v.
Proof.
  intros [Hlo Hhi]. unfold JsMath.max, JsMath.min.
  rewrite Rmin_right by exact Hhi. now rewrite Rmax_right.
Qed.

Lemma clamp_above (lo hi v : R) :
  lo <= hi -> hi <= v -> JsMath.max lo (JsMath.min hi v) = hi.
Proof.
  intros Hle Hv. unfold JsMath.max, JsMath.min.
  rewrite Rmin_left by exact Hv. now rewrite Rmax_right.
Qed.

(** ** The single-pole filter *)







(** ** Writes to the bone store *)

Section StoreWrites.

Variable f : Bone.t -> Bone.t.
Variable wr : gmap nat Bone.t -> BoneId -> gmap nat Bone.t.

Hypothesis f_idem : forall b, f (f b) = f b.
Hypothesis wr_lookup : forall (store : gmap nat Bone.t) (id i : nat),
  wr store id !! i = if decide (i = id) then f <$> store !! i else store !! i.

(** After the [forEach], the bones of the array hold the written value and
    every other bone is as before. *)
Lemma forEach_lookup (bs : list BoneId) (store : gmap nat Bone.t) (i : nat) :
  foldl wr store bs !! i =
    if decide (i ∈ bs) then f <$> store !! i else store !! i.
Proof.
  revert store. induction bs as [| id bs IH]; intros store; simpl.
  - destruct (decide (i ∈ [])) as [Hin | _]; [inversion Hin | reflexivity].
  - rewrite IH, wr_lookup.
    destruct (decide (i = id)) as [-> | Hne].
    + rewrite (decide_True (P := id ∈ id :: bs)) by (now left).
      case_decide; [| reflexivity].
      destruct (store !! id) as [b |]; simpl; [now rewrite f_idem | reflexivity].
    + case_decide as Hin.
      * rewrite (decide_True (P := i ∈ id :: bs)) by (now right). reflexivity.
      * rewrite (decide_False (P := i ∈ id :: bs)); [reflexivity |].
        intros [? | ?]%elem_of_cons; [congruence | contradiction].
Qed.

End StoreWrites.

Lemma calibrated_posed_idem (rest : gmap string Euler.t) (smooth : Euler.t) (b : Bone.t) :
  Calibrated.posed rest smooth (Calibrated.posed rest smooth b) = Calibrated.posed rest smooth b.
Proof.
  unfold Calibrated.posed.
  destruct (rest !! Bone.name b) as [e |] eqn:He; simpl; now rewrite He.
Qed.

Lemma calibrated_writeBone_lookup (rest : gmap string Euler.t) (smooth : Euler.t)
    (store : gmap nat Bone.t) (id i : nat) :
  Calibrated.writeBone rest smooth store id !! i =
    if decide (i = id) then Calibrated.posed rest smooth <$> store !! i else store !! i.
Proof.
  unfold Calibrated.writeBone, Calibrated.posed.
  destruct (decide (i = id)) as [-> | Hne].
  - destruct (store !! id) as [b |] eqn:Hb; simpl; [| now rewrite Hb].
    destruct (rest !! Bone.name b) as [e |]; [now rewrite lookup_insert_eq | now rewrite Hb].
  - destruct (store !! id) as [b |]; [| reflexivity].
    destruct (rest !! Bone.name b) as [e |]; [| reflexivity].
    now rewrite lookup_insert_ne by congruence.
Qed.

Lemma restRelative_posed_idem (rest : gmap string Euler.t) (smooth : Euler.t) (b : Bone.t) :
  RestRelative.posed rest smooth (RestRelative.posed rest smooth b)
  = RestRelative.posed rest smooth b.
Proof. reflexivity. Qed.

Lemma restRelative_writeBone_lookup (rest : gmap string Euler.t) (smooth : Euler.t)
    (store : gmap nat Bone.t) (id i : nat) :
  RestRelative.writeBone rest smooth store id !! i =
    if decide (i = id) then RestRelative.posed rest smooth <$> store !! i else store !! i.
Proof.
  unfold RestRelative.writeBone, RestRelative.posed.
  destruct (decide (i = id)) as [-> | Hne].
  - destruct (store !! id) as [b |] eqn:Hb; simpl; [| now rewrite Hb].
    now rewrite lookup_insert_eq.
  - destruct (store !! id) as [b |]; [| reflexivity].
    now rewrite lookup_insert_ne by congruence.
Qed.

(** The store after [applyArmRotation], bone by bone. *)
Lemma applyArmRotation_bones (SMOOTH : R) (bs : list BoneId) (key : string)
    (x y z : R) (r : Refs) (w : World) (i : nat) :
  bones (Calibrated.applyArmRotation SMOOTH bs key x y z r w).2 !! i =
    if decide (i ∈ bs)
    then Calibrated.posed (restRotationsRef r)
           (smoothUpdate SMOOTH (smoothRotations r !! key) x y z) <$> bones w !! i
    else bones w !! i.
Proof.
  destruct bs as [| id bs]; simpl.
  - destruct (decide (i ∈ [])) as [Hin | _]; [inversion Hin | reflexivity].
  - apply (forEach_lookup _ _ (calibrated_posed_idem _ _)
             (calibrated_writeBone_lookup _ _) (id :: bs)).
Qed.

(** The store after [applyRotationToAll], bone by bone. *)
Lemma applyRotationToAll_bones (bs : list BoneId) (key : string)
    (x y z : R) (r : Refs) (w : World) (i : nat) :
  bones (RestRelative.applyRotationToAll bs key x y z r w).2 !! i =
    if decide (i ∈ bs)
    then RestRelative.posed (restRotationsRef r)
           (smoothUpdate RestRelative.SMOOTH (smoothRotations r !! key) x y z) <$> bones w !! i
    else bones w !! i.
Proof.
  destruct bs as [| id bs]; simpl.
  - destruct (decide (i ∈ [])) as [Hin | _]; [inversion Hin | reflexivity].
  - apply (forEach_lookup _ _ (restRelative_posed_idem _ _)
             (restRelative_writeBone_lookup _ _) (id :: bs)).
Qed.

(** ** What an applier call leaves alone *)

Lemma applyArmRotation_refs (SMOOTH : R) (bs : list BoneId) (key : string)
    (x y z : R) (r : Refs) (w : World) :
  let r' := (Calibrated.applyArmRotation SMOOTH bs key x y z r w).1 in
  armBonesRef r' = armBonesRef r /\
  restRotationsRef r' = restRotationsRef r /\
  initializedRef r' = initializedRef r /\
  frameRef r' = frameRef r.
Proof. destruct bs; simpl; auto. Qed.

Lemma applyArmRotation_transform (SMOOTH : R) (bs : list BoneId) (key : string)
    (x y z : R) (r : Refs) (w : World) :
  let w' := (Calibrated.applyArmRotation SMOOTH bs key x y z r w).2 in
  position w' = position w /\ scale w' = scale w /\ rotation w' = rotation w.
Proof. destruct bs; simpl; auto. Qed.

(** The smoothing state after a call: the entry of [key] is refreshed when
    the binding is not empty; no other entry moves. *)
Lemma applyArmRotation_smooth (SMOOTH : R) (bs : list BoneId) (key : string)
    (x y z : R) (r : Refs) (w : World) :
  smoothRotations (Calibrated.applyArmRotation SMOOTH bs key x y z r w).1 =
    match bs with
    | [] => smoothRotations r
    | _ :: _ => <[key := smoothUpdate SMOOTH (smoothRotations r !! key) x y z]>
                  (smoothRotations r)
    end.
Proof. destruct bs; reflexivity. Qed.

Lemma applyRotationToAll_refs (bs : list BoneId) (key : string)
    (x y z : R) (r : Refs) (w : World) :
  let r' := (RestRelative.applyRotationToAll bs key x y z r w).1 in
  armBonesRef r' = armBonesRef r /\
  restRotationsRef r' = restRotationsRef r /\
  initializedRef r' = initializedRef r /\
  frameRef r' = frameRef r.
Proof. destruct bs; simpl; auto. Qed.

Lemma applyRotationToAll_transform (bs : list BoneId) (key : string)
    (x y z : R) (r : Refs) (w : World) :
  let w' := (RestRelative.applyRotationToAll bs key x y z r w).2 in
  position w' = position w /\ scale w' = scale w /\ rotation w' = rotation w.
Proof. destruct bs; simpl; auto. Qed.

Lemma applyRotationToAll_smooth (bs : list BoneId) (key : string)
    (x y z : R) (r : Refs) (w : World) :
  smoothRotations (RestRelative.applyRotationToAll bs key x y z r w).1 =
    match bs with
    | [] => smoothRotations r
    | _ :: _ => <[key := smoothUpdate RestRelative.SMOOTH (smoothRotations r !! key) x y z]>
                  (smoothRotations r)
    end.
Proof. destruct bs; reflexivity. Qed.

(** ** First update of a joint key *)

(** C6: when the smoothing state has no entry for a joint key, the first
    update of that key (its binding is not empty, so the update runs) stores
    the raw target itself on every axis, in both appliers; nothing is
    interpolated from zero or from a default. *)
Theorem first_update_equals_target (SMOOTH : R) (bs : list BoneId) (key : string)
    (x y z : R) (r : Refs) (w : World) :
  bs <> [] ->
  smoothRotations r !! key = None ->
  smoothRotations (Calibrated.applyArmRotation SMOOTH bs key x y z r w).1 !! key
    = Some (Euler.mk x y z) /\
  smoothRotations (RestRelative.applyRotationToAll bs key x y z r w).1 !! key
    = Some (Euler.mk x y z).
Proof.
  intros Hbs Hnone.
  rewrite applyArmRotation_smooth, applyRotationToAll_smooth.
  destruct bs as [| id bs]; [congruence |].
  rewrite !lookup_insert_eq, Hnone. split; reflexivity.
Qed.

Lemma first_update_equals_target_witness :
  smoothRotations
    (Calibrated.applyArmRotation 0.35 [0%nat] "upperarm_l" 0.1 0.2 0.3
       mountRefs (mkWorld ∅ (Vector3.mk 0 0 0) (Vector3.mk 1 1 1) (Euler.mk 0 0 0))).1
    !! "upperarm_l" = Some (Euler.mk 0.1 0.2 0.3) /\
  smoothRotations
    (RestRelative.applyRotationToAll [0%nat] "upperarm_l" 0.1 0.2 0.3
       mountRefs (mkWorld ∅ (Vector3.mk 0 0 0) (Vector3.mk 1 1 1) (Euler.mk 0 0 0))).1
    !! "upperarm_l" = Some (Euler.mk 0.1 0.2 0.3).
Proof.
  apply first_update_equals_target.
  - discriminate.
  - reflexivity.
Defined.

(** ** Binding construction *)

Section Collect.

Variable store : gmap nat Bone.t.
Variable proj : ArmBones -> list BoneId.
Variable test : string -> bool.

Hypothesis push_spec : forall (acc : ArmBones) (j i : nat),
  i ∈ proj (pushBone store acc j) <-> i ∈ proj acc \/ (i = j /\ boundAs store test j).

Lemma foldl_push_spec (l : list BoneId) (acc : ArmBones) (i : nat) :
  i ∈ proj (foldl (pushBone store) acc l) <->
  i ∈ proj acc \/ (i ∈ l /\ boundAs store test i).
Proof.
  revert acc. induction l as [| j l IH]; intros acc; simpl.
  - split; [auto | intros [H | [H _]]; [exact H | inversion H]].
  - rewrite IH, push_spec, elem_of_cons. split.
    + intros [[H | [-> H]] | [H1 H2]]; auto.
    + intros [H | [[-> | H1] H2]]; auto.
Qed.

End Collect.

Ltac push_cases st :=
  intros acc j i; unfold pushBone, boundAs;
  destruct (st !! j) as [b |] eqn:Hb; simpl;
  [ match goal with
    | |- context [if ?c then _ else _] => destruct c eqn:Hm
    end;
    [ rewrite elem_of_app, list_elem_of_singleton; split;
      [ intros [H | H]; [now left | right; split; [exact H | now exists b]]
      | intros [H | [H _]]; [now left | now right] ]
    | split;
      [ intros H; now left
      | intros [H | [_ [b0 [Hb0 Hm']]]];
        [exact H | injection Hb0 as <-; congruence] ] ]
  | split;
    [ intros H; now left
    | intros [H | [_ [b0 [Hb0 _]]]]; [exact H | discriminate] ] ].

Lemma push_upperarm_l (store : gmap nat Bone.t) : forall (acc : ArmBones) (j i : nat),
  i ∈ upperarm_l (pushBone store acc j) <->
  i ∈ upperarm_l acc \/ (i = j /\ boundAs store (matchUpper "upperarm_l") j).
Proof. push_cases store. Qed.

Lemma push_upperarm_r (store : gmap nat Bone.t) : forall (acc : ArmBones) (j i : nat),
  i ∈ upperarm_r (pushBone store acc j) <->
  i ∈ upperarm_r acc \/ (i = j /\ boundAs store (matchUpper "upperarm_r") j).
Proof. push_cases store. Qed.

Lemma push_lowerarm_l (store : gmap nat Bone.t) : forall (acc : ArmBones) (j i : nat),
  i ∈ lowerarm_l (pushBone store acc j) <->
  i ∈ lowerarm_l acc \/ (i = j /\ boundAs store (matchLower "lowerarm_l") j).
Proof. push_cases store. Qed.

Lemma push_lowerarm_r (store : gmap nat Bone.t) : forall (acc : ArmBones) (j i : nat),
  i ∈ lowerarm_r (pushBone store acc j) <->
  i ∈ lowerarm_r acc \/ (i = j /\ boundAs store (matchLower "lowerarm_r") j).
Proof. push_cases store. Qed.

Lemma collect_upperarm_l (store : gmap nat Bone.t) (g : Group) (i : nat) :
  i ∈ upperarm_l (collectArmBones store g) <->
  i ∈ concat (skinned g) /\ boundAs store (matchUpper "upperarm_l") i.
Proof.
  unfold collectArmBones.
  rewrite (foldl_push_spec store upperarm_l _ (push_upperarm_l store)). simpl.
  split; [intros [H | H]; [inversion H | exact H] | auto].
Qed.

Lemma collect_upperarm_r (store : gmap nat Bone.t) (g : Group) (i : nat) :
  i ∈ upperarm_r (collectArmBones store g) <->
  i ∈ concat (skinned g) /\ boundAs store (matchUpper "upperarm_r") i.
Proof.
  unfold collectArmBones.
  rewrite (foldl_push_spec store upperarm_r _ (push_upperarm_r store)). simpl.
  split; [intros [H | H]; [inversion H | exact H] | auto].
Qed.

Lemma collect_lowerarm_l (store : gmap nat Bone.t) (g : Group) (i : nat) :
  i ∈ lowerarm_l (collectArmBones store g) <->
  i ∈ concat (skinned g) /\ boundAs store (matchLower "lowerarm_l") i.
Proof.
  unfold collectArmBones.
  rewrite (foldl_push_spec store lowerarm_l _ (push_lowerarm_l store)). simpl.
  split; [intros [H | H]; [inversion H | exact H] | auto].
Qed.

Lemma collect_lowerarm_r (store : gmap nat Bone.t) (g : Group) (i : nat) :
  i ∈ lowerarm_r (collectArmBones store g) <->
  i ∈ concat (skinned g) /\ boundAs store (matchLower "lowerarm_r") i.
Proof.
  unfold collectArmBones.
  rewrite (foldl_push_spec store lowerarm_r _ (push_lowerarm_r store)). simpl.
  split; [intros [H | H]; [inversion H | exact H] | auto].
Qed.

(** Every bound identity names a bone object of the store. *)
Lemma allBones_stored (store : gmap nat Bone.t) (g : Group) (i : nat) :
  i ∈ allBones (collectArmBones store g) -> exists b, store !! i = Some b.
Proof.
  unfold allBones. rewrite !elem_of_app.
  rewrite collect_upperarm_l, collect_upperarm_r, collect_lowerarm_l, collect_lowerarm_r.
  unfold boundAs. intros [H | [H | [H | H]]];
    destruct H as [_ [b [Hb _]]]; eauto.
Qed.

(** ** Rest-pose capture *)

Lemma foldl_snoc {A B : Type} (f : A -> B -> A) (a : A) (l : list B) (x : B) :
  foldl f a (l ++ [x]) = f (foldl f a l) x.
Proof. now rewrite foldl_app. Qed.

Section Capture.

Context {X V : Type}.
Variable store : gmap nat X.
Variable key : X -> string.
Variable val : X -> V.

(** Under the name of a captured object the map holds the value of the last
    captured object that has this name. *)
Lemma capture_last_wins (m : gmap string V) (l : list nat) (id : nat) (b : X) :
  id ∈ l -> store !! id = Some b ->
  exists pre id' post b',
    l = pre ++ id' :: post /\
    store !! id' = Some b' /\ key b' = key b /\
    (forall j bj, j ∈ post -> store !! j = Some bj -> key bj <> key b) /\
    foldl (captureStep store key val) m l !! key b = Some (val b').
Proof.
  induction l as [| x l IH] using rev_ind; intros Hin Hb.
  - inversion Hin.
  - rewrite foldl_snoc. unfold captureStep at 1.
    destruct (store !! x) as [bx |] eqn:Hx.
    + destruct (decide (key bx = key b)) as [Heq | Hne].
      * exists l, x, [], bx. repeat split; auto.
        -- intros j bj Hj. inversion Hj.
        -- rewrite Heq. apply lookup_insert_eq.
      * assert (Hl : id ∈ l).
        { apply elem_of_app in Hin as [H | H]; [exact H |].
          apply list_elem_of_singleton in H. subst. congruence. }
        destruct (IH Hl Hb) as (pre & id' & post & b' & -> & Hb' & Hn & Hpost & Hlk).
        exists pre, id', (post ++ [x]), b'. repeat split; auto.
        -- now rewrite <- app_assoc.
        -- intros j bj [Hj | Hj]%elem_of_app Hsj; [eauto |].
           apply list_elem_of_singleton in Hj. subst. congruence.
        -- now rewrite lookup_insert_ne.
    + assert (Hl : id ∈ l).
      { apply elem_of_app in Hin as [H | H]; [exact H |].
        apply list_elem_of_singleton in H. subst. congruence. }
      destruct (IH Hl Hb) as (pre & id' & post & b' & -> & Hb' & Hn & Hpost & Hlk).
      exists pre, id', (post ++ [x]), b'. repeat split; auto.
      * now rewrite <- app_assoc.
      * intros j bj [Hj | Hj]%elem_of_app Hsj; [eauto |].
        apply list_elem_of_singleton in Hj. subst. congruence.
Qed.

End Capture.

Lemma captureRest_step (store : gmap nat Bone.t) :
  captureRest store = captureStep store Bone.name Bone.rotation.
Proof. reflexivity. Qed.

Lemma captureRestPoses_step (store : gmap nat Jacket.JBone) (skeleton : list BoneId) :
  Jacket.captureRestPoses store skeleton =
  foldl (captureStep store Jacket.jname Jacket.quaternion) ∅ skeleton.
Proof. reflexivity. Qed.

(** ** What the frame effects leave alone *)

Ltac open_applier :=
  match goal with
  | |- context [Calibrated.applyArmRotation ?s ?bs ?k ?x ?y ?z ?r ?w] =>
    let Hr := fresh "Hrefs" in
    let Ht := fresh "Htrans" in
    pose proof (applyArmRotation_refs s bs k x y z r w) as Hr;
    pose proof (applyArmRotation_transform s bs k x y z r w) as Ht;
    destruct (Calibrated.applyArmRotation s bs k x y z r w) as [? ?];
    simpl in Hr, Ht
  | |- context [RestRelative.applyRotationToAll ?bs ?k ?x ?y ?z ?r ?w] =>
    let Hr := fresh "Hrefs" in
    let Ht := fresh "Htrans" in
    pose proof (applyRotationToAll_refs bs k x y z r w) as Hr;
    pose proof (applyRotationToAll_transform bs k x y z r w) as Ht;
    destruct (RestRelative.applyRotationToAll bs k x y z r w) as [? ?];
    simpl in Hr, Ht
  end.

Lemma sameBinding_refl (r : Refs) : sameBinding r r.
Proof. unfold sameBinding. auto. Qed.

Lemma manualMode_keeps (dv : DebugValues) (ab : ArmBones) (r : Refs) (w : World) :
  sameBinding r (Calibrated.manualMode dv ab r w).1.
Proof.
  unfold Calibrated.manualMode, sameBinding.
  repeat open_applier. simpl. intuition congruence.
Qed.

Lemma trackingMode_keeps (dv : DebugValues) (mirrored : bool) (ab : ArmBones)
    (pose : list Landmark.t) (r : Refs) (w : World) :
  sameBinding r (outRefs (Calibrated.trackingMode dv mirrored ab pose r w)).
Proof.
  unfold Calibrated.trackingMode, sameBinding.
  destruct (pose !! MP_LANDMARKS.LEFT_SHOULDER) as [ls |]; [| simpl; auto].
  destruct (pose !! MP_LANDMARKS.RIGHT_SHOULDER) as [rs |]; [| simpl; auto].
  destruct (if mirrored then pose !! MP_LANDMARKS.RIGHT_ELBOW
            else pose !! MP_LANDMARKS.LEFT_ELBOW) as [le |]; [| simpl; auto].
  open_applier.
  destruct (if mirrored then pose !! MP_LANDMARKS.LEFT_ELBOW
            else pose !! MP_LANDMARKS.RIGHT_ELBOW) as [re |];
    [| simpl in *; intuition congruence].
  repeat open_applier. simpl in *. intuition congruence.
Qed.

Lemma calibrated_frame_keeps (model : option Group) (landmarks : option Results)
    (mirrored : bool) (dv : DebugValues) (r : Refs) (w : World) :
  sameBinding r (outRefs (Calibrated.frameEffect model landmarks mirrored dv r w)).
Proof.
  unfold Calibrated.frameEffect.
  destruct model as [g |]; [| apply sameBinding_refl].
  destruct (negb (initializedRef r)); [apply sameBinding_refl |].
  destruct (armBonesRef r) as [ab |] eqn:Hab; [| apply sameBinding_refl].
  destruct (negb (enableTracking dv) && negb (useManualRotations dv))%bool;
    [apply sameBinding_refl |].
  destruct (useManualRotations dv).
  - pose proof (manualMode_keeps dv ab r w) as H.
    destruct (Calibrated.manualMode dv ab r w) as [r' w']. exact H.
  - destruct (poseOf landmarks) as [pose |]; [| apply sameBinding_refl].
    apply trackingMode_keeps.
Qed.

Lemma armsStep_keeps (mirrored : bool) (ab : ArmBones) (pose : list Landmark.t)
    (ls rs : Landmark.t) (r : Refs) (w : World) :
  sameBinding r (outRefs (RestRelative.armsStep mirrored ab pose ls rs r w)).
Proof.
  unfold RestRelative.armsStep, sameBinding.
  destruct (if mirrored then pose !! MP_LANDMARKS.RIGHT_ELBOW
            else pose !! MP_LANDMARKS.LEFT_ELBOW) as [le |]; [| simpl; auto].
  open_applier.
  destruct (if mirrored then pose !! MP_LANDMARKS.RIGHT_WRIST
            else pose !! MP_LANDMARKS.LEFT_WRIST) as [lw |];
    [| simpl in *; intuition congruence].
  open_applier.
  destruct (if mirrored then pose !! MP_LANDMARKS.LEFT_ELBOW
            else pose !! MP_LANDMARKS.RIGHT_ELBOW) as [re |];
    [| simpl in *; intuition congruence].
  open_applier.
  destruct (if mirrored then pose !! MP_LANDMARKS.LEFT_WRIST
            else pose !! MP_LANDMARKS.RIGHT_WRIST) as [rw |];
    [| simpl in *; intuition congruence].
  open_applier. simpl in *. intuition congruence.
Qed.

Lemma restRelative_frame_keeps (model : option Group) (landmarks : option Results)
    (mirrored : bool) (r : Refs) (w : World) :
  sameBinding r (outRefs (RestRelative.frameEffect model landmarks mirrored r w)).
Proof.
  unfold RestRelative.frameEffect.
  destruct model as [g |]; [| apply sameBinding_refl].
  destruct (poseOf landmarks) as [pose |]; [| apply sameBinding_refl].
  destruct (negb (initializedRef r)); [apply sameBinding_refl |].
  destruct (armBonesRef r) as [ab |] eqn:Hab; [| apply sameBinding_refl].
  destruct (pose !! MP_LANDMARKS.LEFT_HIP) as [lh |];
    [| unfold sameBinding; simpl; auto].
  destruct (pose !! MP_LANDMARKS.RIGHT_HIP) as [rh |];
    [| unfold sameBinding; simpl; auto].
  destruct (pose !! MP_LANDMARKS.LEFT_SHOULDER) as [ls |];
    [| unfold sameBinding; simpl; auto].
  destruct (pose !! MP_LANDMARKS.RIGHT_SHOULDER) as [rs |];
    [| unfold sameBinding; simpl; auto].
  pose proof (armsStep_keeps mirrored ab pose ls rs (bumpFrame r)
                (RestRelative.placeModel mirrored ls rs lh rh w)) as H.
  unfold sameBinding in *. simpl in H. exact H.
Qed.

(** ** Rest poses are keyed by bone name *)

Lemma dupRig_binding :
  collectArmBones dupStore dupRig = mkArmBones [0%nat; 1%nat] [] [] [].
Proof. vm_compute. reflexivity. Qed.

Lemma dupRig_rest :
  restRotationsRef (initEffect (Some dupRig) mountRefs dupWorld) =
  <["upperarm_l" := Euler.mk 0 0 0.2]> (<["upperarm_l" := Euler.mk 0 0 0.1]> ∅).
Proof.
  unfold initEffect. simpl bones. rewrite dupRig_binding. reflexivity.
Qed.

(** C4, as stated, fails on the rig with two armatures whose bones share the
    name [upperarm_l]: bone 0 is bound, and after the capture no key of the
    rest map gives back the rotation bone 0 had at binding time. *)
Lemma rest_pose_lost_on_name_collision :
  ~ (forall (id : nat) (b : Bone.t),
       id ∈ allBones (collectArmBones (bones dupWorld) dupRig) ->
       bones dupWorld !! id = Some b ->
       exists k, restRotationsRef (initEffect (Some dupRig) mountRefs dupWorld) !! k
                 = Some (Bone.rotation b)).
Proof.
  intros H.
  destruct (H 0%nat dupBone0) as [k Hk].
  - simpl bones. rewrite dupRig_binding. unfold allBones. simpl. now left.
  - reflexivity.
  - rewrite dupRig_rest in Hk.
    destruct (decide (k = "upperarm_l")) as [-> | Hne].
    + rewrite lookup_insert_eq in Hk. injection Hk as Hz.
      lra.
    + rewrite !lookup_insert_ne in Hk by congruence.
      rewrite lookup_empty in Hk. discriminate.
Qed.

(** C4, amended: the rest map is keyed by bone name.  After binding, every
    bound bone finds under its name the rotation that the last bound bone of
    that name had at binding time: its own when the bound bones of that name
    agree (in particular when the name is unique).  The frame effects never
    write the rest map, and until the binding is built they write nothing at
    all.  The jacket hook captures by name in the same way. *)
Theorem rest_pose_keyed_by_name (g : Group) (r0 : Refs) (w : World) :
  let r := initEffect (Some g) r0 w in
  let ab := collectArmBones (bones w) g in
  (armBonesRef r = Some ab /\ initializedRef r = true) /\
  (forall id, id ∈ allBones ab ->
     exists b pre id' post b',
       bones w !! id = Some b /\
       allBones ab = pre ++ id' :: post /\
       bones w !! id' = Some b' /\ Bone.name b' = Bone.name b /\
       (forall j bj, j ∈ post -> bones w !! j = Some bj -> Bone.name bj <> Bone.name b) /\
       restRotationsRef r !! Bone.name b = Some (Bone.rotation b')) /\
  (forall id b, id ∈ allBones ab -> bones w !! id = Some b ->
     (forall j bj, j ∈ allBones ab -> bones w !! j = Some bj ->
                   Bone.name bj = Bone.name b -> Bone.rotation bj = Bone.rotation b) ->
     restRotationsRef r !! Bone.name b = Some (Bone.rotation b)) /\
  (forall model landmarks mirrored dv r1 w1,
     restRotationsRef (outRefs (Calibrated.frameEffect model landmarks mirrored dv r1 w1))
       = restRotationsRef r1 /\
     restRotationsRef (outRefs (RestRelative.frameEffect model landmarks mirrored r1 w1))
       = restRotationsRef r1) /\
  (forall model landmarks mirrored dv r1 w1,
     initializedRef r1 = false ->
     Calibrated.frameEffect model landmarks mirrored dv r1 w1 = Done r1 w1 /\
     RestRelative.frameEffect model landmarks mirrored r1 w1 = Done r1 w1) /\
  (forall (store : gmap nat Jacket.JBone) (skeleton : list BoneId) id b,
     id ∈ skeleton -> store !! id = Some b ->
     exists pre id' post b',
       skeleton = pre ++ id' :: post /\
       store !! id' = Some b' /\ Jacket.jname b' = Jacket.jname b /\
       (forall j bj, j ∈ post -> store !! j = Some bj -> Jacket.jname bj <> Jacket.jname b) /\
       Jacket.captureRestPoses store skeleton !! Jacket.jname b
         = Some (Jacket.quaternion b')).
Proof.
  intros r ab.
  assert (Hlast : forall id, id ∈ allBones ab ->
     exists b pre id' post b',
       bones w !! id = Some b /\
       allBones ab = pre ++ id' :: post /\
       bones w !! id' = Some b' /\ Bone.name b' = Bone.name b /\
       (forall j bj, j ∈ post -> bones w !! j = Some bj -> Bone.name bj <> Bone.name b) /\
       restRotationsRef r !! Bone.name b = Some (Bone.rotation b')).
  { intros id Hin.
    destruct (allBones_stored _ _ _ Hin) as [b Hb].
    destruct (capture_last_wins (bones w) Bone.name Bone.rotation
                (restRotationsRef r0) _ _ _ Hin Hb)
      as (pre & id' & post & b' & Hsplit & Hb' & Hn & Hpost & Hlk).
    exists b, pre, id', post, b'. repeat split; auto. }
  repeat split.
  - exact Hlast.
  - intros id b Hin Hb Hagree.
    destruct (Hlast id Hin) as (b0 & pre & id' & post & b' & Hb0 & Hsplit & Hb' & Hn & _ & Hlk).
    rewrite Hb in Hb0. injection Hb0 as <-.
    rewrite Hlk. f_equal. apply (Hagree id' b'); auto.
    fold ab. rewrite Hsplit. apply elem_of_app. right. now left.
  - apply calibrated_frame_keeps.
  - apply restRelative_frame_keeps.
  - unfold Calibrated.frameEffect. destruct model; [| reflexivity]. now rewrite H.
  - unfold RestRelative.frameEffect. destruct model; [| reflexivity].
    destruct (poseOf landmarks); [| reflexivity]. now rewrite H.
  - intros store skeleton id b Hin Hb. rewrite captureRestPoses_step.
    apply (capture_last_wins store Jacket.jname Jacket.quaternion ∅ skeleton id b Hin Hb).
Qed.

(** ** Fan-out to every bound bone *)

(** Binding leaves a rest entry under the name of every bound bone. *)
Lemma init_rest_covers (g : Group) (r0 : Refs) (w : World) (id : nat) :
  id ∈ allBones (collectArmBones (bones w) g) ->
  exists b, bones w !! id = Some b /\
            is_Some (restRotationsRef (initEffect (Some g) r0 w) !! Bone.name b).
Proof.
  intros Hin. destruct (allBones_stored _ _ _ Hin) as [b Hb].
  destruct (capture_last_wins (bones w) Bone.name Bone.rotation
              (restRotationsRef r0) _ _ _ Hin Hb)
    as (pre & id' & post & b' & _ & _ & _ & _ & Hlk).
  exists b. split; [exact Hb |]. simpl. rewrite captureRest_step, Hlk. eauto.
Qed.

(** C3: one update of a joint key with a non-empty binding writes to every
    bone of the binding, in both appliers: each bone receives the smoothed
    value of the key composed with the rest entry of its name (all three
    axes in the calibrated hook; rest X and Y plus absolute Z in the
    rest-relative hook).  Two bound bones of the same name, as in duplicate
    armatures, end with identical rotations. *)
Theorem every_bound_bone_written (SMOOTH : R) (bs : list BoneId) (key : string)
    (x y z : R) (r : Refs) (w : World) :
  bs <> [] ->
  (forall id, id ∈ bs ->
     exists b, bones w !! id = Some b /\ is_Some (restRotationsRef r !! Bone.name b)) ->
  let c := Calibrated.applyArmRotation SMOOTH bs key x y z r w in
  let a := RestRelative.applyRotationToAll bs key x y z r w in
  (exists s, smoothRotations c.1 !! key = Some s /\
     (forall id, id ∈ bs ->
        exists b e, bones w !! id = Some b /\
                    restRotationsRef r !! Bone.name b = Some e /\
                    bones c.2 !! id =
                      Some (Bone.mk (Bone.name b)
                              (Euler.mk (Euler.x e + Euler.x s)
                                        (Euler.y e + Euler.y s)
                                        (Euler.z e + Euler.z s))))) /\
  (exists s, smoothRotations a.1 !! key = Some s /\
     (forall id, id ∈ bs ->
        exists b e, bones w !! id = Some b /\
                    restRotationsRef r !! Bone.name b = Some e /\
                    bones a.2 !! id =
                      Some (Bone.mk (Bone.name b)
                              (Euler.mk (Euler.x e + Euler.x s)
                                        (Euler.y e + Euler.y s)
                                        (Euler.z s))))) /\
  (forall id1 id2 b1 b2,
     id1 ∈ bs -> id2 ∈ bs ->
     bones w !! id1 = Some b1 -> bones w !! id2 = Some b2 ->
     Bone.name b1 = Bone.name b2 ->
     Bone.rotation <$> bones c.2 !! id1 = Bone.rotation <$> bones c.2 !! id2 /\
     Bone.rotation <$> bones a.2 !! id1 = Bone.rotation <$> bones a.2 !! id2).
Proof.
  intros Hne Hcov c a.
  assert (Hc : forall id, id ∈ bs ->
            bones c.2 !! id =
              Calibrated.posed (restRotationsRef r)
                (smoothUpdate SMOOTH (smoothRotations r !! key) x y z) <$> bones w !! id).
  { intros id Hin. unfold c. rewrite applyArmRotation_bones. now rewrite decide_True. }
  assert (Ha : forall id, id ∈ bs ->
            bones a.2 !! id =
              RestRelative.posed (restRotationsRef r)
                (smoothUpdate RestRelative.SMOOTH (smoothRotations r !! key) x y z)
                <$> bones w !! id).
  { intros id Hin. unfold a. rewrite applyRotationToAll_bones. now rewrite decide_True. }
  split; [| split].
  - exists (smoothUpdate SMOOTH (smoothRotations r !! key) x y z). split.
    + unfold c. rewrite applyArmRotation_smooth.
      destruct bs; [congruence | apply lookup_insert_eq].
    + intros id Hin. destruct (Hcov id Hin) as (b & Hb & [e He]).
      exists b, e. repeat split; auto.
      rewrite (Hc id Hin), Hb. simpl. unfold Calibrated.posed. now rewrite He.
  - exists (smoothUpdate RestRelative.SMOOTH (smoothRotations r !! key) x y z). split.
    + unfold a. rewrite applyRotationToAll_smooth.
      destruct bs; [congruence | apply lookup_insert_eq].
    + intros id Hin. destruct (Hcov id Hin) as (b & Hb & [e He]).
      exists b, e. repeat split; auto.
      rewrite (Ha id Hin), Hb. simpl. unfold RestRelative.posed. now rewrite He.
  - intros id1 id2 b1 b2 Hin1 Hin2 Hb1 Hb2 Hname.
    rewrite (Hc id1 Hin1), (Hc id2 Hin2), (Ha id1 Hin1), (Ha id2 Hin2), Hb1, Hb2.
    simpl. unfold Calibrated.posed, RestRelative.posed. rewrite Hname.
    destruct (Hcov id2 Hin2) as (b & Hb & [e He]).
    rewrite Hb2 in Hb. injection Hb as <-. rewrite He. split; reflexivity.
Qed.

Lemma every_bound_bone_written_witness :
  let r := initEffect (Some dupRig) mountRefs dupWorld in
  let c := Calibrated.applyArmRotation 0.35 [0%nat; 1%nat] "upperarm_l" 0 0.2 0 r dupWorld in
  let a := RestRelative.applyRotationToAll [0%nat; 1%nat] "upperarm_l" 0 0.2 0 r dupWorld in
  (Bone.rotation <$> bones c.2 !! 0%nat = Bone.rotation <$> bones c.2 !! 1%nat) /\
  (Bone.rotation <$> bones a.2 !! 0%nat = Bone.rotation <$> bones a.2 !! 1%nat).
Proof.
  intros r c a.
  assert (Hcov : forall id, id ∈ [0%nat; 1%nat] ->
            exists b, bones dupWorld !! id = Some b /\
                      is_Some (restRotationsRef r !! Bone.name b)).
  { intros id Hin. apply init_rest_covers. simpl bones.
    rewrite dupRig_binding. exact Hin. }
  assert (Hne : [0%nat; 1%nat] <> []) by discriminate.
  destruct (every_bound_bone_written 0.35 _ "upperarm_l" 0 0.2 0 r dupWorld Hne Hcov)
    as (_ & _ & Hsame).
  apply (Hsame 0%nat 1%nat dupBone0 dupBone1);
    first [reflexivity | now left | (right; now left)].
Defined.

(** ** One applier call, in full *)

Lemma smoothed_lookup_ne (SMOOTH : R) (bs : list BoneId) (key key' : string)
    (x y z : R) (m : gmap string Euler.t) :
  key <> key' -> smoothed SMOOTH bs key x y z m !! key' = m !! key'.
Proof.
  intros Hne. destruct bs; simpl; [reflexivity | now rewrite lookup_insert_ne].
Qed.

Lemma smoothed_lookup_eq (SMOOTH : R) (bs : list BoneId) (key : string)
    (x y z : R) (m : gmap string Euler.t) :
  bs <> [] ->
  smoothed SMOOTH bs key x y z m !! key = Some (smoothUpdate SMOOTH (m !! key) x y z).
Proof.
  intros Hne. destruct bs; simpl; [congruence | apply lookup_insert_eq].
Qed.


Lemma applyArmRotation_spec (SMOOTH : R) (bs : list BoneId) (key : string)
    (x y z : R) (r : Refs) (w : World) :
  let c := Calibrated.applyArmRotation SMOOTH bs key x y z r w in
  smoothRotations c.1 = smoothed SMOOTH bs key x y z (smoothRotations r) /\
  restRotationsRef c.1 = restRotationsRef r /\
  (forall i, bones c.2 !! i =
     if decide (i ∈ bs)
     then Calibrated.posed (restRotationsRef r)
            (smoothUpdate SMOOTH (smoothRotations r !! key) x y z) <$> bones w !! i
     else bones w !! i).
Proof.
  intros c. split; [| split].
  - unfold c. rewrite applyArmRotation_smooth. destruct bs; reflexivity.
  - apply applyArmRotation_refs.
  - intros i. apply applyArmRotation_bones.
Qed.

Ltac open_call :=
  match goal with
  | |- context [Calibrated.applyArmRotation ?s ?bs ?k ?x ?y ?z ?r ?w] =>
    let Hs := fresh "Hsm" in
    let Hr := fresh "Hrest" in
    let Hb := fresh "Hbones" in
    let Ht := fresh "Htrans" in
    pose proof (applyArmRotation_transform s bs k x y z r w) as Ht;
    pose proof (applyArmRotation_spec s bs k x y z r w) as (Hs & Hr & Hb);
    destruct (Calibrated.applyArmRotation s bs k x y z r w) as [? ?];
    simpl in Hs, Hr, Hb, Ht
  end.

(** ** The clamped model transform *)

Lemma placeModel_clamped (mirrored : bool) (ls rs : Landmark.t) (w : World) :
  clampInvariant (Calibrated.placeModel mirrored ls rs w).
Proof.
  unfold clampInvariant, Calibrated.placeModel. simpl.
  split; [| split; [| split; [| split]]].
  - apply clamp_bounds. unfold Calibrated.MIN_X, Calibrated.MAX_X. lra.
  - apply clamp_bounds. unfold Calibrated.MIN_Y, Calibrated.MAX_Y. lra.
  - reflexivity.
  - eexists. split; [reflexivity |].
    apply clamp_bounds. unfold Calibrated.MIN_SCALE, Calibrated.MAX_SCALE. lra.
  - reflexivity.
Qed.

Lemma clampInvariant_transform (w w' : World) :
  position w' = position w -> scale w' = scale w -> rotation w' = rotation w ->
  clampInvariant w -> clampInvariant w'.
Proof.
  unfold clampInvariant. intros -> -> ->. auto.
Qed.

Lemma trackingMode_transform (dv : DebugValues) (mirrored : bool) (ab : ArmBones)
    (pose : list Landmark.t) (r : Refs) (w : World) (ls rs : Landmark.t) :
  pose !! MP_LANDMARKS.LEFT_SHOULDER = Some ls ->
  pose !! MP_LANDMARKS.RIGHT_SHOULDER = Some rs ->
  let w' := outWorld (Calibrated.trackingMode dv mirrored ab pose r w) in
  let p := Calibrated.placeModel mirrored ls rs w in
  position w' = position p /\ scale w' = scale p /\ rotation w' = rotation p.
Proof.
  intros Hls Hrs. unfold Calibrated.trackingMode. rewrite Hls, Hrs.
  destruct (if mirrored then pose !! MP_LANDMARKS.RIGHT_ELBOW
            else pose !! MP_LANDMARKS.LEFT_ELBOW) as [le |]; [| simpl; auto].
  open_applier.
  destruct (if mirrored then pose !! MP_LANDMARKS.LEFT_ELBOW
            else pose !! MP_LANDMARKS.RIGHT_ELBOW) as [re |];
    [| simpl in *; intuition congruence].
  repeat open_applier. simpl in *. intuition congruence.
Qed.

(** C10: in tracking mode of the calibrated hook (bound rig, manual mode off,
    tracking on), after an update with a landmark frame that reaches both
    shoulder landmarks the model transform satisfies the clamp invariant
    whatever the landmark values: position.x in [-0.6, 0.6], position.y in
    [-7.0, 0.9], position.z = 0, uniform scale in [0.6, 1.8], and
    rotation.y = 0. *)
Theorem tracking_clamps_transform (g : Group) (landmarks : option Results)
    (mirrored : bool) (dv : DebugValues) (r : Refs) (w : World)
    (ab : ArmBones) (pose : list Landmark.t) :
  initializedRef r = true ->
  armBonesRef r = Some ab ->
  enableTracking dv = true ->
  useManualRotations dv = false ->
  poseOf landmarks = Some pose ->
  (MP_LANDMARKS.RIGHT_SHOULDER < length pose)%nat ->
  let w' := outWorld (Calibrated.frameEffect (Some g) landmarks mirrored dv r w) in
  -0.6 <= Vector3.x (position w') <= 0.6 /\
  -7.0 <= Vector3.y (position w') <= 0.9 /\
  Vector3.z (position w') = 0 /\
  (exists s, scale w' = Vector3.mk s s s /\ 0.6 <= s <= 1.8) /\
  Euler.y (rotation w') = 0.
Proof.
  intros Hinit Hab Htrack Hman Hpose Hlen w'.
  assert (Hrs : is_Some (pose !! MP_LANDMARKS.RIGHT_SHOULDER))
    by (apply lookup_lt_is_Some; exact Hlen).
  assert (Hls : is_Some (pose !! MP_LANDMARKS.LEFT_SHOULDER)).
  { apply lookup_lt_is_Some. unfold MP_LANDMARKS.RIGHT_SHOULDER in Hlen.
    unfold MP_LANDMARKS.LEFT_SHOULDER. lia. }
  destruct Hrs as [rs Hrs], Hls as [ls Hls].
  assert (Hinv : clampInvariant w').
  { unfold w', Calibrated.frameEffect.
    rewrite Hinit, Hab, Htrack, Hman, Hpose. simpl.
    destruct (trackingMode_transform dv mirrored ab pose r w ls rs Hls Hrs)
      as (Hp & Hs & Hr).
    eapply clampInvariant_transform; eauto using placeModel_clamped. }
  exact Hinv.
Qed.

Lemma tracking_clamps_transform_witness :
  let r := initEffect (Some dupRig) mountRefs dupWorld in
  let w' := outWorld (Calibrated.frameEffect (Some dupRig) scenarioFrame true
                        defaultValues r dupWorld) in
  -0.6 <= Vector3.x (position w') <= 0.6 /\
  -7.0 <= Vector3.y (position w') <= 0.9 /\
  Vector3.z (position w') = 0 /\
  (exists s, scale w' = Vector3.mk s s s /\ 0.6 <= s <= 1.8) /\
  Euler.y (rotation w') = 0.
Proof.
  apply (tracking_clamps_transform dupRig scenarioFrame true defaultValues
           (initEffect (Some dupRig) mountRefs dupWorld) dupWorld
           (collectArmBones (bones dupWorld) dupRig) scenarioPose);
    try reflexivity.
  unfold scenarioPose, MP_LANDMARKS.RIGHT_SHOULDER.
  rewrite List.length_map, List.length_seq. lia.
Defined.

(** ** Absent landmark frames *)

Lemma dupRig_refs :
  initEffect (Some dupRig) mountRefs dupWorld =
  mkRefs (Some (mkArmBones [0%nat; 1%nat] [] [] []))
         (<["upperarm_l" := Euler.mk 0 0 0.2]> (<["upperarm_l" := Euler.mk 0 0 0.1]> ∅))
         ∅ true 0.
Proof.
  unfold initEffect. simpl bones. rewrite dupRig_binding. reflexivity.
Qed.

(** C9, as stated, fails in the calibrated hook when manual rotations are
    on: with a null landmark frame the update still runs the manual path; a
    smoothing entry appears and bone 0 is rotated. *)
Lemma null_frame_writes_in_manual_mode :
  let r := initEffect (Some dupRig) mountRefs dupWorld in
  let o := Calibrated.frameEffect (Some dupRig) None true manualValues r dupWorld in
  smoothRotations (outRefs o) <> smoothRotations r /\
  bones (outWorld o) !! 0%nat <> bones dupWorld !! 0%nat.
Proof.
  intros r o. unfold o, r. rewrite dupRig_refs.
  unfold Calibrated.frameEffect. simpl initializedRef. simpl armBonesRef.
  cbn [negb manualValues enableTracking useManualRotations andb].
  unfold Calibrated.manualMode.
  repeat open_call. simpl. split.
  - rewrite Hsm2, Hsm1, Hsm0, Hsm. apply insert_non_empty.
  - rewrite Hbones2, Hbones1, Hbones0, Hbones.
    rewrite decide_True by (now left).
    unfold dupStore. rewrite lookup_insert_eq. simpl.
    unfold Calibrated.posed. simpl Bone.name. rewrite lookup_insert_eq.
    unfold dupBone0. intros Heq. injection Heq as _ _ Hz.
    rewrite lookup_empty in Hz. simpl in Hz. lra.
Qed.

(** C9, amended: with a null or absent landmark frame, or one without pose
    landmarks, the update of the rest-relative hook changes nothing, and the
    update of the calibrated hook changes nothing unless manual rotations are
    on: refs (smoothing state included), every bone and the model transform
    are as before. *)
Theorem absent_frame_holds_state (model : option Group) (landmarks : option Results)
    (mirrored : bool) (dv : DebugValues) (r : Refs) (w : World) :
  poseOf landmarks = None ->
  RestRelative.frameEffect model landmarks mirrored r w = Done r w /\
  (useManualRotations dv = false ->
   Calibrated.frameEffect model landmarks mirrored dv r w = Done r w).
Proof.
  intros Hpose. split.
  - unfold RestRelative.frameEffect. rewrite Hpose. now destruct model.
  - intros Hman. unfold Calibrated.frameEffect. rewrite Hpose, Hman.
    destruct model; [| reflexivity].
    destruct (negb (initializedRef r)); [reflexivity |].
    destruct (armBonesRef r); [| reflexivity].
    now destruct (negb (enableTracking dv) && negb false)%bool.
Qed.

Lemma absent_frame_holds_state_witness :
  let r := initEffect (Some dupRig) mountRefs dupWorld in
  RestRelative.frameEffect (Some dupRig) None true r dupWorld = Done r dupWorld /\
  Calibrated.frameEffect (Some dupRig) None true defaultValues r dupWorld = Done r dupWorld.
Proof.
  destruct (absent_frame_holds_state (Some dupRig) None true defaultValues
              (initEffect (Some dupRig) mountRefs dupWorld) dupWorld) as [Hrr Hcal].
  - reflexivity.
  - split; [exact Hrr | apply Hcal; reflexivity].
Defined.

(** ** The arm ratio and its rotation *)





(** ** Manual mode against tracking mode *)


Lemma scenarioPose_lookups :
  scenarioPose !! MP_LANDMARKS.LEFT_SHOULDER = Some (Landmark.mk 0.3 0.4 None) /\
  scenarioPose !! MP_LANDMARKS.RIGHT_SHOULDER = Some (Landmark.mk 0.7 0.4 None) /\
  scenarioPose !! MP_LANDMARKS.LEFT_ELBOW = Some (Landmark.mk 0.3 0.6 None) /\
  scenarioPose !! MP_LANDMARKS.RIGHT_ELBOW = Some (Landmark.mk 0.7 0.6 None).
Proof. repeat split; reflexivity. Qed.





(** ** Bone resolution for the upper arms *)


Lemma firstFound_some (test : string -> nat -> bool) (skeleton : list nat)
    (patterns : list string) (id : nat) :
  PoseRetargeting.firstFound test skeleton patterns = Some id ->
  exists p, In p patterns /\ In id skeleton /\ test p id = true.
Proof.
  induction patterns as [| p ps IH]; simpl; [discriminate |].
  destruct (find (test p) skeleton) as [x |] eqn:Hf.
  - intros [= ->]. apply find_some in Hf as [Hin Ht]. exists p. auto.
  - intros H. destruct (IH H) as (q & Hq & Hin & Ht). exists q. auto.
Qed.

Lemma exactMatch_name (store : gmap nat Bone.t) (pattern : string) (id : nat) :
  PoseRetargeting.exactMatch store pattern id = true ->
  PoseRetargeting.lowerName store id = Some (Str.toLowerCase pattern).
Proof.
  unfold PoseRetargeting.exactMatch.
  destruct (PoseRetargeting.lowerName store id) as [n |]; [| discriminate].
  unfold Str.eqb. intros H. apply String.eqb_eq in H. now subst.
Qed.

Lemma includesMatch_markers (store : gmap nat Bone.t) (pattern : string) (id : nat) :
  PoseRetargeting.includesMatch store pattern id = true ->
  exists n, PoseRetargeting.lowerName store id = Some n /\
            Str.includes n (Str.toLowerCase pattern) = true /\
            Forall (fun m => Str.includes n m = false) patternPassMarkers.
Proof.
  unfold PoseRetargeting.includesMatch, patternPassMarkers.
  destruct (PoseRetargeting.lowerName store id) as [n |]; [| discriminate].
  intros H. repeat (apply andb_prop in H as [H ?]).
  repeat match goal with
         | Hn : negb _ = true |- _ => apply negb_true_iff in Hn
         end.
  exists n. split; [reflexivity |]. split; [exact H |].
  repeat constructor; assumption.
Qed.




(** ** Tracking the same frame again and again *)





(** ** Direction to rotation *)

Lemma normalize_zero : Vector3.normalize (Vector3.mk 0 0 0) = Vector3.mk 0 0 0.
Proof.
  unfold Vector3.normalize, Vector3.divideScalar, Vector3.multiplyScalar. simpl.
  now rewrite !Rmult_0_l.
Qed.

Lemma dot_zero_r (a : Vector3.t) : Vector3.dot a (Vector3.mk 0 0 0) = 0.
Proof. unfold Vector3.dot. simpl. ring. Qed.

Lemma cross_zero_r (a : Vector3.t) :
  Vector3.crossVectors a (Vector3.mk 0 0 0) = Vector3.mk 0 0 0.
Proof. unfold Vector3.crossVectors. simpl. f_equal; ring. Qed.

Lemma quarter_turn_about_nothing :
  Quaternion.setFromAxisAngle (Vector3.mk 0 0 0)
    (acos (JsMath.max (-1) (JsMath.min 1 0)))
  = Quaternion.mk 0 0 0 (cos (PI / 4)).
Proof.
  rewrite clamp_inside by lra. rewrite acos_0.
  unfold Quaternion.setFromAxisAngle. simpl.
  replace (PI / 2 / 2) with (PI / 4) by field.
  now rewrite !Rmult_0_l.
Qed.

Lemma cos_PI4_sqr : cos (PI / 4) * cos (PI / 4) = 1 / 2.
Proof.
  pose proof (sin2_cos2 (PI / 4)) as H. unfold Rsqr in H.
  rewrite sin_PI4, <- cos_PI4 in H. lra.
Qed.

Lemma dot_zero_l (a : Vector3.t) : Vector3.dot (Vector3.mk 0 0 0) a = 0.
Proof. unfold Vector3.dot. simpl. ring. Qed.

Lemma cross_zero_l (a : Vector3.t) :
  Vector3.crossVectors (Vector3.mk 0 0 0) a = Vector3.mk 0 0 0.
Proof. unfold Vector3.crossVectors. simpl. f_equal; ring. Qed.

(** C2 at a zero-length direction: when the observed direction or the rest
    direction has length zero, both helpers leave the parallel and
    anti-parallel branches aside, normalise the zero cross product to the
    zero axis and return a quarter turn about it,
    [(0, 0, 0, cos (PI / 4))]: not the identity, and not a rotation at all,
    since its norm is not 1. *)
Theorem zero_length_direction_not_identity (v : Vector3.t) :
  let zero := Vector3.mk 0 0 0 in
  let q := Quaternion.mk 0 0 0 (cos (PI / 4)) in
  (BoneMapping.quaternionFromDirections v zero = q /\
   BoneMapping.quaternionFromDirections zero v = q /\
   PoseRetargeting.getRotationBetweenVectors v zero = q /\
   PoseRetargeting.getRotationBetweenVectors zero v = q) /\
  q <> Quaternion.identity /\
  ~ Quaternion.isRotation q.
Proof.
  intros zero q. pose proof cos_PI4_sqr as Hc.
  split; [| split].
  - unfold BoneMapping.quaternionFromDirections,
      PoseRetargeting.getRotationBetweenVectors, zero, Vector3.cross.
    rewrite normalize_zero, dot_zero_r, dot_zero_l.
    destruct (Rlt_dec 0.9999 0) as [H | _]; [lra |].
    destruct (Rlt_dec 0 (-0.9999)) as [H | _]; [lra |].
    rewrite cross_zero_r, cross_zero_l, normalize_zero.
    repeat split; apply quarter_turn_about_nothing.
  - unfold q, Quaternion.identity. intros Heq. injection Heq as Hw.
    rewrite Hw in Hc. lra.
  - unfold Quaternion.isRotation, Quaternion.normSq, q. simpl. lra.
Qed.

(** On directions of positive length both helpers do return rotations. *)

Lemma lengthSq_nonneg (a : Vector3.t) : 0 <= Vector3.lengthSq a.
Proof. unfold Vector3.lengthSq. nra. Qed.

Lemma normalize_unit (a : Vector3.t) :
  0 < Vector3.lengthSq a -> Vector3.lengthSq (Vector3.normalize a) = 1.
Proof.
  intros Hpos.
  assert (HL : 0 < Vector3.length a) by (apply sqrt_lt_R0; exact Hpos).
  assert (HLL : Vector3.length a * Vector3.length a = Vector3.lengthSq a)
    by (apply sqrt_sqrt; lra).
  unfold Vector3.normalize, JsMath.orElse.
  destruct (Req_dec_T (Vector3.length a) 0) as [H0 | _]; [lra |].
  unfold Vector3.divideScalar, Vector3.multiplyScalar, Vector3.lengthSq at 1. simpl.
  unfold Vector3.lengthSq in HLL.
  set (L := Vector3.length a) in *.
  replace (Vector3.x a * (1 / L) * (Vector3.x a * (1 / L)) +
           Vector3.y a * (1 / L) * (Vector3.y a * (1 / L)) +
           Vector3.z a * (1 / L) * (Vector3.z a * (1 / L)))
    with ((Vector3.x a * Vector3.x a + Vector3.y a * Vector3.y a
           + Vector3.z a * Vector3.z a) / (L * L))
    by (field; lra).
  rewrite <- HLL. field. lra.
Qed.

Lemma setFromAxisAngle_unit (axis : Vector3.t) (angle : R) :
  Vector3.lengthSq axis = 1 ->
  Quaternion.isRotation (Quaternion.setFromAxisAngle axis angle).
Proof.
  intros Hax. unfold Quaternion.isRotation, Quaternion.normSq,
    Quaternion.setFromAxisAngle. simpl.
  pose proof (sin2_cos2 (angle / 2)) as Hsc. unfold Rsqr in Hsc.
  unfold Vector3.lengthSq in Hax.
  set (s := sin (angle / 2)) in *. set (c := cos (angle / 2)) in *.
  replace (Vector3.x axis * s * (Vector3.x axis * s) +
           Vector3.y axis * s * (Vector3.y axis * s) +
           Vector3.z axis * s * (Vector3.z axis * s) + c * c)
    with ((Vector3.x axis * Vector3.x axis + Vector3.y axis * Vector3.y axis
           + Vector3.z axis * Vector3.z axis) * (s * s) + c * c) by ring.
  rewrite Hax. lra.
Qed.

Lemma cross_lengthSq (a b : Vector3.t) :
  Vector3.lengthSq (Vector3.crossVectors a b) =
  Vector3.lengthSq a * Vector3.lengthSq b - Vector3.dot a b * Vector3.dot a b.
Proof. unfold Vector3.lengthSq, Vector3.crossVectors, Vector3.dot. simpl. ring. Qed.

Lemma cross_axis_general (f t : Vector3.t) :
  Vector3.lengthSq f = 1 -> Vector3.lengthSq t = 1 ->
  ~ 0.9999 < Vector3.dot f t -> ~ Vector3.dot f t < -0.9999 ->
  0 < Vector3.lengthSq (Vector3.crossVectors f t).
Proof.
  intros Hf Ht H1 H2. rewrite cross_lengthSq, Hf, Ht. nra.
Qed.

Lemma cross_axis_boneMapping (f : Vector3.t) :
  Vector3.lengthSq f = 1 ->
  0 < Vector3.lengthSq
        (Vector3.crossVectors f
           (if Rlt_dec (Rabs (Vector3.x f)) 0.9
            then Vector3.mk 1 0 0 else Vector3.mk 0 1 0)).
Proof.
  intros Hf. rewrite cross_lengthSq, Hf. unfold Vector3.lengthSq in Hf.
  destruct (Rlt_dec (Rabs (Vector3.x f)) 0.9) as [Hx | Hx].
  - apply Rabs_def2 in Hx.
    assert (Hxx : Vector3.x f * Vector3.x f < 0.81) by nra.
    unfold Vector3.lengthSq, Vector3.dot. simpl. nra.
  - assert (Hxx : 0.81 <= Vector3.x f * Vector3.x f).
    { unfold Rabs in Hx. destruct (Rcase_abs (Vector3.x f)); nra. }
    pose proof (Rle_0_sqr (Vector3.z f)) as Hzz. unfold Rsqr in Hzz.
    unfold Vector3.lengthSq, Vector3.dot. simpl. nra.
Qed.

Lemma cross_axis_poseRetargeting (f : Vector3.t) :
  Vector3.lengthSq f = 1 ->
  0 < Vector3.lengthSq
        (if Rlt_dec (Vector3.lengthSq (Vector3.cross (Vector3.mk 1 0 0) f)) 0.001
         then Vector3.cross (Vector3.mk 0 1 0) f
         else Vector3.cross (Vector3.mk 1 0 0) f).
Proof.
  intros Hf. unfold Vector3.cross.
  destruct (Rlt_dec (Vector3.lengthSq (Vector3.crossVectors (Vector3.mk 1 0 0) f)) 0.001)
    as [Hs | Hs]; [| lra].
  rewrite cross_lengthSq in *. rewrite Hf in *.
  unfold Vector3.lengthSq, Vector3.dot in *. simpl in *. nra.
Qed.

Lemma directions_give_rotations (from to : Vector3.t) :
  0 < Vector3.lengthSq from -> 0 < Vector3.lengthSq to ->
  Quaternion.isRotation (BoneMapping.quaternionFromDirections from to) /\
  Quaternion.isRotation (PoseRetargeting.getRotationBetweenVectors from to).
Proof.
  intros Hf Ht.
  pose proof (normalize_unit from Hf) as Hfu.
  pose proof (normalize_unit to Ht) as Htu.
  assert (Hid : Quaternion.isRotation Quaternion.identity).
  { unfold Quaternion.isRotation, Quaternion.normSq, Quaternion.identity. simpl. ring. }
  split.
  - unfold BoneMapping.quaternionFromDirections.
    destruct (Rlt_dec 0.9999 _) as [_ | H1]; [exact Hid |].
    destruct (Rlt_dec _ (-0.9999)) as [_ | H2].
    + apply setFromAxisAngle_unit, normalize_unit, cross_axis_boneMapping, Hfu.
    + apply setFromAxisAngle_unit, normalize_unit, cross_axis_general; assumption.
  - unfold PoseRetargeting.getRotationBetweenVectors.
    destruct (Rlt_dec 0.9999 _) as [_ | H1]; [exact Hid |].
    destruct (Rlt_dec _ (-0.9999)) as [_ | H2].
    + apply setFromAxisAngle_unit, normalize_unit, cross_axis_poseRetargeting, Hfu.
    + apply setFromAxisAngle_unit, normalize_unit, cross_axis_general; assumption.
Qed.

(** * Part III: further properties of the code *)

(** ** The calibrated hook: range of the tracked rotation *)

(** On or above the horizontal ([0 <= y]) the angle is not negative. *)
Lemma atan2_upper (y x : R) : 0 <= x -> 0 <= y -> 0 <= JsMath.atan2 y x.
Proof.
  intros Hx Hy. pose proof PI_RGT_0 as Hpi. unfold JsMath.atan2.
  destruct (Rlt_dec 0 x) as [Hpos | _].
  - destruct (Req_dec y 0) as [-> | Hne].
    + unfold Rdiv. rewrite Rmult_0_l, atan_0. lra.
    + assert (Hq : 0 < y / x).
      { pose proof (Rinv_0_lt_compat _ Hpos) as Hinv. unfold Rdiv. nra. }
      pose proof (atan_increasing _ _ Hq) as Hinc. rewrite atan_0 in Hinc. lra.
  - destruct (Rlt_dec x 0) as [Hx0 | _]; [lra |].
    destruct (Rlt_dec 0 y) as [_ | _]; [lra |].
    destruct (Rlt_dec y 0) as [Hy0 | _]; lra.
Qed.

Lemma calcArmRatio_range (s e : Landmark.t) : 0 <= Calibrated.calcArmRatio s e <= 1.
Proof. unfold Calibrated.calcArmRatio. apply clamp_bounds. lra. Qed.

(** Whatever the landmarks, the Y rotation that tracking asks for lies
    between the T-pose angle and the arms-down angle; an elbow level with or
    above the shoulder gives the T-pose angle exactly. *)
Theorem tracked_rotation_range (s e : Landmark.t) :
  let yRotation := Calibrated.mapToYRotation (Calibrated.calcArmRatio s e) in
  -48 * Calibrated.DEG2RAD <= yRotation <= 13 * Calibrated.DEG2RAD /\
  (Landmark.y e <= Landmark.y s -> yRotation = -48 * Calibrated.DEG2RAD).
Proof.
  intros yRotation.
  assert (HD : 0 < Calibrated.DEG2RAD)
    by (unfold Calibrated.DEG2RAD; pose proof PI_RGT_0; lra).
  pose proof (calcArmRatio_range s e) as Hr.
  unfold yRotation, Calibrated.mapToYRotation, Calibrated.Y_ROTATION_ARMS_DOWN,
    Calibrated.Y_ROTATION_T_POSE.
  split; [nra |].
  intros Hy.
  assert (H1 : Calibrated.calcArmRatio s e = 1).
  { unfold Calibrated.calcArmRatio.
    pose proof PI_RGT_0 as Hpi.
    pose proof (atan2_upper (- (Landmark.y e - Landmark.y s))
                  (Rabs (Landmark.x e - Landmark.x s)) (Rabs_pos _)) as Hup.
    apply clamp_above; [lra |].
    assert (Hinv : 0 < / PI) by (apply Rinv_0_lt_compat; exact Hpi).
    match goal with
    | |- 1 <= (?a + PI / 2) / (PI / 2) =>
      replace ((a + PI / 2) / (PI / 2)) with (2 * a * / PI + 1) by (field; lra);
      assert (0 <= a) by (apply Hup; lra)
    end.
    nra. }
  rewrite H1. ring.
Qed.

(** ** The calibrated hook: frames that lack landmarks *)

(** In tracking mode a landmark array too short to hold both shoulders makes
    the update throw after the frame counter alone has moved; one that holds
    the shoulders but no elbow places the model and throws before any bone
    or smoothing entry is written. *)
Theorem short_frame_throws_early (g : Group) (landmarks : option Results)
    (mirrored : bool) (dv : DebugValues) (r : Refs) (w : World)
    (ab : ArmBones) (pose : list Landmark.t) :
  initializedRef r = true ->
  armBonesRef r = Some ab ->
  enableTracking dv = true ->
  useManualRotations dv = false ->
  poseOf landmarks = Some pose ->
  let o := Calibrated.frameEffect (Some g) landmarks mirrored dv r w in
  ((length pose <= MP_LANDMARKS.RIGHT_SHOULDER)%nat -> o = Threw (bumpFrame r) w) /\
  (forall ls rs,
     pose !! MP_LANDMARKS.LEFT_SHOULDER = Some ls ->
     pose !! MP_LANDMARKS.RIGHT_SHOULDER = Some rs ->
     (length pose <= MP_LANDMARKS.LEFT_ELBOW)%nat ->
     o = Threw (bumpFrame r) (Calibrated.placeModel mirrored ls rs w)).
Proof.
  intros Hinit Hab Htrack Hman Hpose o.
  unfold o, Calibrated.frameEffect.
  rewrite Hinit, Hab, Htrack, Hman, Hpose. cbn [negb andb].
  unfold Calibrated.trackingMode. split.
  - intros Hlen.
    rewrite (lookup_ge_None_2 pose MP_LANDMARKS.RIGHT_SHOULDER) by exact Hlen.
    now destruct (pose !! MP_LANDMARKS.LEFT_SHOULDER).
  - intros ls rs Hls Hrs Hlen. rewrite Hls, Hrs.
    rewrite (lookup_ge_None_2 pose MP_LANDMARKS.LEFT_ELBOW) by exact Hlen.
    rewrite (lookup_ge_None_2 pose MP_LANDMARKS.RIGHT_ELBOW)
      by (unfold MP_LANDMARKS.RIGHT_ELBOW, MP_LANDMARKS.LEFT_ELBOW in *; lia).
    now destruct mirrored.
Qed.

Lemma short_frame_throws_early_witness :
  let r := initEffect (Some dupRig) mountRefs dupWorld in
  Calibrated.frameEffect (Some dupRig) (Some (mkResults (Some []))) true
    defaultValues r dupWorld = Threw (bumpFrame r) dupWorld.
Proof.
  intros r.
  apply (short_frame_throws_early dupRig (Some (mkResults (Some []))) true defaultValues
           r dupWorld (collectArmBones (bones dupWorld) dupRig) []
           eq_refl eq_refl eq_refl eq_refl eq_refl).
  simpl. lia.
Defined.

(** ** The calibrated hook: manual mode *)

(** Manual mode never looks at the landmark frame or at the mirroring flag,
    never moves or scales the model and leaves the frame counter alone; it
    sets [rotation.y] to 0 and keeps the other two model angles. *)
Theorem manual_mode_ignores_landmarks (g : Group) (landmarks landmarks' : option Results)
    (mirrored mirrored' : bool) (dv : DebugValues) (r : Refs) (w : World) (ab : ArmBones) :
  initializedRef r = true ->
  armBonesRef r = Some ab ->
  useManualRotations dv = true ->
  let o := Calibrated.frameEffect (Some g) landmarks mirrored dv r w in
  o = Calibrated.frameEffect (Some g) landmarks' mirrored' dv r w /\
  (exists r' w', o = Done r' w') /\
  frameRef (outRefs o) = frameRef r /\
  position (outWorld o) = position w /\
  scale (outWorld o) = scale w /\
  rotation (outWorld o) = Euler.mk (Euler.x (rotation w)) 0 (Euler.z (rotation w)).
Proof.
  intros Hinit Hab Hman o. unfold o, Calibrated.frameEffect.
  rewrite Hinit, Hab, Hman. cbn [negb].
  rewrite andb_false_r.
  split; [reflexivity |].
  unfold Calibrated.manualMode. repeat open_applier. simpl.
  split; [eauto |].
  repeat split; intuition congruence.
Qed.

Lemma manual_mode_ignores_landmarks_witness :
  let r := initEffect (Some dupRig) mountRefs dupWorld in
  let o := Calibrated.frameEffect (Some dupRig) None true manualValues r dupWorld in
  o = Calibrated.frameEffect (Some dupRig) scenarioFrame false manualValues r dupWorld /\
  position (outWorld o) = position dupWorld /\
  scale (outWorld o) = scale dupWorld.
Proof.
  intros r o.
  destruct (manual_mode_ignores_landmarks dupRig None scenarioFrame true false manualValues
              r dupWorld (collectArmBones (bones dupWorld) dupRig) eq_refl eq_refl eq_refl)
    as (Hsame & _ & _ & Hpos & Hscale & _).
  repeat split; assumption.
Defined.

(** ** The calibrated hook: mirroring *)

Lemma clamp_odd (a x : R) :
  0 <= a ->
  JsMath.max (- a) (JsMath.min a (- x)) = - JsMath.max (- a) (JsMath.min a x).
Proof.
  intros Ha. unfold JsMath.max, JsMath.min.
  destruct (Rle_dec x (- a)) as [Hlo | Hlo].
  - rewrite (Rmin_left a (- x)), (Rmax_right (- a) a) by lra.
    rewrite (Rmin_right a x), (Rmax_left (- a) x) by lra. lra.
  - destruct (Rle_dec a x) as [Hhi | Hhi].
    + rewrite (Rmin_right a (- x)), (Rmax_left (- a) (- x)) by lra.
      rewrite (Rmin_left a x), (Rmax_right (- a) a) by lra. lra.
    + rewrite (Rmin_right a (- x)), (Rmax_right (- a) (- x)) by lra.
      rewrite (Rmin_right a x), (Rmax_right (- a) x) by lra. lra.
Qed.

Lemma shoulder_distance_sym (a b : Landmark.t) :
  sqrt ((Landmark.x a - Landmark.x b) ^ 2 + (Landmark.y a - Landmark.y b) ^ 2) =
  sqrt ((Landmark.x b - Landmark.x a) ^ 2 + (Landmark.y b - Landmark.y a) ^ 2).
Proof. f_equal. ring. Qed.

Lemma placeModel_mirror (ls rs : Landmark.t) (w : World) :
  mirrorX (Calibrated.placeModel true ls rs w) (Calibrated.placeModel false rs ls w).
Proof.
  unfold mirrorX, Calibrated.placeModel.
  cbn [bones scale rotation position rotationSetY scaleSetScalar positionSet
       Vector3.x Vector3.y Vector3.z].
  rewrite (shoulder_distance_sym ls rs).
  repeat split; try reflexivity.
  - unfold Calibrated.MIN_X, Calibrated.MAX_X.
    replace (-0.6) with (Ropp 0.6) by lra.
    rewrite <- clamp_odd by lra. do 2 f_equal. lra.
  - do 2 f_equal. lra.
Qed.

Lemma applyArmRotation_mirror (SMOOTH : R) (bs : list BoneId) (key : string)
    (x y z : R) (r : Refs) (w w' : World) :
  mirrorX w w' ->
  (Calibrated.applyArmRotation SMOOTH bs key x y z r w).1
    = (Calibrated.applyArmRotation SMOOTH bs key x y z r w').1 /\
  mirrorX (Calibrated.applyArmRotation SMOOTH bs key x y z r w).2
          (Calibrated.applyArmRotation SMOOTH bs key x y z r w').2.
Proof.
  intros (Hb & Hs & Hr & Hx & Hy & Hz).
  destruct bs as [| id bs]; simpl; unfold mirrorX; simpl;
    rewrite ?Hb; repeat split; assumption.
Qed.

(** Mirroring swaps sides and nothing else: when the frame holds both
    shoulders, the mirrored update on it and the unmirrored update on the
    frame with left and right shoulders and elbows exchanged leave the same
    refs, the same bones, the same scale and model rotation, and model
    positions that differ only in the sign of X; one throws (an elbow is
    missing) exactly when the other does. *)
Theorem mirroring_swaps_sides (g : Group) (landmarks landmarks' : option Results)
    (dv : DebugValues) (r : Refs) (w : World) (ab : ArmBones)
    (pose pose' : list Landmark.t) (ls rs : Landmark.t) :
  initializedRef r = true ->
  armBonesRef r = Some ab ->
  enableTracking dv = true ->
  useManualRotations dv = false ->
  poseOf landmarks = Some pose ->
  poseOf landmarks' = Some pose' ->
  pose !! MP_LANDMARKS.LEFT_SHOULDER = Some ls ->
  pose !! MP_LANDMARKS.RIGHT_SHOULDER = Some rs ->
  pose' !! MP_LANDMARKS.LEFT_SHOULDER = Some rs ->
  pose' !! MP_LANDMARKS.RIGHT_SHOULDER = Some ls ->
  pose' !! MP_LANDMARKS.LEFT_ELBOW = pose !! MP_LANDMARKS.RIGHT_ELBOW ->
  pose' !! MP_LANDMARKS.RIGHT_ELBOW = pose !! MP_LANDMARKS.LEFT_ELBOW ->
  let o := Calibrated.frameEffect (Some g) landmarks true dv r w in
  let o' := Calibrated.frameEffect (Some g) landmarks' false dv r w in
  outRefs o = outRefs o' /\
  mirrorX (outWorld o) (outWorld o') /\
  threw o = threw o'.
Proof.
  intros Hinit Hab Htrack Hman Hpose Hpose' Hls Hrs H11 H12 H13 H14 o o'.
  unfold o, o', Calibrated.frameEffect.
  rewrite Hinit, Hab, Htrack, Hman, Hpose, Hpose'. cbn [negb andb].
  unfold Calibrated.trackingMode. rewrite H11, H12, H13, H14, Hls, Hrs.
  pose proof (placeModel_mirror ls rs w) as Hm0.
  destruct (pose !! MP_LANDMARKS.RIGHT_ELBOW) as [le |]; [| simpl; auto].
  match goal with
  | |- context [Calibrated.applyArmRotation ?s ?bs ?k ?x ?y ?z ?r0 _] =>
    destruct (applyArmRotation_mirror s bs k x y z r0 _ _ Hm0) as [He1 Hm1]
  end.
  destruct (Calibrated.applyArmRotation _ (upperarm_l ab) _ _ _ _ _
              (Calibrated.placeModel true ls rs w)) as [r1 w1].
  destruct (Calibrated.applyArmRotation _ (upperarm_l ab) _ _ _ _ _
              (Calibrated.placeModel false rs ls w)) as [r1' w1'].
  simpl in He1, Hm1. subst r1'.
  destruct (pose !! MP_LANDMARKS.LEFT_ELBOW) as [re |]; [| simpl; auto].
  match goal with
  | |- context [Calibrated.applyArmRotation ?s (upperarm_r ab) ?k ?x ?y ?z ?r0 w1] =>
    destruct (applyArmRotation_mirror s (upperarm_r ab) k x y z r0 _ _ Hm1) as [He2 Hm2]
  end.
  destruct (Calibrated.applyArmRotation _ (upperarm_r ab) _ _ _ _ _ w1) as [r2 w2].
  destruct (Calibrated.applyArmRotation _ (upperarm_r ab) _ _ _ _ _ w1') as [r2' w2'].
  simpl in He2, Hm2. subst r2'.
  match goal with
  | |- context [Calibrated.applyArmRotation ?s (lowerarm_l ab) ?k ?x ?y ?z ?r0 w2] =>
    destruct (applyArmRotation_mirror s (lowerarm_l ab) k x y z r0 _ _ Hm2) as [He3 Hm3]
  end.
  destruct (Calibrated.applyArmRotation _ (lowerarm_l ab) _ _ _ _ _ w2) as [r3 w3].
  destruct (Calibrated.applyArmRotation _ (lowerarm_l ab) _ _ _ _ _ w2') as [r3' w3'].
  simpl in He3, Hm3. subst r3'.
  match goal with
  | |- context [Calibrated.applyArmRotation ?s (lowerarm_r ab) ?k ?x ?y ?z ?r0 w3] =>
    destruct (applyArmRotation_mirror s (lowerarm_r ab) k x y z r0 _ _ Hm3) as [He4 Hm4]
  end.
  destruct (Calibrated.applyArmRotation _ (lowerarm_r ab) _ _ _ _ _ w3) as [r4 w4].
  destruct (Calibrated.applyArmRotation _ (lowerarm_r ab) _ _ _ _ _ w3') as [r4' w4'].
  simpl in He4, Hm4. subst r4'.
  simpl. auto.
Qed.

Lemma mirroring_swaps_sides_witness :
  let r := initEffect (Some dupRig) mountRefs dupWorld in
  let o := Calibrated.frameEffect (Some dupRig) scenarioFrame true defaultValues r dupWorld in
  let o' := Calibrated.frameEffect (Some dupRig) (Some (mkResults (Some swappedPose)))
              false defaultValues r dupWorld in
  outRefs o = outRefs o' /\ mirrorX (outWorld o) (outWorld o') /\ threw o = threw o'.
Proof.
  apply (mirroring_swaps_sides dupRig scenarioFrame (Some (mkResults (Some swappedPose)))
           defaultValues (initEffect (Some dupRig) mountRefs dupWorld) dupWorld
           (collectArmBones (bones dupWorld) dupRig) scenarioPose swappedPose
           (scenarioLandmark 11) (scenarioLandmark 12));
    reflexivity.
Defined.

(** ** Both hooks: what a frame may write *)

Lemma touchesOnly_refl (S : list BoneId) (w : World) : touchesOnly S w w.
Proof. intros i. auto. Qed.

Lemma touchesOnly_trans (S : list BoneId) (w1 w2 w3 : World) :
  touchesOnly S w1 w2 -> touchesOnly S w2 w3 -> touchesOnly S w1 w3.
Proof.
  intros H12 H23 i. destruct (H12 i) as [Hn1 Hu1], (H23 i) as [Hn2 Hu2]. split.
  - now rewrite Hn2.
  - intros Hi. now rewrite Hu2, Hu1.
Qed.

Lemma touchesOnly_transform (S : list BoneId) (w w' : World) :
  bones w' = bones w -> touchesOnly S w w'.
Proof. intros Hb i. rewrite Hb. auto. Qed.

Lemma touchesOnly_weaken (S T : list BoneId) (w w' : World) :
  (forall i, i ∈ S -> i ∈ T) -> touchesOnly S w w' -> touchesOnly T w w'.
Proof.
  intros Hsub H i. destruct (H i) as [Hn Hu]. split; [exact Hn |].
  intros Hi. apply Hu. intros Hs. apply Hi, Hsub, Hs.
Qed.

Lemma calibrated_posed_name (rest : gmap string Euler.t) (smooth : Euler.t) (b : Bone.t) :
  Bone.name (Calibrated.posed rest smooth b) = Bone.name b.
Proof. unfold Calibrated.posed. now destruct (rest !! Bone.name b). Qed.

Lemma applyArmRotation_touches (SMOOTH : R) (bs : list BoneId) (key : string)
    (x y z : R) (r : Refs) (w : World) :
  touchesOnly bs w (Calibrated.applyArmRotation SMOOTH bs key x y z r w).2.
Proof.
  intros i. rewrite applyArmRotation_bones.
  destruct (decide (i ∈ bs)) as [Hin | Hnin].
  - split; [| contradiction].
    destruct (bones w !! i) as [b |]; simpl; [| reflexivity].
    now rewrite calibrated_posed_name.
  - auto.
Qed.

Lemma applyRotationToAll_touches (bs : list BoneId) (key : string)
    (x y z : R) (r : Refs) (w : World) :
  touchesOnly bs w (RestRelative.applyRotationToAll bs key x y z r w).2.
Proof.
  intros i. rewrite applyRotationToAll_bones.
  destruct (decide (i ∈ bs)) as [Hin | Hnin].
  - split; [| contradiction].
    destruct (bones w !! i) as [b |]; reflexivity.
  - auto.
Qed.

Lemma in_allBones (ab : ArmBones) (i : nat) :
  i ∈ upperarm_l ab \/ i ∈ upperarm_r ab \/ i ∈ lowerarm_l ab \/ i ∈ lowerarm_r ab ->
  i ∈ allBones ab.
Proof. unfold allBones. rewrite !elem_of_app. tauto. Qed.

Ltac step_touch ab :=
  match goal with
  | |- context [Calibrated.applyArmRotation ?s ?bs ?k ?x ?y ?z ?r ?w] =>
    let Ht := fresh "Htouch" in
    pose proof (touchesOnly_weaken bs (allBones ab) _ _
                  (fun i Hi => in_allBones ab i ltac:(tauto))
                  (applyArmRotation_touches s bs k x y z r w)) as Ht;
    destruct (Calibrated.applyArmRotation s bs k x y z r w) as [? ?];
    simpl in Ht
  | |- context [RestRelative.applyRotationToAll ?bs ?k ?x ?y ?z ?r ?w] =>
    let Ht := fresh "Htouch" in
    pose proof (touchesOnly_weaken bs (allBones ab) _ _
                  (fun i Hi => in_allBones ab i ltac:(tauto))
                  (applyRotationToAll_touches bs k x y z r w)) as Ht;
    destruct (RestRelative.applyRotationToAll bs k x y z r w) as [? ?];
    simpl in Ht
  end.

Ltac chain_touch :=
  repeat match goal with
         | H : touchesOnly ?S ?a ?b |- touchesOnly ?S ?a ?c =>
           apply (touchesOnly_trans S a b c H); clear H
         end;
  first [apply touchesOnly_refl | apply touchesOnly_transform; reflexivity].

Lemma manualMode_touches (dv : DebugValues) (ab : ArmBones) (r : Refs) (w : World) :
  touchesOnly (allBones ab) w (Calibrated.manualMode dv ab r w).2.
Proof.
  unfold Calibrated.manualMode. repeat step_touch ab. simpl.
  chain_touch.
Qed.

Lemma trackingMode_touches (dv : DebugValues) (mirrored : bool) (ab : ArmBones)
    (pose : list Landmark.t) (r : Refs) (w : World) :
  touchesOnly (allBones ab) w (outWorld (Calibrated.trackingMode dv mirrored ab pose r w)).
Proof.
  unfold Calibrated.trackingMode.
  destruct (pose !! MP_LANDMARKS.LEFT_SHOULDER) as [ls |];
    [| apply touchesOnly_refl].
  destruct (pose !! MP_LANDMARKS.RIGHT_SHOULDER) as [rs |];
    [| apply touchesOnly_refl].
  assert (H0 : touchesOnly (allBones ab) w (Calibrated.placeModel mirrored ls rs w))
    by (apply touchesOnly_transform; reflexivity).
  destruct (if mirrored then pose !! MP_LANDMARKS.RIGHT_ELBOW
            else pose !! MP_LANDMARKS.LEFT_ELBOW) as [le |]; [| exact H0].
  step_touch ab.
  destruct (if mirrored then pose !! MP_LANDMARKS.LEFT_ELBOW
            else pose !! MP_LANDMARKS.RIGHT_ELBOW) as [re |];
    [| simpl; chain_touch].
  repeat step_touch ab. simpl. chain_touch.
Qed.

Lemma armsStep_touches (mirrored : bool) (ab : ArmBones) (pose : list Landmark.t)
    (ls rs : Landmark.t) (r : Refs) (w : World) :
  touchesOnly (allBones ab) w (outWorld (RestRelative.armsStep mirrored ab pose ls rs r w)).
Proof.
  unfold RestRelative.armsStep.
  destruct (if mirrored then pose !! MP_LANDMARKS.RIGHT_ELBOW
            else pose !! MP_LANDMARKS.LEFT_ELBOW) as [le |];
    [| apply touchesOnly_refl].
  step_touch ab.
  destruct (if mirrored then pose !! MP_LANDMARKS.RIGHT_WRIST
            else pose !! MP_LANDMARKS.LEFT_WRIST) as [lw |];
    [| simpl; chain_touch].
  step_touch ab.
  destruct (if mirrored then pose !! MP_LANDMARKS.LEFT_ELBOW
            else pose !! MP_LANDMARKS.RIGHT_ELBOW) as [re |];
    [| simpl; chain_touch].
  step_touch ab.
  destruct (if mirrored then pose !! MP_LANDMARKS.LEFT_WRIST
            else pose !! MP_LANDMARKS.RIGHT_WRIST) as [rw |];
    [| simpl; chain_touch].
  step_touch ab. simpl. chain_touch.
Qed.

(** Whatever its inputs, a frame of either hook renames no bone and changes
    no bone outside the four bound arrays; without a binding it changes no
    bone at all. *)
Theorem frames_touch_bound_bones_only (model : option Group) (landmarks : option Results)
    (mirrored : bool) (dv : DebugValues) (r : Refs) (w : World) :
  let S := match armBonesRef r with Some ab => allBones ab | None => [] end in
  touchesOnly S w (outWorld (Calibrated.frameEffect model landmarks mirrored dv r w)) /\
  touchesOnly S w (outWorld (RestRelative.frameEffect model landmarks mirrored r w)).
Proof.
  intros S. split.
  - unfold Calibrated.frameEffect.
    destruct model as [g |]; [| apply touchesOnly_refl].
    destruct (negb (initializedRef r)); [apply touchesOnly_refl |].
    unfold S. destruct (armBonesRef r) as [ab |]; [| apply touchesOnly_refl].
    destruct (negb (enableTracking dv) && negb (useManualRotations dv))%bool;
      [apply touchesOnly_refl |].
    destruct (useManualRotations dv).
    + pose proof (manualMode_touches dv ab r w) as H.
      destruct (Calibrated.manualMode dv ab r w) as [r' w']. exact H.
    + destruct (poseOf landmarks) as [pose |]; [| apply touchesOnly_refl].
      apply trackingMode_touches.
  - unfold RestRelative.frameEffect.
    destruct model as [g |]; [| apply touchesOnly_refl].
    destruct (poseOf landmarks) as [pose |]; [| apply touchesOnly_refl].
    destruct (negb (initializedRef r)); [apply touchesOnly_refl |].
    unfold S. destruct (armBonesRef r) as [ab |]; [| apply touchesOnly_refl].
    destruct (pose !! MP_LANDMARKS.LEFT_HIP) as [lh |]; [| apply touchesOnly_refl].
    destruct (pose !! MP_LANDMARKS.RIGHT_HIP) as [rh |]; [| apply touchesOnly_refl].
    destruct (pose !! MP_LANDMARKS.LEFT_SHOULDER) as [ls |]; [| apply touchesOnly_refl].
    destruct (pose !! MP_LANDMARKS.RIGHT_SHOULDER) as [rs |]; [| apply touchesOnly_refl].
    eapply touchesOnly_trans; [| apply armsStep_touches].
    apply touchesOnly_transform. reflexivity.
Qed.

(** ** The calibrated hook: a whole tracking frame *)

(** A tracking frame that finds its four landmarks runs to its end; this is
    everything it leaves behind. *)
Lemma tracking_frame_spec (g : Group) (landmarks : option Results) (mirrored : bool)
    (dv : DebugValues) (r : Refs) (w : World) (ab : ArmBones)
    (pose : list Landmark.t) (ls rs le re : Landmark.t) :
  initializedRef r = true ->
  armBonesRef r = Some ab ->
  enableTracking dv = true ->
  useManualRotations dv = false ->
  poseOf landmarks = Some pose ->
  pose !! MP_LANDMARKS.LEFT_SHOULDER = Some ls ->
  pose !! MP_LANDMARKS.RIGHT_SHOULDER = Some rs ->
  pose !! MP_LANDMARKS.LEFT_ELBOW = Some le ->
  pose !! MP_LANDMARKS.RIGHT_ELBOW = Some re ->
  let tl := Calibrated.mapToYRotation
              (Calibrated.calcArmRatio (if mirrored then rs else ls)
                                       (if mirrored then re else le)) in
  let tr := Calibrated.mapToYRotation
              (Calibrated.calcArmRatio (if mirrored then ls else rs)
                                       (if mirrored then le else re)) in
  exists r' w',
    Calibrated.frameEffect (Some g) landmarks mirrored dv r w = Done r' w' /\
    smoothRotations r' = trackedSmooth (smoothingFactor dv) ab tl tr (smoothRotations r) /\
    restRotationsRef r' = restRotationsRef r /\
    armBonesRef r' = Some ab /\ initializedRef r' = true /\
    frameRef r' = Datatypes.S (frameRef r) /\
    position w' = position (Calibrated.placeModel mirrored ls rs w) /\
    scale w' = scale (Calibrated.placeModel mirrored ls rs w) /\
    rotation w' = rotation (Calibrated.placeModel mirrored ls rs w) /\
    (forall i, bones w' !! i =
       trackedBone (smoothingFactor dv) ab tl tr (restRotationsRef r) (smoothRotations r)
         i (bones w !! i)).
Proof.
  intros Hinit Hab Htrack Hman Hpose Hls Hrs Hle Hre tl tr.
  unfold Calibrated.frameEffect.
  rewrite Hinit, Hab, Htrack, Hman, Hpose. cbn [negb andb].
  unfold Calibrated.trackingMode. rewrite Hls, Hrs.
  replace (if mirrored then pose !! MP_LANDMARKS.RIGHT_ELBOW
           else pose !! MP_LANDMARKS.LEFT_ELBOW)
    with (Some (if mirrored then re else le)) by (destruct mirrored; congruence).
  replace (if mirrored then pose !! MP_LANDMARKS.LEFT_ELBOW
           else pose !! MP_LANDMARKS.RIGHT_ELBOW)
    with (Some (if mirrored then le else re)) by (destruct mirrored; congruence).
  fold tl tr.
  pose proof (applyArmRotation_refs (smoothingFactor dv) (upperarm_l ab) "upperarm_l"
                0 tl 0 (bumpFrame r) (Calibrated.placeModel mirrored ls rs w)) as Hk1.
  open_call.
  match goal with
  | |- context [Calibrated.applyArmRotation ?s ?bs ?k ?x ?y ?z ?r0 ?w0] =>
    pose proof (applyArmRotation_refs s bs k x y z r0 w0) as Hk2
  end.
  open_call.
  match goal with
  | |- context [Calibrated.applyArmRotation ?s ?bs ?k ?x ?y ?z ?r0 ?w0] =>
    pose proof (applyArmRotation_refs s bs k x y z r0 w0) as Hk3
  end.
  open_call.
  match goal with
  | |- context [Calibrated.applyArmRotation ?s ?bs ?k ?x ?y ?z ?r0 ?w0] =>
    pose proof (applyArmRotation_refs s bs k x y z r0 w0) as Hk4
  end.
  open_call.
  simpl in *.
  eexists _, _. split; [reflexivity |].
  repeat match goal with
         | H : smoothRotations _ = _ |- _ => rewrite H in *; clear H
         end.
  repeat match goal with
         | H : restRotationsRef _ = _ |- _ => rewrite H in *; clear H
         end.
  simpl in *.
  split; [reflexivity |]. split; [reflexivity |].
  split; [intuition congruence |]. split; [intuition congruence |].
  split; [intuition congruence |].
  split; [intuition congruence |]. split; [intuition congruence |].
  split; [intuition congruence |].
  intros i. unfold trackedBone, wrote.
  repeat match goal with
         | H : forall j, bones _ !! j = _ |- _ => rewrite H
         end.
  simpl. rewrite ?smoothed_lookup_ne by discriminate. reflexivity.
Qed.

(** ** The calibrated hook: tracking a frame that stands still *)

Lemma smoothUpdate_fixed (SMOOTH x y z : R) :
  smoothUpdate SMOOTH (Some (Euler.mk x y z)) x y z = Euler.mk x y z.
Proof. unfold smoothUpdate, smoothStep. simpl. f_equal; ring. Qed.

Lemma smoothed_fixed (SMOOTH : R) (bs : list BoneId) (key : string) (x y z : R)
    (m : gmap string Euler.t) :
  (bs <> [] -> m !! key = Some (Euler.mk x y z)) ->
  smoothed SMOOTH bs key x y z m = m.
Proof.
  intros H. destruct bs as [| id bs]; [reflexivity |]. simpl.
  rewrite H by discriminate. rewrite smoothUpdate_fixed. apply insert_id.
  apply H. discriminate.
Qed.

Lemma posed_absorb (rest : gmap string Euler.t) (s s' : Euler.t) (o : option Bone.t) :
  Calibrated.posed rest s <$> (Calibrated.posed rest s' <$> o)
  = Calibrated.posed rest s <$> o.
Proof.
  destruct o as [b |]; [| reflexivity]. simpl. f_equal.
  unfold Calibrated.posed.
  destruct (rest !! Bone.name b) as [e |] eqn:He; simpl; now rewrite He.
Qed.

Lemma elem_of_not_nil (bs : list BoneId) (i : nat) : i ∈ bs -> bs <> [].
Proof. intros H ->. inversion H. Qed.

Lemma wrote_congr (rest : gmap string Euler.t) (s s' : Euler.t) (bs : list BoneId)
    (i : nat) (o : option Bone.t) :
  (bs <> [] -> s' = s) -> wrote rest s' bs i o = wrote rest s bs i o.
Proof.
  intros H. unfold wrote. destruct (decide (i ∈ bs)) as [Hin | _]; [| reflexivity].
  now rewrite (H (elem_of_not_nil bs i Hin)).
Qed.

(** Idempotence on static input: from a state without smoothing entries for
    the four arm keys, the second update on one and the same frame leaves the
    smoothing state, every bone and the model transform exactly as the first
    update left them; only the frame counter moves. *)
Theorem static_frame_is_fixed_point (g : Group) (landmarks : option Results)
    (mirrored : bool) (dv : DebugValues) (r : Refs) (w : World) (ab : ArmBones)
    (pose : list Landmark.t) (ls rs le re : Landmark.t) :
  initializedRef r = true ->
  armBonesRef r = Some ab ->
  enableTracking dv = true ->
  useManualRotations dv = false ->
  poseOf landmarks = Some pose ->
  pose !! MP_LANDMARKS.LEFT_SHOULDER = Some ls ->
  pose !! MP_LANDMARKS.RIGHT_SHOULDER = Some rs ->
  pose !! MP_LANDMARKS.LEFT_ELBOW = Some le ->
  pose !! MP_LANDMARKS.RIGHT_ELBOW = Some re ->
  smoothRotations r !! "upperarm_l" = None ->
  smoothRotations r !! "upperarm_r" = None ->
  smoothRotations r !! "lowerarm_l" = None ->
  smoothRotations r !! "lowerarm_r" = None ->
  let o1 := Calibrated.frameEffect (Some g) landmarks mirrored dv r w in
  let o2 := Calibrated.frameEffect (Some g) landmarks mirrored dv (outRefs o1) (outWorld o1) in
  threw o2 = false /\
  smoothRotations (outRefs o2) = smoothRotations (outRefs o1) /\
  bones (outWorld o2) = bones (outWorld o1) /\
  position (outWorld o2) = position (outWorld o1) /\
  scale (outWorld o2) = scale (outWorld o1) /\
  rotation (outWorld o2) = rotation (outWorld o1) /\
  frameRef (outRefs o2) = Datatypes.S (frameRef (outRefs o1)).
Proof.
  intros Hinit Hab Htrack Hman Hpose Hls Hrs Hle Hre Hul Hur Hll Hlr o1 o2.
  destruct (tracking_frame_spec g landmarks mirrored dv r w ab pose ls rs le re
              Hinit Hab Htrack Hman Hpose Hls Hrs Hle Hre)
    as (r1 & w1 & Ho1 & Hsm1 & Hrest1 & Hab1 & Hinit1 & Hfr1 & Hp1 & Hs1 & Hr1 & Hb1).
  unfold o2, o1. rewrite Ho1. cbn [outRefs outWorld].
  destruct (tracking_frame_spec g landmarks mirrored dv r1 w1 ab pose ls rs le re
              Hinit1 Hab1 Htrack Hman Hpose Hls Hrs Hle Hre)
    as (r2 & w2 & Ho2 & Hsm2 & Hrest2 & Hab2 & Hinit2 & Hfr2 & Hp2 & Hs2 & Hr2 & Hb2).
  rewrite Ho2. cbn [outRefs outWorld threw].
  set (S := smoothingFactor dv) in *.
  set (tl := Calibrated.mapToYRotation
               (Calibrated.calcArmRatio (if mirrored then rs else ls)
                                        (if mirrored then re else le))) in *.
  set (tr := Calibrated.mapToYRotation
               (Calibrated.calcArmRatio (if mirrored then ls else rs)
                                        (if mirrored then le else re))) in *.
  set (m := smoothRotations r) in *.
  assert (Ek : forall k x y z bs,
             m !! k = None -> bs <> [] ->
             smoothed S bs k x y z m !! k = Some (Euler.mk x y z)).
  { intros k x y z bs Hk Hbs. rewrite smoothed_lookup_eq by exact Hbs. now rewrite Hk. }
  assert (M1ul : upperarm_l ab <> [] ->
                 smoothRotations r1 !! "upperarm_l" = Some (Euler.mk 0 tl 0)).
  { intros Hbs. rewrite Hsm1. unfold trackedSmooth.
    rewrite !smoothed_lookup_ne by discriminate. now apply Ek. }
  assert (M1ur : upperarm_r ab <> [] ->
                 smoothRotations r1 !! "upperarm_r" = Some (Euler.mk 0 tr 0)).
  { intros Hbs. rewrite Hsm1. unfold trackedSmooth.
    rewrite !smoothed_lookup_ne by discriminate.
    rewrite smoothed_lookup_eq by exact Hbs.
    rewrite smoothed_lookup_ne by discriminate. now rewrite Hur. }
  assert (M1ll : lowerarm_l ab <> [] ->
                 smoothRotations r1 !! "lowerarm_l" = Some (Euler.mk 0 0 0)).
  { intros Hbs. rewrite Hsm1. unfold trackedSmooth.
    rewrite !smoothed_lookup_ne by discriminate.
    rewrite smoothed_lookup_eq by exact Hbs.
    rewrite !smoothed_lookup_ne by discriminate. now rewrite Hll. }
  assert (M1lr : lowerarm_r ab <> [] ->
                 smoothRotations r1 !! "lowerarm_r" = Some (Euler.mk 0 0 0)).
  { intros Hbs. rewrite Hsm1. unfold trackedSmooth.
    rewrite smoothed_lookup_eq by exact Hbs.
    rewrite !smoothed_lookup_ne by discriminate. now rewrite Hlr. }
  split; [reflexivity |]. split; [| split; [| split; [| split; [| split]]]].
  - rewrite Hsm2. unfold trackedSmooth.
    rewrite (smoothed_fixed S (upperarm_l ab)) by exact M1ul.
    rewrite (smoothed_fixed S (upperarm_r ab)) by exact M1ur.
    rewrite (smoothed_fixed S (lowerarm_l ab)) by exact M1ll.
    rewrite (smoothed_fixed S (lowerarm_r ab)) by exact M1lr.
    reflexivity.
  - apply map_eq. intros i. rewrite Hb2, Hb1, Hrest1.
    unfold trackedBone. fold m. rewrite Hul, Hur, Hll, Hlr.
    simpl smoothUpdate.
    rewrite (wrote_congr _ (Euler.mk 0 0 0) _ (lowerarm_r ab))
      by (intros Hbs; rewrite (M1lr Hbs); apply smoothUpdate_fixed).
    rewrite (wrote_congr _ (Euler.mk 0 0 0) _ (lowerarm_l ab))
      by (intros Hbs; rewrite (M1ll Hbs); apply smoothUpdate_fixed).
    rewrite (wrote_congr _ (Euler.mk 0 tr 0) _ (upperarm_r ab))
      by (intros Hbs; rewrite (M1ur Hbs); apply smoothUpdate_fixed).
    rewrite (wrote_congr _ (Euler.mk 0 tl 0) _ (upperarm_l ab))
      by (intros Hbs; rewrite (M1ul Hbs); apply smoothUpdate_fixed).
    unfold wrote.
    destruct (decide (i ∈ lowerarm_r ab)), (decide (i ∈ lowerarm_l ab)),
             (decide (i ∈ upperarm_r ab)), (decide (i ∈ upperarm_l ab));
      rewrite ?posed_absorb; reflexivity.
  - rewrite Hp2, Hp1. reflexivity.
  - rewrite Hs2, Hs1. reflexivity.
  - rewrite Hr2, Hr1. unfold Calibrated.placeModel. simpl. now rewrite Hr1.
  - exact Hfr2.
Qed.

Lemma static_frame_is_fixed_point_witness :
  let r := initEffect (Some dupRig) mountRefs dupWorld in
  let o1 := Calibrated.frameEffect (Some dupRig) scenarioFrame false defaultValues r dupWorld in
  let o2 := Calibrated.frameEffect (Some dupRig) scenarioFrame false defaultValues
              (outRefs o1) (outWorld o1) in
  smoothRotations (outRefs o2) = smoothRotations (outRefs o1) /\
  bones (outWorld o2) = bones (outWorld o1).
Proof.
  destruct scenarioPose_lookups as (Hls & Hrs & Hle & Hre).
  destruct (static_frame_is_fixed_point dupRig scenarioFrame false defaultValues
              (initEffect (Some dupRig) mountRefs dupWorld) dupWorld
              (collectArmBones (bones dupWorld) dupRig) scenarioPose _ _ _ _
              eq_refl eq_refl eq_refl eq_refl eq_refl Hls Hrs Hle Hre
              eq_refl eq_refl eq_refl eq_refl)
    as (_ & Hsm & Hb & _).
  split; assumption.
Defined.

(** ** Binding: what a new model keeps from the old one *)

Lemma capture_keeps_other_names (store : gmap nat Bone.t) (rest : gmap string Euler.t)
    (l : list BoneId) (k : string) :
  (forall id b, id ∈ l -> store !! id = Some b -> Bone.name b <> k) ->
  foldl (captureRest store) rest l !! k = rest !! k.
Proof.
  revert rest. induction l as [| x l IH]; intros rest Hno; [reflexivity |].
  simpl. rewrite IH.
  - unfold captureRest. destruct (store !! x) as [b |] eqn:Hb; [| reflexivity].
    apply lookup_insert_ne. apply (Hno x b); [now left | exact Hb].
  - intros id b Hin. apply Hno. now right.
Qed.

(** Binding a model never clears state: the smoothing entries survive it
    untouched, and so does every rest entry whose name no bound bone of the
    new model bears.  Hence the first update of a key on the new rig is
    filtered from the value the old rig left, not set to its target. *)
Theorem rebinding_keeps_old_state (g : Group) (r : Refs) (w : World) :
  let r' := initEffect (Some g) r w in
  smoothRotations r' = smoothRotations r /\
  (forall k,
     (forall id b, id ∈ allBones (collectArmBones (bones w) g) ->
                   bones w !! id = Some b -> Bone.name b <> k) ->
     restRotationsRef r' !! k = restRotationsRef r !! k) /\
  (forall SMOOTH bs key x y z e,
     bs <> [] -> smoothRotations r !! key = Some e ->
     smoothRotations (Calibrated.applyArmRotation SMOOTH bs key x y z r' w).1 !! key
       = Some (Euler.mk (smoothStep SMOOTH x (Euler.x e))
                        (smoothStep SMOOTH y (Euler.y e))
                        (smoothStep SMOOTH z (Euler.z e)))).
Proof.
  intros r'. split; [reflexivity |]. split.
  - intros k Hno. unfold r'. simpl. now apply capture_keeps_other_names.
  - intros SMOOTH bs key x y z e Hbs He.
    rewrite applyArmRotation_smooth. destruct bs; [congruence |].
    rewrite lookup_insert_eq. unfold r'. simpl smoothRotations. now rewrite He.
Qed.

(** ** Binding: the matcher in terms of substrings *)

Lemma prefix_spec (p s : string) :
  String.prefix p s = true <-> exists post, s = (p +:+ post)%string.
Proof.
  revert s. induction p as [| c p IH]; intros s.
  - split; [intros _; now exists s |]. intros _. now destruct s.
  - destruct s as [| d s]; simpl.
    + split; [discriminate | intros [post H]; discriminate].
    + destruct (ascii_dec c d) as [-> | Hne].
      * rewrite IH. split; intros [post H]; exists post; [now rewrite H |].
        now injection H.
      * split; [discriminate |]. intros [post H]. injection H as H1 H2. congruence.
Qed.

(** [s.includes (pat)] holds exactly when [pat] is a substring of [s]. *)
Lemma includes_spec (s pat : string) :
  Str.includes s pat = true <-> exists pre post, s = (pre +:+ pat +:+ post)%string.
Proof.
  induction s as [| c s IH]; cbn [Str.includes].
  - rewrite orb_false_r, prefix_spec. split.
    + intros [post H]. now exists ""%string, post.
    + intros (pre & post & H). destruct pre as [| d pre]; [now exists post |].
      discriminate.
  - rewrite orb_true_iff, prefix_spec, IH. split.
    + intros [[post H] | (pre & post & H)].
      * now exists ""%string, post.
      * exists (String c pre), post. simpl. now rewrite H.
    + intros (pre & post & H). destruct pre as [| d pre].
      * left. now exists post.
      * right. injection H as _ H. now exists pre, post.
Qed.

Lemma includes_false_spec (s pat : string) :
  Str.includes s pat = false <-> ~ substring pat s.
Proof.
  unfold substring. rewrite <- includes_spec.
  destruct (Str.includes s pat); split; intros H.
  - discriminate.
  - exfalso. now apply H.
  - intros H'. discriminate.
  - reflexivity.
Qed.

Ltac marker_list_spec :=
  split;
  [ intros H; apply andb_prop in H as [Hi Hex];
    apply negb_true_iff in Hex;
    repeat (apply orb_false_elim in Hex as [Hex ?]);
    split; [apply includes_spec; exact Hi |];
    repeat constructor; apply includes_false_spec; assumption
  | intros [Hi HF];
    apply andb_true_intro; split; [apply includes_spec, Hi |];
    apply negb_true_iff;
    repeat match goal with
           | H : Forall _ (_ :: _) |- _ =>
             let Hm := fresh "Hm" in
             apply Forall_cons_iff in H as [Hm H];
             apply includes_false_spec in Hm; rewrite Hm
           end;
    reflexivity ].

Lemma matchUpper_spec (pat name : string) :
  matchUpper pat name = true <->
  substring pat name /\ Forall (fun m => ~ substring m name) upperArmMarkers.
Proof.
  unfold matchUpper, excludedUpper, excludedCommon, upperArmMarkers.
  marker_list_spec.
Qed.

Lemma matchLower_spec (pat name : string) :
  matchLower pat name = true <->
  substring pat name /\ Forall (fun m => ~ substring m name) lowerArmMarkers.
Proof.
  unfold matchLower, excludedCommon, lowerArmMarkers.
  marker_list_spec.
Qed.

Lemma boundAs_upper (store : gmap nat Bone.t) (pat : string) (id : nat) :
  boundAs store (matchUpper pat) id <-> namedLike store pat upperArmMarkers id.
Proof.
  unfold boundAs, namedLike. split; intros (b & Hb & H); exists b;
    (split; [exact Hb |]); now apply matchUpper_spec.
Qed.

Lemma boundAs_lower (store : gmap nat Bone.t) (pat : string) (id : nat) :
  boundAs store (matchLower pat) id <-> namedLike store pat lowerArmMarkers id.
Proof.
  unfold boundAs, namedLike. split; intros (b & Hb & H); exists b;
    (split; [exact Hb |]); now apply matchLower_spec.
Qed.

Lemma pushBone_lower_names (store store' : gmap nat Bone.t) (acc : ArmBones) (id : nat) :
  (Str.toLowerCase ∘ Bone.name) <$> store !! id
    = (Str.toLowerCase ∘ Bone.name) <$> store' !! id ->
  pushBone store acc id = pushBone store' acc id.
Proof.
  unfold pushBone.
  destruct (store !! id) as [b |], (store' !! id) as [b' |]; simpl;
    intros H; try discriminate; [| reflexivity].
  injection H as H. now rewrite H.
Qed.

(** The four bound arrays, read as sets: a bone of the model is bound under
    a key exactly when its lower-cased name has the key's fragment as a
    substring and none of the key's markers; the arrays depend on the names
    only through their lower-cased form. *)
Theorem binding_by_substring (store : gmap nat Bone.t) (g : Group) :
  let ab := collectArmBones store g in
  (forall id,
     (id ∈ upperarm_l ab <->
        id ∈ concat (skinned g) /\ namedLike store "upperarm_l" upperArmMarkers id) /\
     (id ∈ upperarm_r ab <->
        id ∈ concat (skinned g) /\ namedLike store "upperarm_r" upperArmMarkers id) /\
     (id ∈ lowerarm_l ab <->
        id ∈ concat (skinned g) /\ namedLike store "lowerarm_l" lowerArmMarkers id) /\
     (id ∈ lowerarm_r ab <->
        id ∈ concat (skinned g) /\ namedLike store "lowerarm_r" lowerArmMarkers id)) /\
  (forall store' : gmap nat Bone.t,
     (forall id, (Str.toLowerCase ∘ Bone.name) <$> store !! id
                 = (Str.toLowerCase ∘ Bone.name) <$> store' !! id) ->
     collectArmBones store' g = ab).
Proof.
  intros ab. split.
  - intros id. unfold ab.
    rewrite collect_upperarm_l, collect_upperarm_r, collect_lowerarm_l, collect_lowerarm_r.
    rewrite !boundAs_upper, !boundAs_lower. tauto.
  - intros store' Hsame. unfold ab, collectArmBones.
    generalize (mkArmBones [] [] [] []).
    induction (concat (skinned g)) as [| id l IH]; intros acc; [reflexivity |].
    simpl. rewrite (pushBone_lower_names store store' acc id (Hsame id)). apply IH.
Qed.

(** ** The rest-relative hook: the arm angle *)

Lemma atan2_above (y : R) : 0 < y -> JsMath.atan2 y 0 = PI / 2.
Proof.
  intros Hy. unfold JsMath.atan2.
  destruct (Rlt_dec 0 0) as [H0 | _]; [lra |].
  destruct (Rlt_dec 0 y) as [_ | H1]; [reflexivity | lra].
Qed.

Lemma atan2_level (x : R) : 0 < x -> JsMath.atan2 0 x = 0.
Proof.
  intros Hx. unfold JsMath.atan2.
  destruct (Rlt_dec 0 x) as [_ | H]; [| lra].
  unfold Rdiv. rewrite Rmult_0_l. apply atan_0.
Qed.

(** The angle that the rest-relative hook adds to the rest Z of an arm: the
    vertical arm angle measured from the arms-down direction.  It lies in
    [0, PI], and is 0 for an elbow straight below the shoulder, PI / 2 for
    an elbow level with it and PI for an elbow straight above. *)
Theorem arm_delta_range (s e : Landmark.t) :
  let delta := RestRelative.calcVerticalAngle s e - (- PI / 2) in
  0 <= delta <= PI /\
  (Landmark.x e = Landmark.x s -> Landmark.y s < Landmark.y e -> delta = 0) /\
  (Landmark.x e <> Landmark.x s -> Landmark.y e = Landmark.y s -> delta = PI / 2) /\
  (Landmark.x e = Landmark.x s -> Landmark.y e < Landmark.y s -> delta = PI).
Proof.
  intros delta. unfold delta, RestRelative.calcVerticalAngle.
  pose proof PI_RGT_0 as Hpi.
  pose proof (atan2_half_plane (- (Landmark.y e - Landmark.y s))
                (Rabs (Landmark.x e - Landmark.x s)) (Rabs_pos _)) as Hb.
  split; [lra |]. split; [| split].
  - intros Hx Hy. rewrite Hx, Rminus_diag, Rabs_R0, atan2_neg_axis by lra. lra.
  - intros Hx Hy. rewrite Hy, Rminus_diag, Ropp_0.
    rewrite atan2_level by (apply Rabs_pos_lt; lra). lra.
  - intros Hx Hy. rewrite Hx, Rminus_diag, Rabs_R0, atan2_above by lra. lra.
Qed.

(** ** The rest-relative hook: frames that lack landmarks *)

(** A landmark array that does not reach the right hip makes the update
    throw before anything but the frame counter has changed. *)
Theorem short_frame_changes_nothing (g : Group) (landmarks : option Results)
    (mirrored : bool) (r : Refs) (w : World) (ab : ArmBones) (pose : list Landmark.t) :
  initializedRef r = true ->
  armBonesRef r = Some ab ->
  poseOf landmarks = Some pose ->
  (length pose <= MP_LANDMARKS.RIGHT_HIP)%nat ->
  RestRelative.frameEffect (Some g) landmarks mirrored r w = Threw (bumpFrame r) w.
Proof.
  intros Hinit Hab Hpose Hlen. unfold RestRelative.frameEffect.
  rewrite Hpose, Hinit, Hab. cbn [negb].
  rewrite (lookup_ge_None_2 pose MP_LANDMARKS.RIGHT_HIP) by exact Hlen.
  now destruct (pose !! MP_LANDMARKS.LEFT_HIP).
Qed.

Lemma short_frame_changes_nothing_witness :
  let r := initEffect (Some dupRig) mountRefs dupWorld in
  RestRelative.frameEffect (Some dupRig) (Some (mkResults (Some (take 17 scenarioPose))))
    true r dupWorld = Threw (bumpFrame r) dupWorld.
Proof.
  intros r.
  apply (short_frame_changes_nothing dupRig
           (Some (mkResults (Some (take 17 scenarioPose)))) true r dupWorld
           (collectArmBones (bones dupWorld) dupRig) (take 17 scenarioPose)
           eq_refl eq_refl eq_refl).
  rewrite length_take. unfold scenarioPose, MP_LANDMARKS.RIGHT_HIP.
  rewrite List.length_map, List.length_seq. lia.
Defined.

(** ** The rest-relative hook: the model transform *)

Lemma armsStep_transform (mirrored : bool) (ab : ArmBones) (pose : list Landmark.t)
    (ls rs : Landmark.t) (r : Refs) (w : World) :
  let w' := outWorld (RestRelative.armsStep mirrored ab pose ls rs r w) in
  position w' = position w /\ scale w' = scale w /\ rotation w' = rotation w.
Proof.
  unfold RestRelative.armsStep.
  destruct (if mirrored then pose !! MP_LANDMARKS.RIGHT_ELBOW
            else pose !! MP_LANDMARKS.LEFT_ELBOW) as [le |]; [| simpl; auto].
  open_applier.
  destruct (if mirrored then pose !! MP_LANDMARKS.RIGHT_WRIST
            else pose !! MP_LANDMARKS.LEFT_WRIST) as [lw |];
    [| simpl in *; intuition congruence].
  open_applier.
  destruct (if mirrored then pose !! MP_LANDMARKS.LEFT_ELBOW
            else pose !! MP_LANDMARKS.RIGHT_ELBOW) as [re |];
    [| simpl in *; intuition congruence].
  open_applier.
  destruct (if mirrored then pose !! MP_LANDMARKS.LEFT_WRIST
            else pose !! MP_LANDMARKS.RIGHT_WRIST) as [rw |];
    [| simpl in *; intuition congruence].
  open_applier. simpl in *. intuition congruence.
Qed.

(** After an update that finds hips and shoulders, the model of the
    rest-relative hook sits at depth 0, is scaled uniformly by 5.5 times the
    shoulder distance (never negative), and is turned about Y by at most
    0.6 PI either way; with shoulders at equal depth, or without depth
    values, it is not turned at all. *)
Theorem restRelative_transform (g : Group) (landmarks : option Results)
    (mirrored : bool) (r : Refs) (w : World) (ab : ArmBones)
    (pose : list Landmark.t) (lh rh ls rs : Landmark.t) :
  initializedRef r = true ->
  armBonesRef r = Some ab ->
  poseOf landmarks = Some pose ->
  pose !! MP_LANDMARKS.LEFT_HIP = Some lh ->
  pose !! MP_LANDMARKS.RIGHT_HIP = Some rh ->
  pose !! MP_LANDMARKS.LEFT_SHOULDER = Some ls ->
  pose !! MP_LANDMARKS.RIGHT_SHOULDER = Some rs ->
  let w' := outWorld (RestRelative.frameEffect (Some g) landmarks mirrored r w) in
  let width := sqrt ((Landmark.x ls - Landmark.x rs) ^ 2 +
                     (Landmark.y ls - Landmark.y rs) ^ 2) in
  Vector3.z (position w') = 0 /\
  scale w' = Vector3.mk (width * 5.5) (width * 5.5) (width * 5.5) /\
  0 <= width * 5.5 /\
  - (0.6 * PI) <= Euler.y (rotation w') <= 0.6 * PI /\
  (Landmark.zOr0 ls = Landmark.zOr0 rs -> Euler.y (rotation w') = 0).
Proof.
  intros Hinit Hab Hpose Hlh Hrh Hls Hrs w' width.
  unfold w', RestRelative.frameEffect.
  rewrite Hpose, Hinit, Hab, Hlh, Hrh, Hls, Hrs. cbn [negb].
  destruct (armsStep_transform mirrored ab pose ls rs (bumpFrame r)
              (RestRelative.placeModel mirrored ls rs lh rh w)) as (Hp & Hs & Hr).
  rewrite Hp, Hs, Hr. unfold RestRelative.placeModel.
  cbn [position scale rotation rotationSetY scaleSetScalar positionSet
       Vector3.z Euler.y].
  fold width.
  assert (Hw : 0 <= width) by apply sqrt_pos.
  pose proof PI_RGT_0 as Hpi.
  split; [reflexivity |]. split; [reflexivity |]. split; [lra |]. split.
  - pose proof (atan2_half_plane
                  ((Landmark.zOr0 ls - Landmark.zOr0 rs) * (if mirrored then -1 else 1))
                  width Hw) as Hb.
    lra.
  - intros Hz. rewrite Hz, Rminus_diag, Rmult_0_l.
    destruct (Req_dec width 0) as [-> | Hne].
    + unfold JsMath.atan2.
      destruct (Rlt_dec 0 0) as [H | _]; [lra |]. lra.
    + rewrite atan2_level by lra. lra.
Qed.

Lemma restRelative_transform_witness :
  let r := initEffect (Some dupRig) mountRefs dupWorld in
  let w' := outWorld (RestRelative.frameEffect (Some dupRig) scenarioFrame true r dupWorld) in
  Vector3.z (position w') = 0 /\
  - (0.6 * PI) <= Euler.y (rotation w') <= 0.6 * PI /\
  Euler.y (rotation w') = 0.
Proof.
  intros r w'.
  destruct (restRelative_transform dupRig scenarioFrame true r dupWorld
              (collectArmBones (bones dupWorld) dupRig) scenarioPose
              (scenarioLandmark 23) (scenarioLandmark 24)
              (scenarioLandmark 11) (scenarioLandmark 12)
              eq_refl eq_refl eq_refl eq_refl eq_refl eq_refl eq_refl)
    as (Hz & _ & _ & Hb & H0).
  repeat split; try assumption; try apply Hb. apply H0. reflexivity.
Defined.

(** ** The rest-relative hook: a whole frame *)

Lemma applyRotationToAll_spec (bs : list BoneId) (key : string)
    (x y z : R) (r : Refs) (w : World) :
  let c := RestRelative.applyRotationToAll bs key x y z r w in
  smoothRotations c.1 = smoothed RestRelative.SMOOTH bs key x y z (smoothRotations r) /\
  restRotationsRef c.1 = restRotationsRef r /\
  (forall i, bones c.2 !! i =
     wroteAll (restRotationsRef r)
       (smoothUpdate RestRelative.SMOOTH (smoothRotations r !! key) x y z) bs i
       (bones w !! i)).
Proof.
  intros c. split; [| split].
  - unfold c. rewrite applyRotationToAll_smooth. destruct bs; reflexivity.
  - apply applyRotationToAll_refs.
  - intros i. apply applyRotationToAll_bones.
Qed.

Lemma getRestZ_names (r r' : Refs) (w w' : World) (bs : list BoneId) :
  restRotationsRef r' = restRotationsRef r ->
  (forall i, Bone.name <$> bones w' !! i = Bone.name <$> bones w !! i) ->
  RestRelative.getRestZ r' w' bs = RestRelative.getRestZ r w bs.
Proof.
  intros Hrest Hn. unfold RestRelative.getRestZ.
  destruct bs as [| id bs]; [reflexivity |].
  specialize (Hn id). rewrite Hrest.
  destruct (bones w' !! id) as [b' |], (bones w !! id) as [b |];
    simpl in Hn; try discriminate; [| reflexivity].
  injection Hn as Hn. now rewrite Hn.
Qed.

Lemma wroteAll_name (rest : gmap string Euler.t) (s : Euler.t) (bs : list BoneId)
    (i : nat) (o : option Bone.t) :
  Bone.name <$> wroteAll rest s bs i o = Bone.name <$> o.
Proof.
  unfold wroteAll. destruct (decide (i ∈ bs)); [| reflexivity].
  now destruct o.
Qed.

Ltac open_all :=
  match goal with
  | |- context [RestRelative.applyRotationToAll ?bs ?k ?x ?y ?z ?r ?w] =>
    let Hs := fresh "Hsm" in
    let Hr := fresh "Hrest" in
    let Hb := fresh "Hbones" in
    let Hk := fresh "Hkeep" in
    pose proof (applyRotationToAll_refs bs k x y z r w) as Hk;
    pose proof (applyRotationToAll_spec bs k x y z r w) as (Hs & Hr & Hb);
    destruct (RestRelative.applyRotationToAll bs k x y z r w) as [? ?];
    simpl in Hs, Hr, Hb, Hk
  end.

(** The first rest-relative frame: from a state without smoothing entries
    for the arm keys, an update that finds all its landmarks runs to its end
    and stores, for every key with a non-empty binding, X = Y = 0 and the
    target Z: rest Z of the first bound bone plus the left arm angle, or
    minus the right arm angle, the forearms at 0.7 of theirs.  A bone bound
    under [lowerarm_r] ends at rest X, rest Y and that target Z. *)
Theorem restRelative_first_frame (g : Group) (landmarks : option Results)
    (mirrored : bool) (r : Refs) (w : World) (ab : ArmBones)
    (pose : list Landmark.t) (lh rh ls rs le re lw rw : Landmark.t) :
  initializedRef r = true ->
  armBonesRef r = Some ab ->
  poseOf landmarks = Some pose ->
  pose !! MP_LANDMARKS.LEFT_HIP = Some lh ->
  pose !! MP_LANDMARKS.RIGHT_HIP = Some rh ->
  pose !! MP_LANDMARKS.LEFT_SHOULDER = Some ls ->
  pose !! MP_LANDMARKS.RIGHT_SHOULDER = Some rs ->
  pose !! MP_LANDMARKS.LEFT_ELBOW = Some le ->
  pose !! MP_LANDMARKS.RIGHT_ELBOW = Some re ->
  pose !! MP_LANDMARKS.LEFT_WRIST = Some lw ->
  pose !! MP_LANDMARKS.RIGHT_WRIST = Some rw ->
  smoothRotations r !! "upperarm_l" = None ->
  smoothRotations r !! "upperarm_r" = None ->
  smoothRotations r !! "lowerarm_l" = None ->
  smoothRotations r !! "lowerarm_r" = None ->
  let lS := if mirrored then rs else ls in
  let lE := if mirrored then re else le in
  let lW := if mirrored then rw else lw in
  let rS := if mirrored then ls else rs in
  let rE := if mirrored then le else re in
  let rW := if mirrored then lw else rw in
  exists r' w',
    RestRelative.frameEffect (Some g) landmarks mirrored r w = Done r' w' /\
    (upperarm_l ab <> [] ->
     smoothRotations r' !! "upperarm_l"
       = Some (Euler.mk 0 0 (targetZ r w (upperarm_l ab) 1 1 lS lE))) /\
    (lowerarm_l ab <> [] ->
     smoothRotations r' !! "lowerarm_l"
       = Some (Euler.mk 0 0 (targetZ r w (lowerarm_l ab) 1 0.7 lE lW))) /\
    (upperarm_r ab <> [] ->
     smoothRotations r' !! "upperarm_r"
       = Some (Euler.mk 0 0 (targetZ r w (upperarm_r ab) (-1) 1 rS rE))) /\
    (lowerarm_r ab <> [] ->
     smoothRotations r' !! "lowerarm_r"
       = Some (Euler.mk 0 0 (targetZ r w (lowerarm_r ab) (-1) 0.7 rE rW))) /\
    (forall i b, i ∈ lowerarm_r ab -> bones w !! i = Some b ->
       bones w' !! i =
         Some (RestRelative.posed (restRotationsRef r)
                 (Euler.mk 0 0 (targetZ r w (lowerarm_r ab) (-1) 0.7 rE rW)) b)).
Proof.
  intros Hinit Hab Hpose Hlh Hrh Hls Hrs Hle Hre Hlw Hrw Hul Hur Hll Hlr
         lS lE lW rS rE rW.
  unfold RestRelative.frameEffect.
  rewrite Hpose, Hinit, Hab, Hlh, Hrh, Hls, Hrs. cbn [negb].
  unfold RestRelative.armsStep.
  replace (if mirrored then pose !! MP_LANDMARKS.RIGHT_ELBOW
           else pose !! MP_LANDMARKS.LEFT_ELBOW) with (Some lE)
    by (unfold lE; destruct mirrored; congruence).
  replace (if mirrored then pose !! MP_LANDMARKS.RIGHT_WRIST
           else pose !! MP_LANDMARKS.LEFT_WRIST) with (Some lW)
    by (unfold lW; destruct mirrored; congruence).
  replace (if mirrored then pose !! MP_LANDMARKS.LEFT_ELBOW
           else pose !! MP_LANDMARKS.RIGHT_ELBOW) with (Some rE)
    by (unfold rE; destruct mirrored; congruence).
  replace (if mirrored then pose !! MP_LANDMARKS.LEFT_WRIST
           else pose !! MP_LANDMARKS.RIGHT_WRIST) with (Some rW)
    by (unfold rW; destruct mirrored; congruence).
  fold lS rS.
  set (r0 := bumpFrame r). set (w0 := RestRelative.placeModel mirrored ls rs lh rh w).
  assert (Hz0 : forall bs, RestRelative.getRestZ r0 w0 bs = RestRelative.getRestZ r w bs)
    by (intros bs; apply getRestZ_names; reflexivity).
  rewrite Hz0.
  open_all.
  assert (Hn1 : forall i, Bone.name <$> bones w1 !! i = Bone.name <$> bones w !! i)
    by (intros i; rewrite Hbones; apply wroteAll_name).
  rewrite (getRestZ_names r r1 w w1) by assumption.
  open_all.
  assert (Hn2 : forall i, Bone.name <$> bones w2 !! i = Bone.name <$> bones w !! i)
    by (intros i; rewrite Hbones0, wroteAll_name; apply Hn1).
  rewrite (getRestZ_names r r2 w w2) by congruence.
  open_all.
  assert (Hn3 : forall i, Bone.name <$> bones w3 !! i = Bone.name <$> bones w !! i)
    by (intros i; rewrite Hbones1, wroteAll_name; apply Hn2).
  rewrite (getRestZ_names r r3 w w3) by congruence.
  open_all.
  eexists _, _. split; [reflexivity |].
  repeat match goal with
         | H : smoothRotations _ = _ |- _ => rewrite H in *; clear H
         end.
  repeat match goal with
         | H : restRotationsRef _ = _ |- _ => rewrite H in *; clear H
         end.
  simpl smoothRotations in *. simpl restRotationsRef in *.
  assert (Hz : forall bs sign factor from to,
            RestRelative.getRestZ r w bs
            + sign * ((RestRelative.calcVerticalAngle from to - (- PI / 2)) * factor)
            = targetZ r w bs sign factor from to) by reflexivity.
  split; [| split; [| split; [| split]]].
  - intros Hbs. rewrite !smoothed_lookup_ne by discriminate.
    rewrite smoothed_lookup_eq by exact Hbs. rewrite Hul. simpl. do 2 f_equal.
    unfold targetZ. ring.
  - intros Hbs. rewrite !smoothed_lookup_ne by discriminate.
    rewrite smoothed_lookup_eq by exact Hbs.
    rewrite !smoothed_lookup_ne by discriminate. rewrite Hll. simpl. do 2 f_equal.
    unfold targetZ. ring.
  - intros Hbs. rewrite !smoothed_lookup_ne by discriminate.
    rewrite smoothed_lookup_eq by exact Hbs.
    rewrite !smoothed_lookup_ne by discriminate. rewrite Hur. simpl. do 2 f_equal.
    unfold targetZ. ring.
  - intros Hbs. rewrite smoothed_lookup_eq by exact Hbs.
    rewrite !smoothed_lookup_ne by discriminate. rewrite Hlr. simpl. do 2 f_equal.
    unfold targetZ. ring.
  - intros i b Hin Hb. rewrite Hbones2. unfold wroteAll at 1.
    rewrite decide_True by exact Hin.
    rewrite !smoothed_lookup_ne by discriminate. rewrite Hlr. simpl smoothUpdate.
    assert (Hnb : Bone.name <$> bones w3 !! i = Some (Bone.name b))
      by (rewrite Hn3, Hb; reflexivity).
    destruct (bones w3 !! i) as [b3 |]; simpl in Hnb; [| discriminate].
    injection Hnb as Hnb. simpl. f_equal. unfold RestRelative.posed.
    rewrite Hnb. simpl. do 2 f_equal. unfold targetZ. ring.
Qed.

Lemma restRelative_first_frame_witness :
  let r := initEffect (Some dupRig) mountRefs dupWorld in
  exists r' w',
    RestRelative.frameEffect (Some dupRig) scenarioFrame false r dupWorld = Done r' w'.
Proof.
  destruct (restRelative_first_frame dupRig scenarioFrame false
              (initEffect (Some dupRig) mountRefs dupWorld) dupWorld
              (collectArmBones (bones dupWorld) dupRig) scenarioPose
              (scenarioLandmark 23) (scenarioLandmark 24)
              (scenarioLandmark 11) (scenarioLandmark 12)
              (scenarioLandmark 13) (scenarioLandmark 14)
              (scenarioLandmark 15) (scenarioLandmark 16)
              eq_refl eq_refl eq_refl eq_refl eq_refl eq_refl eq_refl
              eq_refl eq_refl eq_refl eq_refl
              eq_refl eq_refl eq_refl eq_refl)
    as (r' & w' & Hrun & _).
  exists r', w'. exact Hrun.
Defined.

(** ** Looking bones up by name *)

Lemma lowerChar_idem (c : ascii) : Str.lowerChar (Str.lowerChar c) = Str.lowerChar c.
Proof. destruct c as [[] [] [] [] [] [] [] []]; vm_compute; reflexivity. Qed.

Lemma toLowerCase_idem (s : string) :
  Str.toLowerCase (Str.toLowerCase s) = Str.toLowerCase s.
Proof.
  induction s as [| c s IH]; [reflexivity |]. simpl. now rewrite lowerChar_idem, IH.
Qed.

Lemma patterns_lower_case (key : PoseRetargeting.BoneKey) (p : string) :
  In p (PoseRetargeting.BONE_NAME_PATTERNS key) -> Str.toLowerCase p = p.
Proof.
  destruct key; simpl; intros H;
    repeat (destruct H as [<- | H]; [vm_compute; reflexivity |]); destruct H.
Qed.

Lemma patterns_unmarked (key : PoseRetargeting.BoneKey) (p : string) :
  In p (PoseRetargeting.BONE_NAME_PATTERNS key) ->
  Forall (fun m => Str.includes p m = false) patternPassMarkers.
Proof.
  destruct key; simpl; intros H;
    repeat (destruct H as [<- | H];
            [repeat constructor; vm_compute; reflexivity |]); destruct H.
Qed.

Lemma firstFound_none (test : string -> nat -> bool) (skeleton : list nat)
    (patterns : list string) :
  PoseRetargeting.firstFound test skeleton patterns = None <->
  forall p id, In p patterns -> In id skeleton -> test p id = false.
Proof.
  induction patterns as [| p ps IH]; simpl.
  - split; [intros _ p id [] | reflexivity].
  - destruct (find (test p) skeleton) as [x |] eqn:Hf.
    + split; [discriminate |]. intros H. apply find_some in Hf as [Hin Ht].
      rewrite (H p x (or_introl eq_refl) Hin) in Ht. discriminate.
    + rewrite IH. split.
      * intros H q id [<- | Hq] Hin; [| now apply H].
        apply (find_none _ _ Hf id Hin).
      * intros H q id Hq Hin. apply H; [now right | exact Hin].
Qed.

(** Whatever the key, [findBoneByPattern] returns a bone of the skeleton
    whose lower-cased name holds a pattern of the key and none of twist,
    corrective, _in_, _out_, _fwd, _bck: the exact pass checks no marker,
    but no pattern of the table holds one. *)
Theorem findBoneByPattern_never_marked (store : gmap nat Bone.t) (skeleton : list BoneId)
    (key : PoseRetargeting.BoneKey) (id : BoneId) :
  PoseRetargeting.findBoneByPattern store skeleton key = Some id ->
  id ∈ skeleton /\
  exists p, In p (PoseRetargeting.BONE_NAME_PATTERNS key) /\
            namedLike store p patternPassMarkers id.
Proof.
  unfold PoseRetargeting.findBoneByPattern.
  destruct (PoseRetargeting.firstFound (PoseRetargeting.exactMatch store) skeleton
              (PoseRetargeting.BONE_NAME_PATTERNS key)) as [x |] eqn:He.
  - intros [= ->]. apply firstFound_some in He as (p & Hp & Hin & Hm).
    split; [now apply list_elem_of_In |]. exists p. split; [exact Hp |].
    apply exactMatch_name in Hm. unfold PoseRetargeting.lowerName in Hm.
    destruct (store !! id) as [b |] eqn:Hb; [| discriminate].
    injection Hm as Hm. rewrite (patterns_lower_case key p Hp) in Hm.
    exists b. split; [exact Hb |]. rewrite Hm. split.
    + exists ""%string, ""%string. clear.
      induction p as [| c p IH]; [reflexivity |].
      change (String c p = String c (""%string +:+ p +:+ ""%string)). now f_equal.
    + pose proof (patterns_unmarked key p Hp) as Hu.
      eapply Forall_impl; [exact Hu |]. intros m Hm'. now apply includes_false_spec.
  - intros Hi. apply firstFound_some in Hi as (p & Hp & Hin & Hm).
    split; [now apply list_elem_of_In |]. exists p. split; [exact Hp |].
    apply includesMatch_markers in Hm as (n & Hn & Hinc & Hex).
    unfold PoseRetargeting.lowerName in Hn.
    destruct (store !! id) as [b |] eqn:Hb; [| discriminate].
    injection Hn as <-. rewrite (patterns_lower_case key p Hp) in Hinc.
    exists b. split; [exact Hb |]. split.
    + now apply includes_spec.
    + eapply Forall_impl; [exact Hex |]. intros m Hm'. now apply includes_false_spec.
Qed.

Lemma findBoneByPattern_never_marked_witness :
  exists p, In p (PoseRetargeting.BONE_NAME_PATTERNS PoseRetargeting.leftUpperArm) /\
            namedLike twistStore p patternPassMarkers 0%nat.
Proof.
  apply (findBoneByPattern_never_marked twistStore [0%nat; 1%nat]
           PoseRetargeting.leftUpperArm 0%nat eq_refl).
Defined.

(** The exact pass comes first and runs pattern by pattern: a bone whose
    lower-cased name equals a pattern wins over every bone that only
    includes one, wherever it stands in the skeleton, and the result is
    nothing exactly when no bone of the skeleton passes either test for any
    pattern of the key. *)
Theorem findBoneByPattern_exact_first (store : gmap nat Bone.t) (skeleton : list BoneId)
    (key : PoseRetargeting.BoneKey) :
  let patterns := PoseRetargeting.BONE_NAME_PATTERNS key in
  ((exists p id b, In p patterns /\ In id skeleton /\ store !! id = Some b /\
                   Str.toLowerCase (Bone.name b) = p) ->
   exists p id b, PoseRetargeting.findBoneByPattern store skeleton key = Some id /\
                  In p patterns /\ store !! id = Some b /\
                  Str.toLowerCase (Bone.name b) = p) /\
  (PoseRetargeting.findBoneByPattern store skeleton key = None <->
   forall p id, In p patterns -> In id skeleton ->
     PoseRetargeting.exactMatch store p id = false /\
     PoseRetargeting.includesMatch store p id = false).
Proof.
  intros patterns. unfold PoseRetargeting.findBoneByPattern. fold patterns. split.
  - intros (p & id & b & Hp & Hin & Hb & Hn).
    destruct (PoseRetargeting.firstFound (PoseRetargeting.exactMatch store) skeleton
                patterns) as [x |] eqn:He.
    + apply firstFound_some in He as (q & Hq & Hinx & Hm).
      apply exactMatch_name in Hm. unfold PoseRetargeting.lowerName in Hm.
      destruct (store !! x) as [bx |] eqn:Hbx; [| discriminate].
      injection Hm as Hm. rewrite (patterns_lower_case key q Hq) in Hm.
      exists q, x, bx. auto.
    + exfalso. rewrite firstFound_none in He. specialize (He p id Hp Hin).
      unfold PoseRetargeting.exactMatch, PoseRetargeting.lowerName in He.
      rewrite Hb, Hn, (patterns_lower_case key p Hp) in He.
      unfold Str.eqb in He. rewrite String.eqb_refl in He. discriminate.
  - destruct (PoseRetargeting.firstFound (PoseRetargeting.exactMatch store) skeleton
                patterns) as [x |] eqn:He.
    + split; [discriminate |]. intros H.
      apply firstFound_some in He as (q & Hq & Hinx & Hm).
      destruct (H q x Hq Hinx) as [Hx _]. congruence.
    + rewrite firstFound_none in He. rewrite firstFound_none. split.
      * intros H p id Hp Hin. split; [now apply He | now apply H].
      * intros H p id Hp Hin. now apply H.
Qed.

(** [findBone] compares names without regard to case: it returns the first
    bone of [skeleton.bones] whose name lower-cases to the lower-cased
    [name], the same bone for [name] in any casing, and nothing exactly when
    no bone of the skeleton has such a name. *)
Theorem findBone_first_match (store : gmap nat Bone.t) (skeleton : list BoneId)
    (name : string) :
  BoneMapping.findBone store skeleton (Str.toLowerCase name)
    = BoneMapping.findBone store skeleton name /\
  (forall id, BoneMapping.findBone store skeleton name = Some id ->
     exists before after b,
       skeleton = before ++ id :: after /\
       store !! id = Some b /\
       Str.toLowerCase (Bone.name b) = Str.toLowerCase name /\
       forall j bj, j ∈ before -> store !! j = Some bj ->
         Str.toLowerCase (Bone.name bj) <> Str.toLowerCase name) /\
  (BoneMapping.findBone store skeleton name = None <->
   forall j bj, j ∈ skeleton -> store !! j = Some bj ->
     Str.toLowerCase (Bone.name bj) <> Str.toLowerCase name).
Proof.
  unfold BoneMapping.findBone. split; [| split].
  - now rewrite toLowerCase_idem.
  - induction skeleton as [| x xs IH]; simpl; [discriminate |].
    intros id. destruct (store !! x) as [bx |] eqn:Hbx.
    + destruct (Str.eqb (Str.toLowerCase (Bone.name bx)) (Str.toLowerCase name)) eqn:He.
      * intros [= ->]. exists [], xs, bx. split; [reflexivity |].
        split; [exact Hbx |]. split; [now apply String.eqb_eq |].
        intros j bj Hj. inversion Hj.
      * intros H. destruct (IH id H) as (before & after & b & -> & Hb & Hn & Hprev).
        exists (x :: before), after, b. split; [reflexivity |].
        split; [exact Hb |]. split; [exact Hn |].
        intros j bj Hj Hbj. apply elem_of_cons in Hj as [-> | Hj]; [| eauto].
        rewrite Hbx in Hbj. injection Hbj as <-. now apply String.eqb_neq.
    + intros H. destruct (IH id H) as (before & after & b & -> & Hb & Hn & Hprev).
      exists (x :: before), after, b. split; [reflexivity |].
      split; [exact Hb |]. split; [exact Hn |].
      intros j bj Hj Hbj. apply elem_of_cons in Hj as [-> | Hj]; [| eauto].
      congruence.
  - induction skeleton as [| x xs IH]; simpl.
    + split; [| reflexivity]. intros _ j bj Hj. inversion Hj.
    + destruct (store !! x) as [bx |] eqn:Hbx.
      * destruct (Str.eqb (Str.toLowerCase (Bone.name bx)) (Str.toLowerCase name)) eqn:He.
        -- split; [discriminate |]. intros H. exfalso.
           apply (H x bx); [left | exact Hbx | now apply String.eqb_eq].
        -- rewrite IH. split.
           ++ intros H j bj Hj Hbj. apply elem_of_cons in Hj as [-> | Hj]; [| eauto].
              rewrite Hbx in Hbj. injection Hbj as <-. now apply String.eqb_neq.
           ++ intros H j bj Hj. apply H. now right.
      * rewrite IH. split.
        -- intros H j bj Hj Hbj. apply elem_of_cons in Hj as [-> | Hj]; [| eauto].
           congruence.
        -- intros H j bj Hj. apply H. now right.
Qed.

(** ** Shoulder measures and landmark geometry *)

Lemma atan2_bound (y x : R) : - PI < JsMath.atan2 y x <= PI.
Proof.
  pose proof PI_RGT_0 as Hpi. pose proof (atan_bound (y / x)) as Hb.
  unfold JsMath.atan2.
  destruct (Rlt_dec 0 x) as [Hx | Hx]; [lra |].
  destruct (Rlt_dec x 0) as [Hx' | Hx'].
  - pose proof (Rinv_lt_0_compat _ Hx') as Hinv.
    destruct (Rle_dec 0 y) as [Hy | Hy].
    + destruct (Req_dec y 0) as [-> | Hne].
      * unfold Rdiv. rewrite Rmult_0_l, atan_0. lra.
      * assert (Hq : y / x < 0) by (unfold Rdiv; nra).
        pose proof (atan_increasing _ _ Hq) as Hinc. rewrite atan_0 in Hinc. lra.
    + assert (Hq : 0 < y / x) by (unfold Rdiv; nra).
      pose proof (atan_increasing _ _ Hq) as Hinc. rewrite atan_0 in Hinc. lra.
  - destruct (Rlt_dec 0 y); [lra |]. destruct (Rlt_dec y 0); lra.
Qed.

Lemma atan2_odd (y x : R) : 0 <= x -> JsMath.atan2 (- y) x = - JsMath.atan2 y x.
Proof.
  intros Hx. unfold JsMath.atan2.
  destruct (Rlt_dec 0 x) as [Hpos | Hnpos].
  - replace (- y / x) with (- (y / x)) by (field; lra). apply atan_opp.
  - destruct (Rlt_dec x 0) as [Hneg | _]; [lra |].
    destruct (Rlt_dec 0 (- y)), (Rlt_dec 0 y), (Rlt_dec (- y) 0), (Rlt_dec y 0); lra.
Qed.

Lemma sqrt_sum_squares_zero (a b : R) : sqrt (a * a + b * b) = 0 <-> a = 0 /\ b = 0.
Proof.
  split.
  - intros H. apply sqrt_eq_0 in H; [| nra]. split; nra.
  - intros [-> ->]. replace (0 * 0 + 0 * 0) with 0 by ring. apply sqrt_0.
Qed.

(** A pose with its two shoulders swapped. *)
Lemma swapped_shoulders (pose : list Landmark.t) (ls rs : Landmark.t) :
  pose !! BoneMapping.LANDMARKS.LEFT_SHOULDER = Some ls ->
  pose !! BoneMapping.LANDMARKS.RIGHT_SHOULDER = Some rs ->
  let pose' := <[BoneMapping.LANDMARKS.LEFT_SHOULDER := rs]>
                 (<[BoneMapping.LANDMARKS.RIGHT_SHOULDER := ls]> pose) in
  pose' !! BoneMapping.LANDMARKS.LEFT_SHOULDER = Some rs /\
  pose' !! BoneMapping.LANDMARKS.RIGHT_SHOULDER = Some ls.
Proof.
  intros Hls Hrs pose'. unfold pose'.
  assert (Hl : (BoneMapping.LANDMARKS.LEFT_SHOULDER < length pose)%nat)
    by (apply lookup_lt_is_Some; eauto).
  assert (Hr : (BoneMapping.LANDMARKS.RIGHT_SHOULDER < length pose)%nat)
    by (apply lookup_lt_is_Some; eauto).
  split.
  - apply list_lookup_insert_eq. now rewrite length_insert.
  - rewrite list_lookup_insert_ne by discriminate.
    now apply list_lookup_insert_eq.
Qed.

(** The shoulder measures of [utils/boneMapping]: with both shoulders in
    the pose the width is not negative and is zero exactly when the
    shoulders coincide on screen, the tilt lies in (-PI, PI], the body turn
    within three quarters of PI and is zero for shoulders of equal depth and
    positive width; swapping the two shoulders keeps the width and negates
    the turn.  Without one of the shoulders each measure throws. *)
Theorem shoulder_measures (pose : list Landmark.t) (ls rs : Landmark.t) :
  pose !! BoneMapping.LANDMARKS.LEFT_SHOULDER = Some ls ->
  pose !! BoneMapping.LANDMARKS.RIGHT_SHOULDER = Some rs ->
  let pose' := <[BoneMapping.LANDMARKS.LEFT_SHOULDER := rs]>
                 (<[BoneMapping.LANDMARKS.RIGHT_SHOULDER := ls]> pose) in
  exists width tilt turn,
    BoneMapping.normalizedShoulderWidth pose = Some width /\
    BoneMapping.shoulderTiltAngle pose = Some tilt /\
    BoneMapping.bodyTurnAngle pose = Some turn /\
    0 <= width /\
    (width = 0 <-> Landmark.x ls = Landmark.x rs /\ Landmark.y ls = Landmark.y rs) /\
    - PI < tilt <= PI /\
    - (0.75 * PI) <= turn <= 0.75 * PI /\
    (Landmark.zOr0 ls = Landmark.zOr0 rs -> turn = 0) /\
    BoneMapping.normalizedShoulderWidth pose' = Some width /\
    BoneMapping.bodyTurnAngle pose' = Some (- turn).
Proof.
  intros Hls Hrs pose'.
  destruct (swapped_shoulders pose ls rs Hls Hrs) as [Hls' Hrs']. fold pose' in Hls', Hrs'.
  unfold BoneMapping.bodyTurnAngle, BoneMapping.normalizedShoulderWidth,
    BoneMapping.shoulderTiltAngle.
  rewrite Hls, Hrs, Hls', Hrs'.
  set (dx := Landmark.x ls - Landmark.x rs). set (dy := Landmark.y ls - Landmark.y rs).
  set (width := sqrt (dx * dx + dy * dy)).
  assert (Hw : 0 <= width) by apply sqrt_pos.
  eexists _, _, _. split; [reflexivity |]. split; [reflexivity |].
  split; [reflexivity |].
  pose proof PI_RGT_0 as Hpi.
  split; [exact Hw |]. split; [| split; [| split; [| split; [| split]]]].
  - unfold width. rewrite sqrt_sum_squares_zero. unfold dx, dy. split; intros [? ?]; lra.
  - apply atan2_bound.
  - pose proof (atan2_half_plane (Landmark.zOr0 ls - Landmark.zOr0 rs) width Hw). lra.
  - intros Hz. rewrite Hz, Rminus_diag.
    destruct (Req_dec width 0) as [H0 | Hne].
    + rewrite H0. unfold JsMath.atan2.
      destruct (Rlt_dec 0 0); [lra |]. lra.
    + rewrite atan2_level by lra. lra.
  - do 2 f_equal. unfold dx, dy. ring.
  - f_equal.
    replace (sqrt ((Landmark.x rs - Landmark.x ls) * (Landmark.x rs - Landmark.x ls) +
                   (Landmark.y rs - Landmark.y ls) * (Landmark.y rs - Landmark.y ls)))
      with width by (unfold width, dx, dy; f_equal; ring).
    replace (Landmark.zOr0 rs - Landmark.zOr0 ls)
      with (- (Landmark.zOr0 ls - Landmark.zOr0 rs)) by ring.
    rewrite atan2_odd by exact Hw. ring.
Qed.

Lemma shoulder_measures_witness :
  exists width tilt turn,
    BoneMapping.normalizedShoulderWidth scenarioPose = Some width /\
    BoneMapping.shoulderTiltAngle scenarioPose = Some tilt /\
    BoneMapping.bodyTurnAngle scenarioPose = Some turn /\
    0 <= width /\ - PI < tilt <= PI /\ - (0.75 * PI) <= turn <= 0.75 * PI.
Proof.
  destruct (shoulder_measures scenarioPose (scenarioLandmark 11) (scenarioLandmark 12)
              eq_refl eq_refl)
    as (width & tilt & turn & Hw & Ht & Hy & Hpos & _ & Htilt & Hturn & _).
  exists width, tilt, turn. repeat split; try assumption; lra.
Defined.

(** Without one of the two shoulders each measure throws. *)
Lemma shoulder_measures_throw (pose : list Landmark.t) :
  pose !! BoneMapping.LANDMARKS.LEFT_SHOULDER = None \/
  pose !! BoneMapping.LANDMARKS.RIGHT_SHOULDER = None ->
  BoneMapping.normalizedShoulderWidth pose = None /\
  BoneMapping.shoulderTiltAngle pose = None /\
  BoneMapping.bodyTurnAngle pose = None.
Proof.
  unfold BoneMapping.bodyTurnAngle, BoneMapping.normalizedShoulderWidth,
    BoneMapping.shoulderTiltAngle.
  intros [H | H]; rewrite H;
    destruct (pose !! BoneMapping.LANDMARKS.LEFT_SHOULDER); auto.
Qed.

Lemma squares_zero (a b c : R) : a * a + b * b + c * c = 0 -> a = 0 /\ b = 0 /\ c = 0.
Proof.
  intros H.
  pose proof (Rle_0_sqr a) as Ha. pose proof (Rle_0_sqr b) as Hb.
  pose proof (Rle_0_sqr c) as Hc. unfold Rsqr in *.
  assert (Ha0 : a * a = 0) by lra. assert (Hb0 : b * b = 0) by lra.
  assert (Hc0 : c * c = 0) by lra.
  apply Rmult_integral in Ha0, Hb0, Hc0. repeat split; tauto.
Qed.

Lemma sub_lengthSq_zero (a b : Vector3.t) :
  Vector3.lengthSq (Vector3.sub a b) = 0 <-> a = b.
Proof.
  unfold Vector3.lengthSq, Vector3.sub. simpl. split.
  - intros H. destruct a as [ax ay az], b as [bx by_ bz]. simpl in H.
    apply squares_zero in H as (Hx & Hy & Hz). f_equal; lra.
  - intros ->. ring.
Qed.

(** [landmarkDirection] gives a unit vector from one landmark towards the
    other, the opposite vector with the landmarks exchanged, and the zero
    vector exactly when the two landmarks agree in [x], [y] and [z || 0]. *)
Theorem landmarkDirection_unit_or_zero (from to : Landmark.t) :
  let same := Landmark.x from = Landmark.x to /\ Landmark.y from = Landmark.y to /\
              Landmark.zOr0 from = Landmark.zOr0 to in
  (same -> BoneMapping.landmarkDirection from to = Vector3.mk 0 0 0) /\
  (~ same -> Vector3.lengthSq (BoneMapping.landmarkDirection from to) = 1) /\
  BoneMapping.landmarkDirection to from
    = Vector3.multiplyScalar (BoneMapping.landmarkDirection from to) (-1).
Proof.
  intros same. unfold BoneMapping.landmarkDirection.
  set (d := Vector3.sub (BoneMapping.landmarkTo3D to) (BoneMapping.landmarkTo3D from)).
  assert (Hd : Vector3.lengthSq d = 0 <-> same).
  { unfold d. rewrite sub_lengthSq_zero. unfold BoneMapping.landmarkTo3D, same. split.
    - intros H. injection H as Hx Hy Hz. repeat split; lra.
    - intros (Hx & Hy & Hz). rewrite Hx, Hy, Hz. reflexivity. }
  split; [| split].
  - intros Hs. apply Hd in Hs.
    assert (Hz : d = Vector3.mk 0 0 0).
    { unfold Vector3.lengthSq in Hs. destruct d as [dx dy dz]. simpl in Hs.
      apply squares_zero in Hs as (Hx & Hy & Hz). now f_equal. }
    rewrite Hz. apply normalize_zero.
  - intros Hn. apply normalize_unit.
    pose proof (lengthSq_nonneg d) as Hpos.
    destruct (Req_dec (Vector3.lengthSq d) 0) as [H0 | Hne]; [| lra].
    exfalso. apply Hn, Hd, H0.
  - replace (Vector3.sub (BoneMapping.landmarkTo3D from) (BoneMapping.landmarkTo3D to))
      with (Vector3.multiplyScalar d (-1))
      by (unfold d, Vector3.sub, Vector3.multiplyScalar; simpl; f_equal; ring).
    unfold Vector3.normalize.
    replace (Vector3.length (Vector3.multiplyScalar d (-1))) with (Vector3.length d).
    + unfold Vector3.divideScalar, Vector3.multiplyScalar. simpl. f_equal; ring.
    + unfold Vector3.length. f_equal.
      unfold Vector3.lengthSq, Vector3.multiplyScalar. simpl. ring.
Qed.

(** ** The direction helpers: what the returned rotation does *)

Lemma dot_cross_self_l (a b : Vector3.t) : Vector3.dot (Vector3.crossVectors a b) a = 0.
Proof. unfold Vector3.dot, Vector3.crossVectors. simpl. ring. Qed.

Lemma dot_cross_self_r (a b : Vector3.t) : Vector3.dot (Vector3.crossVectors b a) a = 0.
Proof. unfold Vector3.dot, Vector3.crossVectors. simpl. ring. Qed.

Lemma dot_normalize_l (a v : Vector3.t) :
  Vector3.dot a v = 0 -> Vector3.dot (Vector3.normalize a) v = 0.
Proof.
  intros H. unfold Vector3.normalize, Vector3.divideScalar, Vector3.multiplyScalar,
    Vector3.dot in *. simpl.
  set (k := 1 / JsMath.orElse (Vector3.length a) 1).
  replace (Vector3.x a * k * Vector3.x v + Vector3.y a * k * Vector3.y v
           + Vector3.z a * k * Vector3.z v)
    with (k * (Vector3.x a * Vector3.x v + Vector3.y a * Vector3.y v
               + Vector3.z a * Vector3.z v)) by ring.
  rewrite H. ring.
Qed.

(** A turn by [angle] about a unit axis perpendicular to [v] takes [v] to
    [v cos angle + (axis x v) sin angle]. *)
Lemma rotate_perpendicular (axis v : Vector3.t) (angle : R) :
  Vector3.lengthSq axis = 1 -> Vector3.dot axis v = 0 ->
  applyQuaternion v (Quaternion.setFromAxisAngle axis angle) =
  Vector3.add (Vector3.multiplyScalar v (cos angle))
              (Vector3.multiplyScalar (Vector3.crossVectors axis v) (sin angle)).
Proof.
  intros Haa Hav.
  replace angle with (2 * (angle / 2)) at 2 3 by field.
  rewrite cos_2a_sin, sin_2a.
  unfold applyQuaternion, Quaternion.setFromAxisAngle, Vector3.add,
    Vector3.multiplyScalar, Vector3.crossVectors. simpl.
  set (s := sin (angle / 2)). set (c := cos (angle / 2)).
  unfold Vector3.lengthSq in Haa. unfold Vector3.dot in Hav.
  destruct axis as [ax ay az], v as [vx vy vz]. simpl in *.
  f_equal; apply Rminus_diag_uniq.
  - transitivity (2 * s * s * (ax * (ax * vx + ay * vy + az * vz)
                               - vx * (ax * ax + ay * ay + az * az - 1))); [ring |].
    rewrite Hav, Haa. ring.
  - transitivity (2 * s * s * (ay * (ax * vx + ay * vy + az * vz)
                               - vy * (ax * ax + ay * ay + az * az - 1))); [ring |].
    rewrite Hav, Haa. ring.
  - transitivity (2 * s * s * (az * (ax * vx + ay * vy + az * vz)
                               - vz * (ax * ax + ay * ay + az * az - 1))); [ring |].
    rewrite Hav, Haa. ring.
Qed.

Lemma applyQuaternion_identity (v : Vector3.t) : applyQuaternion v Quaternion.identity = v.
Proof.
  unfold applyQuaternion, Quaternion.identity, Vector3.add, Vector3.multiplyScalar,
    Vector3.crossVectors. destruct v as [vx vy vz]. simpl. f_equal; ring.
Qed.

(** Half a turn about a unit axis perpendicular to [v] reverses [v]. *)
Lemma half_turn_reverses (axis v : Vector3.t) :
  Vector3.lengthSq axis = 1 -> Vector3.dot axis v = 0 ->
  applyQuaternion v (Quaternion.setFromAxisAngle axis PI) = Vector3.multiplyScalar v (-1).
Proof.
  intros Haa Hav. rewrite rotate_perpendicular by assumption.
  rewrite cos_PI, sin_PI. unfold Vector3.add, Vector3.multiplyScalar. simpl.
  f_equal; ring.
Qed.

(** The turn by [acos (f . t)] about the normalised [f x t] takes the unit
    vector [f] onto the unit vector [t]. *)
Lemma general_turn (f t : Vector3.t) :
  Vector3.lengthSq f = 1 -> Vector3.lengthSq t = 1 ->
  ~ 0.9999 < Vector3.dot f t -> ~ Vector3.dot f t < -0.9999 ->
  applyQuaternion f
    (Quaternion.setFromAxisAngle (Vector3.normalize (Vector3.crossVectors f t))
       (acos (JsMath.max (-1) (JsMath.min 1 (Vector3.dot f t))))) = t.
Proof.
  intros Hf Ht H1 H2.
  set (d := Vector3.dot f t) in *.
  pose proof (cross_axis_general f t Hf Ht H1 H2) as Hc.
  rewrite clamp_inside by lra.
  rewrite rotate_perpendicular;
    [| now apply normalize_unit | apply dot_normalize_l, dot_cross_self_l].
  rewrite cos_acos by lra. rewrite sin_acos by lra.
  assert (HL : Vector3.length (Vector3.crossVectors f t) = sqrt (1 - d²)).
  { unfold Vector3.length. f_equal. rewrite cross_lengthSq, Hf, Ht.
    unfold Rsqr, d. ring. }
  assert (HLpos : 0 < sqrt (1 - d²)).
  { rewrite <- HL. apply sqrt_lt_R0. exact Hc. }
  unfold Vector3.normalize, JsMath.orElse.
  destruct (Req_dec_T (Vector3.length (Vector3.crossVectors f t)) 0) as [H0 | _];
    [rewrite HL in H0; lra |].
  rewrite HL. set (L := sqrt (1 - d²)) in *.
  unfold Vector3.divideScalar, Vector3.multiplyScalar, Vector3.add,
    Vector3.crossVectors. simpl.
  unfold Vector3.lengthSq in Hf. unfold d, Vector3.dot in *.
  destruct f as [fx fy fz], t as [tx ty tz]. simpl in *.
  f_equal.
  - transitivity (tx * (fx * fx + fy * fy + fz * fz)); [field; lra | rewrite Hf; ring].
  - transitivity (ty * (fx * fx + fy * fy + fz * fz)); [field; lra | rewrite Hf; ring].
  - transitivity (tz * (fx * fx + fy * fy + fz * fz)); [field; lra | rewrite Hf; ring].
Qed.

(** Both direction helpers, on directions of positive length: outside the
    two tolerance bands the returned quaternion takes the normalised [from]
    onto the normalised [to]; for directions closer than the band
    ([dot > 0.9999]) it leaves [from] where it is, and for directions nearly
    opposite ([dot < -0.9999]) it reverses [from] exactly. *)
Theorem direction_helpers_turn_from_onto_to (from to : Vector3.t) (q : Quaternion.t) :
  0 < Vector3.lengthSq from -> 0 < Vector3.lengthSq to ->
  q = BoneMapping.quaternionFromDirections from to \/
  q = PoseRetargeting.getRotationBetweenVectors from to ->
  let f := Vector3.normalize from in
  let t := Vector3.normalize to in
  (-0.9999 <= Vector3.dot f t <= 0.9999 -> applyQuaternion f q = t) /\
  (0.9999 < Vector3.dot f t -> applyQuaternion f q = f) /\
  (Vector3.dot f t < -0.9999 -> applyQuaternion f q = Vector3.multiplyScalar f (-1)).
Proof.
  intros Hfrom Hto Hq f t.
  pose proof (normalize_unit from Hfrom) as Hf. fold f in Hf.
  pose proof (normalize_unit to Hto) as Ht. fold t in Ht.
  unfold BoneMapping.quaternionFromDirections,
    PoseRetargeting.getRotationBetweenVectors, Vector3.cross in Hq.
  fold f t in Hq.
  destruct (Rlt_dec 0.9999 (Vector3.dot f t)) as [H1 | H1].
  - assert (Hid : q = Quaternion.identity) by (destruct Hq; assumption).
    rewrite Hid, applyQuaternion_identity.
    split; [intros ?; lra |]. split; [reflexivity | intros ?; lra].
  - destruct (Rlt_dec (Vector3.dot f t) (-0.9999)) as [H2 | H2].
    + split; [intros ?; lra |]. split; [intros ?; lra |]. intros _.
      destruct Hq as [-> | ->].
      * apply half_turn_reverses.
        -- apply normalize_unit, cross_axis_boneMapping, Hf.
        -- apply dot_normalize_l, dot_cross_self_l.
      * apply half_turn_reverses.
        -- apply normalize_unit. apply (cross_axis_poseRetargeting f Hf).
        -- apply dot_normalize_l.
           destruct (Rlt_dec _ 0.001); apply dot_cross_self_r.
    + split; [| split; intros ?; lra]. intros _.
      assert (Hg : q = Quaternion.setFromAxisAngle
                         (Vector3.normalize (Vector3.crossVectors f t))
                         (acos (JsMath.max (-1) (JsMath.min 1 (Vector3.dot f t)))))
        by (destruct Hq; assumption).
      rewrite Hg. now apply general_turn.
Qed.

Lemma direction_helpers_turn_from_onto_to_witness :
  applyQuaternion (Vector3.normalize (Vector3.mk 1 0 0))
    (BoneMapping.quaternionFromDirections (Vector3.mk 1 0 0) (Vector3.mk 0 1 0))
  = Vector3.normalize (Vector3.mk 0 1 0).
Proof.
  assert (H1 : 0 < Vector3.lengthSq (Vector3.mk 1 0 0))
    by (unfold Vector3.lengthSq; simpl; lra).
  assert (H2 : 0 < Vector3.lengthSq (Vector3.mk 0 1 0))
    by (unfold Vector3.lengthSq; simpl; lra).
  destruct (direction_helpers_turn_from_onto_to (Vector3.mk 1 0 0) (Vector3.mk 0 1 0)
              _ H1 H2 (or_introl eq_refl)) as (Hgen & _ & _).
  apply Hgen.
  assert (Hn : forall v, Vector3.lengthSq v = 1 -> Vector3.normalize v = v).
  { intros v Hv. unfold Vector3.normalize, Vector3.length, JsMath.orElse.
    rewrite Hv, sqrt_1. destruct (Req_dec_T 1 0); [lra |].
    unfold Vector3.divideScalar, Vector3.multiplyScalar. destruct v. simpl.
    f_equal; field. }
  rewrite !Hn by (unfold Vector3.lengthSq; simpl; ring).
  unfold Vector3.dot. simpl. lra.
Defined.

Lemma length_scale (v : Vector3.t) (k : R) :
  0 <= k -> Vector3.length (Vector3.multiplyScalar v k) = k * Vector3.length v.
Proof.
  intros Hk. unfold Vector3.length.
  replace (Vector3.lengthSq (Vector3.multiplyScalar v k))
    with (k * k * Vector3.lengthSq v)
    by (unfold Vector3.lengthSq, Vector3.multiplyScalar; simpl; ring).
  rewrite sqrt_mult by (try apply lengthSq_nonneg; nra).
  now rewrite sqrt_square.
Qed.

Lemma normalize_scale (v : Vector3.t) (k : R) :
  0 < k -> 0 < Vector3.lengthSq v ->
  Vector3.normalize (Vector3.multiplyScalar v k) = Vector3.normalize v.
Proof.
  intros Hk Hv.
  assert (HL : 0 < Vector3.length v) by (apply sqrt_lt_R0; exact Hv).
  unfold Vector3.normalize. rewrite length_scale by lra.
  unfold JsMath.orElse.
  destruct (Req_dec_T (k * Vector3.length v) 0) as [H0 | _]; [nra |].
  destruct (Req_dec_T (Vector3.length v) 0) as [H0 | _]; [lra |].
  unfold Vector3.divideScalar, Vector3.multiplyScalar. simpl.
  f_equal; field; lra.
Qed.

Lemma normalize_parallel_dot (v : Vector3.t) (k : R) :
  0 < k -> 0 < Vector3.lengthSq v ->
  Vector3.dot (Vector3.normalize v) (Vector3.normalize (Vector3.multiplyScalar v k)) = 1.
Proof.
  intros Hk Hv. rewrite normalize_scale by assumption.
  exact (normalize_unit v Hv).
Qed.

Lemma multiply_identity_r (q : Quaternion.t) :
  Quaternion.multiply q Quaternion.identity = q.
Proof.
  unfold Quaternion.multiply, Quaternion.identity. destruct q. simpl. f_equal; ring.
Qed.

Lemma multiply_normSq (a b : Quaternion.t) :
  Quaternion.normSq (Quaternion.multiply a b) = Quaternion.normSq a * Quaternion.normSq b.
Proof. unfold Quaternion.normSq, Quaternion.multiply. simpl. ring. Qed.

(** A direction that is a positive multiple of the other is within the
    tolerance: both helpers return the identity. *)
Theorem parallel_directions_give_identity (from : Vector3.t) (k : R) :
  0 < k -> 0 < Vector3.lengthSq from ->
  let to := Vector3.multiplyScalar from k in
  BoneMapping.quaternionFromDirections from to = Quaternion.identity /\
  PoseRetargeting.getRotationBetweenVectors from to = Quaternion.identity.
Proof.
  intros Hk Hv to.
  pose proof (normalize_parallel_dot from k Hk Hv) as Hd. fold to in Hd.
  unfold BoneMapping.quaternionFromDirections, PoseRetargeting.getRotationBetweenVectors.
  rewrite Hd. destruct (Rlt_dec 0.9999 1) as [_ | H]; [| lra]. now split.
Qed.

Lemma parallel_directions_give_identity_witness :
  BoneMapping.quaternionFromDirections (Vector3.mk 0 1 0)
    (Vector3.multiplyScalar (Vector3.mk 0 1 0) 2) = Quaternion.identity.
Proof.
  apply (parallel_directions_give_identity (Vector3.mk 0 1 0) 2).
  - lra.
  - unfold Vector3.lengthSq. simpl. lra.
Defined.

(** [calculateLimbRotation] for a child apart from its parent, a rest
    direction of positive length and a rest rotation of norm 1: the result
    has norm 1; it is the rest rotation times a quaternion that, outside the
    tolerance bands, takes the rest direction onto the limb direction; and
    it is the rest rotation itself when the child lies along the rest
    direction from the parent. *)
Theorem limb_rotation_from_rest (parentPos childPos restDirection : Vector3.t)
    (restRotation : Quaternion.t) :
  parentPos <> childPos ->
  0 < Vector3.lengthSq restDirection ->
  Quaternion.isRotation restRotation ->
  let limb := Vector3.normalize (Vector3.sub childPos parentPos) in
  let result :=
    PoseRetargeting.calculateLimbRotation parentPos childPos restDirection restRotation in
  Quaternion.isRotation result /\
  (exists delta, result = Quaternion.multiply restRotation delta /\
     Quaternion.isRotation delta /\
     (-0.9999 <= Vector3.dot (Vector3.normalize restDirection) limb <= 0.9999 ->
      applyQuaternion (Vector3.normalize restDirection) delta = limb)) /\
  (forall k, 0 < k ->
     childPos = Vector3.add parentPos (Vector3.multiplyScalar restDirection k) ->
     result = restRotation).
Proof.
  intros Hne Hrest Hrot limb result.
  assert (Hsub : 0 < Vector3.lengthSq (Vector3.sub childPos parentPos)).
  { pose proof (lengthSq_nonneg (Vector3.sub childPos parentPos)) as Hpos.
    destruct (Req_dec (Vector3.lengthSq (Vector3.sub childPos parentPos)) 0)
      as [H0 | H0]; [| lra].
    apply sub_lengthSq_zero in H0. congruence. }
  assert (Hlimb : Vector3.lengthSq limb = 1) by (apply normalize_unit; exact Hsub).
  assert (Hlimb' : 0 < Vector3.lengthSq limb) by lra.
  assert (Hnl : Vector3.normalize limb = limb).
  { unfold Vector3.normalize at 1, Vector3.length, JsMath.orElse.
    rewrite Hlimb, sqrt_1. destruct (Req_dec_T 1 0); [lra |].
    unfold Vector3.divideScalar, Vector3.multiplyScalar. destruct limb. simpl.
    f_equal; field. }
  destruct (directions_give_rotations restDirection limb Hrest Hlimb') as [_ Hdelta].
  unfold result, PoseRetargeting.calculateLimbRotation. fold limb.
  split; [| split].
  - unfold Quaternion.isRotation in *. rewrite multiply_normSq, Hrot, Hdelta. ring.
  - eexists. split; [reflexivity |]. split; [exact Hdelta |].
    intros Hband. unfold PoseRetargeting.getRotationBetweenVectors, Vector3.cross.
    rewrite Hnl.
    destruct (Rlt_dec 0.9999 _) as [H1 | H1]; [lra |].
    destruct (Rlt_dec _ (-0.9999)) as [H2 | H2]; [lra |].
    apply general_turn; [now apply normalize_unit | exact Hlimb | exact H1 | exact H2].
  - intros k Hk Hchild.
    assert (Hs : Vector3.sub childPos parentPos = Vector3.multiplyScalar restDirection k).
    { rewrite Hchild. unfold Vector3.sub, Vector3.add, Vector3.multiplyScalar. simpl.
      f_equal; ring. }
    assert (Hl : limb = Vector3.normalize restDirection).
    { unfold limb. rewrite Hs. now apply normalize_scale. }
    unfold PoseRetargeting.getRotationBetweenVectors.
    rewrite Hnl, Hl. rewrite (normalize_unit restDirection Hrest : Vector3.dot _ _ = 1).
    destruct (Rlt_dec 0.9999 1) as [_ | H]; [| lra]. apply multiply_identity_r.
Qed.

Lemma limb_rotation_from_rest_witness :
  PoseRetargeting.calculateLimbRotation (Vector3.mk 0 0 0) (Vector3.mk 0 2 0)
    (Vector3.mk 0 1 0) Quaternion.identity = Quaternion.identity.
Proof.
  assert (Hne : Vector3.mk 0 0 0 <> Vector3.mk 0 2 0)
    by (intros H; injection H as H; lra).
  assert (Hrest : 0 < Vector3.lengthSq (Vector3.mk 0 1 0))
    by (unfold Vector3.lengthSq; simpl; lra).
  assert (Hrot : Quaternion.isRotation Quaternion.identity)
    by (unfold Quaternion.isRotation, Quaternion.normSq; simpl; ring).
  destruct (limb_rotation_from_rest (Vector3.mk 0 0 0) (Vector3.mk 0 2 0)
              (Vector3.mk 0 1 0) Quaternion.identity Hne Hrest Hrot) as (_ & _ & Hk).
  apply (Hk 2); [lra |].
  unfold Vector3.add, Vector3.multiplyScalar. simpl. f_equal; ring.
Defined.

(** ** The jacket hook: placing the model *)

Lemma jacket_targets (pose : list Landmark.t) (ls rs : Landmark.t) :
  pose !! BoneMapping.LANDMARKS.LEFT_SHOULDER = Some ls ->
  pose !! BoneMapping.LANDMARKS.RIGHT_SHOULDER = Some rs ->
  exists width tilt turn,
    BoneMapping.normalizedShoulderWidth pose = Some width /\
    BoneMapping.shoulderTiltAngle pose = Some tilt /\
    BoneMapping.bodyTurnAngle pose = Some turn /\
    0 <= width /\ - PI < tilt <= PI /\ - (0.75 * PI) <= turn <= 0.75 * PI.
Proof.
  intros Hls Hrs.
  unfold BoneMapping.bodyTurnAngle, BoneMapping.normalizedShoulderWidth,
    BoneMapping.shoulderTiltAngle.
  rewrite Hls, Hrs. eexists _, _, _.
  split; [reflexivity |]. split; [reflexivity |]. split; [reflexivity |].
  pose proof PI_RGT_0 as Hpi.
  split; [apply sqrt_pos |]. split; [apply atan2_bound |].
  pose proof (atan2_half_plane (Landmark.zOr0 ls - Landmark.zOr0 rs) _
                (sqrt_pos ((Landmark.x ls - Landmark.x rs) * (Landmark.x ls - Landmark.x rs)
                           + (Landmark.y ls - Landmark.y rs) * (Landmark.y ls - Landmark.y rs)))).
  lra.
Qed.

Lemma jacket_shoulderMid (ls rs : Landmark.t) (aspect : R) :
  let mid := BoneMapping.landmarkMidpoint ls rs aspect in
  Vector3.mk (Vector3.x mid) (Vector3.y mid - 0.15) (Vector3.z mid)
  = Vector3.mk ((1 - Landmark.x ls - Landmark.x rs) * aspect)
               (0.85 - Landmark.y ls - Landmark.y rs) 0.
Proof.
  unfold BoneMapping.landmarkMidpoint, BoneMapping.landmarkToScreen,
    Vector3.addVectors, Vector3.add, Vector3.multiplyScalar.
  cbn [Vector3.x Vector3.y Vector3.z]. f_equal; lra.
Qed.

(** The first frame that finds both shoulders snaps the placement to its
    targets: position at the screen midpoint of the shoulders lowered by
    0.15, scale five shoulder widths, tilt and turn as measured; the model
    gets that position, that scale on all three axes and the rotation
    [(PI, turn, tilt)]. *)
Theorem jacket_first_frame_snaps (g : list (list BoneId)) (landmarks : option Results)
    (aspect : R) (p : Jacket.Placement) (m : Jacket.Transform)
    (pose : list Landmark.t) (ls rs : Landmark.t) :
  poseOf landmarks = Some pose ->
  pose !! BoneMapping.LANDMARKS.LEFT_SHOULDER = Some ls ->
  pose !! BoneMapping.LANDMARKS.RIGHT_SHOULDER = Some rs ->
  Jacket.initialized p = false ->
  exists width tilt turn,
    BoneMapping.normalizedShoulderWidth pose = Some width /\
    BoneMapping.shoulderTiltAngle pose = Some tilt /\
    BoneMapping.bodyTurnAngle pose = Some turn /\
    let mid := Vector3.mk ((1 - Landmark.x ls - Landmark.x rs) * aspect)
                          (0.85 - Landmark.y ls - Landmark.y rs) 0 in
    Jacket.frameEffect (Some g) landmarks aspect p m =
      (Jacket.mkPlacement mid (width * 5) tilt turn true (S (Jacket.frameCountRef p)),
       Jacket.mkTransform mid (Vector3.mk (width * 5) (width * 5) (width * 5))
         (Euler.mk PI turn tilt)).
Proof.
  intros Hpose Hls Hrs Hinit.
  destruct (jacket_targets pose ls rs Hls Hrs) as (width & tilt & turn & Hw & Ht & Hy & _).
  exists width, tilt, turn. split; [exact Hw |]. split; [exact Ht |]. split; [exact Hy |].
  intros mid. unfold Jacket.frameEffect, Jacket.placeModel. rewrite Hpose.
  rewrite Hls, Hrs, Hw, Ht, Hy. cbn [Jacket.initialized]. rewrite Hinit.
  rewrite jacket_shoulderMid. fold mid.
  cbn [Jacket.prevPos Jacket.prevScale Jacket.prevRotZ Jacket.prevRotY
       Jacket.initialized Jacket.frameCountRef].
  assert (Hl : forall a t, Jacket.lerp a a t = a) by (intros; unfold Jacket.lerp; ring).
  assert (Hv : forall t, Vector3.lerp mid mid t = mid).
  { intros t. unfold Vector3.lerp, mid. simpl. f_equal; ring. }
  rewrite !Hl, Hv. replace (width * 5.0) with (width * 5) by lra. reflexivity.
Qed.

Lemma jacket_first_frame_snaps_witness :
  exists p' m',
    Jacket.frameEffect (Some [[0%nat]]) scenarioFrame (16 / 9) Jacket.mountPlacement
      (Jacket.mkTransform (Vector3.mk 0 0 0) (Vector3.mk 1 1 1) (Euler.mk PI 0 0))
    = (p', m') /\ Jacket.initialized p' = true /\ Jacket.position m' = Jacket.prevPos p'.
Proof.
  destruct (jacket_first_frame_snaps [[0%nat]] scenarioFrame (16 / 9)
              Jacket.mountPlacement
              (Jacket.mkTransform (Vector3.mk 0 0 0) (Vector3.mk 1 1 1) (Euler.mk PI 0 0))
              scenarioPose (scenarioLandmark 11) (scenarioLandmark 12)
              eq_refl eq_refl eq_refl eq_refl)
    as (width & tilt & turn & _ & _ & _ & Hrun).
  eexists _, _. split; [exact Hrun |]. split; reflexivity.
Defined.

(** A frame that finds no pose or no model changes nothing; a frame whose
    pose lacks a shoulder only counts: what the missing landmark throws is
    caught before any placement ref or the model is written. *)
Theorem jacket_frame_without_shoulders (jacketModel : option (list (list BoneId)))
    (landmarks : option Results) (aspect : R) (p : Jacket.Placement)
    (m : Jacket.Transform) :
  (jacketModel = None \/ poseOf landmarks = None ->
   Jacket.frameEffect jacketModel landmarks aspect p m = (p, m)) /\
  (forall g pose, jacketModel = Some g -> poseOf landmarks = Some pose ->
     pose !! BoneMapping.LANDMARKS.LEFT_SHOULDER = None \/
     pose !! BoneMapping.LANDMARKS.RIGHT_SHOULDER = None ->
     Jacket.frameEffect jacketModel landmarks aspect p m =
       (Jacket.mkPlacement (Jacket.prevPos p) (Jacket.prevScale p) (Jacket.prevRotZ p)
          (Jacket.prevRotY p) (Jacket.initialized p) (S (Jacket.frameCountRef p)), m)).
Proof.
  split.
  - intros [-> | H]; unfold Jacket.frameEffect; [reflexivity |].
    rewrite H. now destruct jacketModel.
  - intros g pose -> Hpose Hmiss. unfold Jacket.frameEffect, Jacket.placeModel.
    rewrite Hpose.
    destruct Hmiss as [H | H]; rewrite H;
      [| destruct (pose !! BoneMapping.LANDMARKS.LEFT_SHOULDER)]; reflexivity.
Qed.

Lemma lerp_error (a b : R) : Jacket.lerp a b (1 - Jacket.SMOOTH) - b = 0.15 * (a - b).
Proof. unfold Jacket.lerp, Jacket.SMOOTH. lra. Qed.

(** One frame from an initialised placement. *)
Lemma jacket_step (g : list (list BoneId)) (landmarks : option Results)
    (aspect : R) (p : Jacket.Placement) (m : Jacket.Transform)
    (pose : list Landmark.t) (ls rs : Landmark.t) (width tilt turn : R) :
  poseOf landmarks = Some pose ->
  pose !! BoneMapping.LANDMARKS.LEFT_SHOULDER = Some ls ->
  pose !! BoneMapping.LANDMARKS.RIGHT_SHOULDER = Some rs ->
  BoneMapping.normalizedShoulderWidth pose = Some width ->
  BoneMapping.shoulderTiltAngle pose = Some tilt ->
  BoneMapping.bodyTurnAngle pose = Some turn ->
  Jacket.initialized p = true ->
  let mid := Vector3.mk ((1 - Landmark.x ls - Landmark.x rs) * aspect)
                        (0.85 - Landmark.y ls - Landmark.y rs) 0 in
  let p' := Jacket.mkPlacement
              (Vector3.lerp (Jacket.prevPos p) mid (1 - Jacket.SMOOTH))
              (Jacket.lerp (Jacket.prevScale p) (width * 5) (1 - Jacket.SMOOTH))
              (Jacket.lerp (Jacket.prevRotZ p) tilt (1 - Jacket.SMOOTH))
              (Jacket.lerp (Jacket.prevRotY p) turn (1 - Jacket.SMOOTH))
              true (S (Jacket.frameCountRef p)) in
  Jacket.frameEffect (Some g) landmarks aspect p m =
    (p', Jacket.mkTransform (Jacket.prevPos p')
           (Vector3.mk (Jacket.prevScale p') (Jacket.prevScale p') (Jacket.prevScale p'))
           (Euler.mk PI (Jacket.prevRotY p') (Jacket.prevRotZ p'))).
Proof.
  intros Hpose Hls Hrs Hw Ht Hy Hinit mid p'.
  unfold Jacket.frameEffect, Jacket.placeModel. rewrite Hpose.
  rewrite Hls, Hrs, Hw, Ht, Hy. cbn [Jacket.initialized]. rewrite Hinit.
  rewrite jacket_shoulderMid. fold mid.
  cbn [Jacket.prevPos Jacket.prevScale Jacket.prevRotZ Jacket.prevRotY
       Jacket.initialized Jacket.frameCountRef].
  replace (width * 5.0) with (width * 5) by lra. reflexivity.
Qed.

(** From an initialised placement every further frame on the same pose
    leaves 0.15 of the distance to each target: after [n] frames scale, tilt,
    turn and each coordinate of the position are [0.15 ^ n] times their
    first distance away from the target, and from the first frame on the
    model carries the placement, with rotation X at PI. *)
Theorem jacket_placement_contracts (g : list (list BoneId)) (landmarks : option Results)
    (aspect : R) (p : Jacket.Placement) (m : Jacket.Transform)
    (pose : list Landmark.t) (ls rs : Landmark.t) (width tilt turn : R) (n : nat) :
  poseOf landmarks = Some pose ->
  pose !! BoneMapping.LANDMARKS.LEFT_SHOULDER = Some ls ->
  pose !! BoneMapping.LANDMARKS.RIGHT_SHOULDER = Some rs ->
  BoneMapping.normalizedShoulderWidth pose = Some width ->
  BoneMapping.shoulderTiltAngle pose = Some tilt ->
  BoneMapping.bodyTurnAngle pose = Some turn ->
  Jacket.initialized p = true ->
  let mid := Vector3.mk ((1 - Landmark.x ls - Landmark.x rs) * aspect)
                        (0.85 - Landmark.y ls - Landmark.y rs) 0 in
  let s := Jacket.frames (Some g) landmarks aspect n (p, m) in
  Jacket.initialized s.1 = true /\
  Jacket.frameCountRef s.1 = (n + Jacket.frameCountRef p)%nat /\
  Jacket.prevScale s.1 - width * 5 = 0.15 ^ n * (Jacket.prevScale p - width * 5) /\
  Jacket.prevRotZ s.1 - tilt = 0.15 ^ n * (Jacket.prevRotZ p - tilt) /\
  Jacket.prevRotY s.1 - turn = 0.15 ^ n * (Jacket.prevRotY p - turn) /\
  Vector3.sub (Jacket.prevPos s.1) mid
    = Vector3.multiplyScalar (Vector3.sub (Jacket.prevPos p) mid) (0.15 ^ n) /\
  ((0 < n)%nat ->
   s.2 = Jacket.mkTransform (Jacket.prevPos s.1)
           (Vector3.mk (Jacket.prevScale s.1) (Jacket.prevScale s.1) (Jacket.prevScale s.1))
           (Euler.mk PI (Jacket.prevRotY s.1) (Jacket.prevRotZ s.1))).
Proof.
  intros Hpose Hls Hrs Hw Ht Hy Hinit mid s. unfold s. clear s.
  induction n as [| n IH].
  - simpl. split; [exact Hinit |]. split; [reflexivity |].
    repeat (split; [lra |]). split.
    + unfold Vector3.sub, Vector3.multiplyScalar. simpl. f_equal; ring.
    + intros H. inversion H.
  - unfold Jacket.frames in *. rewrite Nat.iter_succ.
    destruct (Nat.iter n _ (p, m)) as [pn mn] eqn:Hn. cbn [fst snd] in *.
    destruct IH as (Hi & Hfc & Hs & Hz & Hyy & Hp & _).
    rewrite (jacket_step g landmarks aspect pn mn pose ls rs width tilt turn
               Hpose Hls Hrs Hw Ht Hy Hi).
    fold mid. cbn [fst snd Jacket.initialized Jacket.frameCountRef Jacket.prevScale
                   Jacket.prevRotZ Jacket.prevRotY Jacket.prevPos].
    split; [reflexivity |]. split; [rewrite Hfc; reflexivity |].
    rewrite !lerp_error, Hs, Hz, Hyy.
    split; [simpl; ring |]. split; [simpl; ring |]. split; [simpl; ring |].
    split; [| intros _; reflexivity].
    unfold Vector3.sub, Vector3.multiplyScalar, Vector3.lerp, Jacket.SMOOTH in *.
    cbn [Vector3.x Vector3.y Vector3.z] in *.
    unfold mid in *. cbn [Vector3.x Vector3.y Vector3.z] in *.
    injection Hp as Hx Hyc Hzc. set (k := 0.15 ^ n) in *.
    f_equal; cbn [pow]; fold k; nra.
Qed.

Lemma jacket_placement_contracts_witness :
  let p0 := (Jacket.frameEffect (Some [[0%nat]]) scenarioFrame (16 / 9)
               Jacket.mountPlacement
               (Jacket.mkTransform (Vector3.mk 0 0 0) (Vector3.mk 1 1 1)
                  (Euler.mk PI 0 0))) in
  Jacket.initialized (Jacket.frames (Some [[0%nat]]) scenarioFrame (16 / 9) 2 p0).1 = true.
Proof.
  intros p0.
  destruct (jacket_targets scenarioPose (scenarioLandmark 11) (scenarioLandmark 12)
              eq_refl eq_refl) as (width & tilt & turn & Hw & Ht & Hy & _).
  destruct (jacket_placement_contracts [[0%nat]] scenarioFrame (16 / 9) p0.1 p0.2
              scenarioPose (scenarioLandmark 11) (scenarioLandmark 12)
              width tilt turn 2 eq_refl eq_refl eq_refl Hw Ht Hy eq_refl) as (Hi & _).
  destruct p0 as [p m]. exact Hi.
Defined.

Lemma jacket_frame_invariant (jacketModel : option (list (list BoneId)))
    (landmarks : option Results) (aspect : R) (p : Jacket.Placement)
    (m0 m : Jacket.Transform) :
  placementInvariant p -> placedOrUntouched m0 m ->
  placementInvariant (Jacket.frameEffect jacketModel landmarks aspect p m).1 /\
  placedOrUntouched m0 (Jacket.frameEffect jacketModel landmarks aspect p m).2.
Proof.
  intros Hp Hm. unfold Jacket.frameEffect.
  destruct jacketModel as [g |]; [| now split].
  destruct (poseOf landmarks) as [pose |]; [| now split].
  unfold Jacket.placeModel.
  destruct (pose !! BoneMapping.LANDMARKS.LEFT_SHOULDER) as [ls |] eqn:Hls;
    [| now split].
  destruct (pose !! BoneMapping.LANDMARKS.RIGHT_SHOULDER) as [rs |] eqn:Hrs;
    [| now split].
  destruct (jacket_targets pose ls rs Hls Hrs)
    as (width & tilt & turn & -> & -> & -> & Hw & Ht & Hy).
  rewrite jacket_shoulderMid.
  cbn [Jacket.initialized Jacket.prevPos Jacket.prevScale Jacket.prevRotZ
       Jacket.prevRotY Jacket.frameCountRef].
  destruct Hp as (Hz & Hs & Hrz & Hry).
  assert (Hgoal : forall z s rz ry,
            z = 0 -> 0 <= s -> - PI <= rz <= PI -> - (0.75 * PI) <= ry <= 0.75 * PI ->
            z + (0 - z) * (1 - Jacket.SMOOTH) = 0 /\
            0 <= Jacket.lerp s (width * 5.0) (1 - Jacket.SMOOTH) /\
            - PI <= Jacket.lerp rz tilt (1 - Jacket.SMOOTH) <= PI /\
            - (0.75 * PI) <= Jacket.lerp ry turn (1 - Jacket.SMOOTH) <= 0.75 * PI).
  { intros z s rz ry -> Hs' Hrz' Hry'. unfold Jacket.lerp, Jacket.SMOOTH.
    repeat split; lra. }
  destruct (Jacket.initialized p);
    cbn [fst snd Jacket.initialized Jacket.prevPos Jacket.prevScale Jacket.prevRotZ
         Jacket.prevRotY Jacket.frameCountRef Vector3.lerp Vector3.z].
  - destruct (Hgoal _ _ _ _ Hz Hs Hrz Hry) as (G1 & G2 & G3 & G4).
    split; [unfold placementInvariant; cbn; auto |].
    right. eexists. split; [exact G2 |]. split; [reflexivity |]. split; [exact G1 |].
    reflexivity.
  - assert (Hs0 : 0 <= width * 5.0) by lra.
    assert (Ht0 : - PI <= tilt <= PI) by lra.
    destruct (Hgoal 0 _ _ _ eq_refl Hs0 Ht0 Hy) as (G1 & G2 & G3 & G4).
    split; [unfold placementInvariant; cbn; auto |].
    right. eexists. split; [exact G2 |]. split; [reflexivity |]. split; [exact G1 |].
    reflexivity.
Qed.

Lemma jacket_run_invariant (jacketModel : option (list (list BoneId)))
    (fs : list (option Results * R)) (m0 : Jacket.Transform) :
  forall p mc, placementInvariant p -> placedOrUntouched m0 mc ->
    placementInvariant (Jacket.run jacketModel fs (p, mc)).1 /\
    placedOrUntouched m0 (Jacket.run jacketModel fs (p, mc)).2.
Proof.
  unfold Jacket.run.
  induction fs as [| f fs IH]; intros p mc Hp Hm; [now split |].
  simpl.
  destruct (jacket_frame_invariant jacketModel f.1 f.2 p m0 mc Hp Hm) as [Hp' Hm'].
  destruct (Jacket.frameEffect jacketModel f.1 f.2 p mc) as [p' m'].
  apply IH; assumption.
Qed.

(** From the refs as mounted, whatever frames arrive, with or without
    landmarks or shoulders: the placement stays in the plane [z = 0], its
    scale never turns negative, its tilt stays within a half turn and its
    turn within three quarters of PI; and the model either still has the
    transform it started with, or a uniform scale that is not negative,
    position Z at 0 and rotation X at PI. *)
Theorem jacket_placement_invariant (jacketModel : option (list (list BoneId)))
    (fs : list (option Results * R)) (m : Jacket.Transform) :
  let s := Jacket.run jacketModel fs (Jacket.mountPlacement, m) in
  placementInvariant s.1 /\ placedOrUntouched m s.2.
Proof.
  intros s. apply jacket_run_invariant; [| now left].
  pose proof PI_RGT_0. unfold placementInvariant. simpl. repeat split; lra.
Qed.

(** ** The jacket hook: binding *)

Lemma capture_origin {X V : Type} (store : gmap nat X) (key : X -> string)
    (val : X -> V) (m : gmap string V) (l : list nat) (k : string) (v : V) :
  foldl (captureStep store key val) m l !! k = Some v ->
  m !! k = Some v \/
  exists id b, id ∈ l /\ store !! id = Some b /\ key b = k /\ val b = v.
Proof.
  revert m. induction l as [| x l IH]; intros m; simpl; [now left |].
  intros H. apply IH in H as [H | (id & b & Hin & Hb & Hk & Hv)].
  - unfold captureStep in H. destruct (store !! x) as [bx |] eqn:Hx; [| now left].
    destruct (decide (key bx = k)) as [<- | Hne].
    + rewrite lookup_insert_eq in H. injection H as <-.
      right. exists x, bx. split; [left | auto].
    + rewrite lookup_insert_ne in H by exact Hne. now left.
  - right. exists id, b. split; [now right | auto].
Qed.

(** Binding a jacket model replaces the rest map: every entry afterwards
    comes from a bone of the last skinned mesh of the model, so nothing of
    an earlier model or of another mesh stays; a model without a skinned
    mesh, or no model, leaves the map as it was. *)
Theorem jacket_rest_map_replaced (store : gmap nat Jacket.JBone)
    (old : gmap string Quaternion.t) :
  Jacket.initEffect None store old = old /\
  Jacket.initEffect (Some []) store old = old /\
  (forall meshes skeleton name q,
     Jacket.initEffect (Some (meshes ++ [skeleton])) store old !! name = Some q ->
     exists id b, id ∈ skeleton /\ store !! id = Some b /\
                  Jacket.jname b = name /\ Jacket.quaternion b = q).
Proof.
  split; [reflexivity |]. split; [reflexivity |].
  intros meshes skeleton name q. unfold Jacket.initEffect, Jacket.lastSkeleton.
  rewrite last_snoc. rewrite captureRestPoses_step. intros H.
  apply capture_origin in H as [H | H]; [| exact H].
  rewrite lookup_empty in H. discriminate.
Qed.

(** ** The camera loop: every second frame *)

Ltac div2 a :=
  pose proof (Nat.div_mod_eq a 2);
  pose proof (Nat.mod_upper_bound a 2 ltac:(discriminate)).

Lemma even_mod2 (c : nat) : Nat.even c = (c mod 2 =? 0)%nat.
Proof.
  div2 c. destruct (Nat.even c) eqn:He.
  - apply Nat.even_spec in He. destruct He as [j Hj]. symmetry. apply Nat.eqb_eq. lia.
  - symmetry. apply Nat.eqb_neq. intros H'.
    assert (Nat.even c = true); [| congruence].
    apply Nat.even_spec. exists (c / 2)%nat. lia.
Qed.

Lemma onFrame_sent (r : BodyTracking.Refs) :
  BodyTracking.onFrame r =
    (BodyTracking.mkRefs (S (BodyTracking.frameCountRef r)) (BodyTracking.poseRef r)
       (BodyTracking.videoRef r),
     (Nat.even (S (BodyTracking.frameCountRef r)) && BodyTracking.poseRef r
      && BodyTracking.videoRef r)%bool).
Proof.
  unfold BodyTracking.onFrame.
  cbn [BodyTracking.frameCountRef BodyTracking.poseRef BodyTracking.videoRef].
  rewrite <- even_mod2.
  destruct (Nat.even (S (BodyTracking.frameCountRef r))),
           (BodyTracking.poseRef r), (BodyTracking.videoRef r); reflexivity.
Qed.

(** With the pose model and the video in place, the camera callback sends
    exactly the frames that bring the counter to an even value: of [n]
    frames in a row, the one at position [k] is sent when [c + k + 1] is
    even, [c] being the counter before, so [(c + n) / 2 - c / 2] of them in
    all and never two in a row; after the cleanup of the effect the counter
    is back at 0 and no frame is sent. *)
Theorem camera_sends_every_second_frame (n : nat) (r : BodyTracking.Refs) :
  BodyTracking.poseRef r = true -> BodyTracking.videoRef r = true ->
  let c := BodyTracking.frameCountRef r in
  let log := (BodyTracking.onFrames n r).2 in
  BodyTracking.frameCountRef (BodyTracking.onFrames n r).1 = (c + n)%nat /\
  length log = n /\
  (forall k, (k < n)%nat -> log !! k = Some (Nat.even (c + k + 1))) /\
  length (filter (fun b => b = true) log) = ((c + n) / 2 - c / 2)%nat /\
  (forall k, log !! k = Some true -> log !! S k <> Some true) /\
  BodyTracking.frameCountRef (BodyTracking.cleanup r) = 0%nat /\
  (forall k b, (BodyTracking.onFrames n (BodyTracking.cleanup r)).2 !! k = Some b ->
     b = false).
Proof.
  intros Hp Hv c log.
  assert (Hmain : forall n r, BodyTracking.poseRef r = true ->
            BodyTracking.videoRef r = true ->
            let c := BodyTracking.frameCountRef r in
            let log := (BodyTracking.onFrames n r).2 in
            BodyTracking.frameCountRef (BodyTracking.onFrames n r).1 = (c + n)%nat /\
            length log = n /\
            (forall k, (k < n)%nat -> log !! k = Some (Nat.even (c + k + 1))) /\
            length (filter (fun b => b = true) log) = ((c + n) / 2 - c / 2)%nat).
  { clear. induction n as [| n IH]; intros r Hp Hv c log.
    - unfold log. simpl. rewrite Nat.add_0_r, Nat.sub_diag.
      repeat split. intros k Hk. lia.
    - unfold log. cbn [BodyTracking.onFrames]. rewrite onFrame_sent, Hp, Hv.
      fold c. rewrite !andb_true_r.
      set (r1 := BodyTracking.mkRefs (S c) true true).
      destruct (IH r1 eq_refl eq_refl) as (Hc & Hlen & Hk & Hcount).
      destruct (BodyTracking.onFrames n r1) as [r2 rest]. cbn [fst snd] in *.
      cbn [BodyTracking.frameCountRef r1] in *.
      split; [rewrite Hc; lia |].
      split; [simpl; now rewrite Hlen |]. split.
      + intros [| k] Hlt.
        * replace (c + 0 + 1)%nat with (S c) by lia. reflexivity.
        * replace (c + S k + 1)%nat with (S c + k + 1)%nat by lia. apply Hk. lia.
      + rewrite filter_cons.
        replace (S c + n)%nat with (c + S n)%nat in Hcount by lia.
        div2 (c + S n)%nat. div2 (S c). div2 c.
        destruct (Nat.even (S c)) eqn:He.
        * rewrite decide_True by reflexivity. cbn [length]. rewrite Hcount.
          rewrite even_mod2 in He. apply Nat.eqb_eq in He. lia.
        * rewrite decide_False by discriminate. rewrite Hcount.
          rewrite even_mod2 in He. apply Nat.eqb_neq in He. lia. }
  destruct (Hmain n r Hp Hv) as (Hc & Hlen & Hk & Hcount). fold c log in Hc, Hlen, Hk, Hcount.
  split; [exact Hc |]. split; [exact Hlen |]. split; [exact Hk |].
  split; [exact Hcount |]. split; [| split; [reflexivity |]].
  - intros k Hk1 Hk2.
    assert (Hlt : (S k < n)%nat) by (rewrite <- Hlen; apply lookup_lt_is_Some; eauto).
    rewrite Hk in Hk1 by lia. rewrite Hk in Hk2 by lia.
    injection Hk1 as Hk1. injection Hk2 as Hk2.
    replace (c + S k + 1)%nat with (S (c + k + 1)) in Hk2 by lia.
    rewrite Nat.even_succ, <- Nat.negb_even, Hk1 in Hk2. discriminate.
  - clear.
    assert (Hgen : forall n r0, BodyTracking.poseRef r0 = false ->
              forall k b, (BodyTracking.onFrames n r0).2 !! k = Some b -> b = false).
    { clear. induction n as [| n IH]; intros r0 H0 k b; [simpl; discriminate |].
      cbn [BodyTracking.onFrames]. rewrite onFrame_sent, H0.
      rewrite andb_false_r. cbn [andb].
      set (r1 := BodyTracking.mkRefs _ _ _).
      specialize (IH r1 eq_refl).
      destruct (BodyTracking.onFrames n r1) as [r2 rest]. cbn [fst snd] in *.
      destruct k as [| k]; simpl; [congruence | apply IH]. }
    apply Hgen. reflexivity.
Qed.

Lemma camera_sends_every_second_frame_witness :
  (BodyTracking.onFrames 5 (BodyTracking.mkRefs 0 true true)).2
    = [false; true; false; true; false] /\
  length (filter (fun b => b = true)
            (BodyTracking.onFrames 5 (BodyTracking.mkRefs 0 true true)).2) = 2%nat.
Proof.
  destruct (camera_sends_every_second_frame 5 (BodyTracking.mkRefs 0 true true)
              eq_refl eq_refl) as (_ & _ & _ & Hcount & _).
  split; [reflexivity | exact Hcount].
Defined.

(** ** The absolute hook *)

Lemma absolute_writeBone_lookup (smooth : Euler.t) (store : gmap nat Bone.t) (id i : nat) :
  Absolute.writeBone smooth store id !! i =
    if decide (i = id) then Absolute.posed smooth <$> store !! i else store !! i.
Proof.
  unfold Absolute.writeBone.
  destruct (decide (i = id)) as [-> | Hne].
  - destruct (store !! id) as [b |] eqn:Hb; simpl; [| now rewrite Hb].
    now rewrite lookup_insert_eq.
  - destruct (store !! id) as [b |]; [| reflexivity].
    now rewrite lookup_insert_ne by congruence.
Qed.

Lemma absolute_apply_spec (bs : list BoneId) (key : string)
    (x y z : R) (r : Refs) (w : World) :
  let c := Absolute.applyRotationToAll bs key x y z r w in
  smoothRotations c.1 = smoothed Absolute.SMOOTH bs key x y z (smoothRotations r) /\
  (forall i, bones c.2 !! i =
     wroteAbs (smoothUpdate Absolute.SMOOTH (smoothRotations r !! key) x y z) bs i
       (bones w !! i)).
Proof.
  intros c. unfold c. split.
  - destruct bs; reflexivity.
  - intros i. unfold wroteAbs. destruct bs as [| id bs]; simpl.
    + destruct (decide (i ∈ [])) as [Hin | _]; [inversion Hin | reflexivity].
    + set (s := smoothUpdate Absolute.SMOOTH (smoothRotations r !! key) x y z).
      apply (forEach_lookup (Absolute.posed s) (Absolute.writeBone s)
               (fun b => eq_refl) (absolute_writeBone_lookup s) (id :: bs)).
Qed.

Ltac open_abs :=
  match goal with
  | |- context [Absolute.applyRotationToAll ?bs ?k ?x ?y ?z ?r ?w] =>
    let Hs := fresh "Hsm" in
    let Hb := fresh "Hbones" in
    pose proof (absolute_apply_spec bs k x y z r w) as (Hs & Hb);
    destruct (Absolute.applyRotationToAll bs k x y z r w) as [? ?];
    simpl in Hs, Hb
  end.

Lemma wroteAbs_in (z : R) (bs : list BoneId) (i : nat) (o : option Bone.t) (n : string) :
  i ∈ bs -> Bone.name <$> o = Some n ->
  exists z', wroteAbs (Euler.mk 0 0 z) bs i o = Some (Bone.mk n (Euler.mk 0 0 z')).
Proof.
  intros Hin Hn. unfold wroteAbs. rewrite decide_True by exact Hin.
  destruct o as [b |]; [| discriminate]. injection Hn as Hn.
  exists z. simpl. unfold Absolute.posed. now rewrite Hn.
Qed.

Lemma wroteAbs_keep (z : R) (bs : list BoneId) (i : nat) (o : option Bone.t) (n : string) :
  (exists z', o = Some (Bone.mk n (Euler.mk 0 0 z'))) ->
  exists z', wroteAbs (Euler.mk 0 0 z) bs i o = Some (Bone.mk n (Euler.mk 0 0 z')).
Proof.
  intros [z' ->]. unfold wroteAbs.
  destruct (decide (i ∈ bs)); [exists z | exists z']; reflexivity.
Qed.

Lemma wroteAbs_name (s : Euler.t) (bs : list BoneId) (i : nat) (o : option Bone.t) :
  Bone.name <$> wroteAbs s bs i o = Bone.name <$> o.
Proof.
  unfold wroteAbs. destruct (decide (i ∈ bs)); [| reflexivity]. now destruct o.
Qed.

(** The first frame of the absolute hook: from a state without smoothing
    entries for the arm keys, an update that finds all its landmarks runs to
    its end and stores for every key with a non-empty binding X = Y = 0 and
    the Z of its block.  Every bound bone ends with rotation X and Y at 0,
    whatever its rotation was before: the pose the model came with is
    overwritten, not added to. *)
Theorem absolute_first_frame (g : Group) (landmarks : option Results)
    (mirrored : bool) (r : Refs) (w : World) (ab : ArmBones)
    (pose : list Landmark.t) (lh rh ls rs le re lw rw : Landmark.t) :
  initializedRef r = true ->
  armBonesRef r = Some ab ->
  poseOf landmarks = Some pose ->
  pose !! MP_LANDMARKS.LEFT_HIP = Some lh ->
  pose !! MP_LANDMARKS.RIGHT_HIP = Some rh ->
  pose !! MP_LANDMARKS.LEFT_SHOULDER = Some ls ->
  pose !! MP_LANDMARKS.RIGHT_SHOULDER = Some rs ->
  pose !! MP_LANDMARKS.LEFT_ELBOW = Some le ->
  pose !! MP_LANDMARKS.RIGHT_ELBOW = Some re ->
  pose !! MP_LANDMARKS.LEFT_WRIST = Some lw ->
  pose !! MP_LANDMARKS.RIGHT_WRIST = Some rw ->
  smoothRotations r !! "upperarm_l" = None ->
  smoothRotations r !! "upperarm_r" = None ->
  smoothRotations r !! "lowerarm_l" = None ->
  smoothRotations r !! "lowerarm_r" = None ->
  let m := if mirrored then -1 else 1 in
  let lS := if mirrored then rs else ls in
  let lE := if mirrored then re else le in
  let lW := if mirrored then rw else lw in
  let rS := if mirrored then ls else rs in
  let rE := if mirrored then le else re in
  let rW := if mirrored then lw else rw in
  exists r' w',
    Absolute.frameEffect (Some g) landmarks mirrored r w = Done r' w' /\
    (upperarm_l ab <> [] ->
     smoothRotations r' !! "upperarm_l"
       = Some (Euler.mk 0 0 (Absolute.leftUpperZ m lS lE))) /\
    (lowerarm_l ab <> [] ->
     smoothRotations r' !! "lowerarm_l"
       = Some (Euler.mk 0 0 (Absolute.leftLowerZ m lE lW))) /\
    (upperarm_r ab <> [] ->
     smoothRotations r' !! "upperarm_r"
       = Some (Euler.mk 0 0 (Absolute.rightUpperZ m rS rE))) /\
    (lowerarm_r ab <> [] ->
     smoothRotations r' !! "lowerarm_r"
       = Some (Euler.mk 0 0 (Absolute.rightLowerZ m rE rW))) /\
    (forall i b, i ∈ lowerarm_r ab -> bones w !! i = Some b ->
       bones w' !! i
         = Some (Bone.mk (Bone.name b) (Euler.mk 0 0 (Absolute.rightLowerZ m rE rW)))) /\
    (forall i b, i ∈ allBones ab -> bones w !! i = Some b ->
       exists z, bones w' !! i = Some (Bone.mk (Bone.name b) (Euler.mk 0 0 z))).
Proof.
  intros Hinit Hab Hpose Hlh Hrh Hls Hrs Hle Hre Hlw Hrw Hul Hur Hll Hlr
         m lS lE lW rS rE rW.
  unfold Absolute.frameEffect.
  rewrite Hpose, Hinit, Hab, Hlh, Hrh, Hls, Hrs. cbn [negb].
  unfold Absolute.armsStep.
  replace (if mirrored then pose !! MP_LANDMARKS.RIGHT_ELBOW
           else pose !! MP_LANDMARKS.LEFT_ELBOW) with (Some lE)
    by (unfold lE; destruct mirrored; congruence).
  replace (if mirrored then pose !! MP_LANDMARKS.RIGHT_WRIST
           else pose !! MP_LANDMARKS.LEFT_WRIST) with (Some lW)
    by (unfold lW; destruct mirrored; congruence).
  replace (if mirrored then pose !! MP_LANDMARKS.LEFT_ELBOW
           else pose !! MP_LANDMARKS.RIGHT_ELBOW) with (Some rE)
    by (unfold rE; destruct mirrored; congruence).
  replace (if mirrored then pose !! MP_LANDMARKS.LEFT_WRIST
           else pose !! MP_LANDMARKS.RIGHT_WRIST) with (Some rW)
    by (unfold rW; destruct mirrored; congruence).
  fold lS rS m.
  set (zUL := Absolute.leftUpperZ m lS lE). set (zLL := Absolute.leftLowerZ m lE lW).
  set (zUR := Absolute.rightUpperZ m rS rE). set (zLR := Absolute.rightLowerZ m rE rW).
  open_abs. open_abs. open_abs. open_abs.
  eexists _, _. split; [reflexivity |].
  repeat match goal with
         | H : smoothRotations _ = _ |- _ => rewrite H in *; clear H
         end.
  simpl smoothRotations in *.
  assert (E1 : smoothUpdate Absolute.SMOOTH (smoothRotations r !! "upperarm_l") 0 0 zUL
               = Euler.mk 0 0 zUL) by now rewrite Hul.
  assert (E2 : smoothUpdate Absolute.SMOOTH
                 (smoothed Absolute.SMOOTH (upperarm_l ab) "upperarm_l" 0 0 zUL
                    (smoothRotations r) !! "lowerarm_l") 0 0 zLL
               = Euler.mk 0 0 zLL)
    by (rewrite !smoothed_lookup_ne by discriminate; now rewrite Hll).
  assert (E3 : smoothUpdate Absolute.SMOOTH
                 (smoothed Absolute.SMOOTH (lowerarm_l ab) "lowerarm_l" 0 0 zLL
                    (smoothed Absolute.SMOOTH (upperarm_l ab) "upperarm_l" 0 0 zUL
                       (smoothRotations r)) !! "upperarm_r") 0 0 zUR
               = Euler.mk 0 0 zUR)
    by (rewrite !smoothed_lookup_ne by discriminate; now rewrite Hur).
  assert (E4 : smoothUpdate Absolute.SMOOTH
                 (smoothed Absolute.SMOOTH (upperarm_r ab) "upperarm_r" 0 0 zUR
                    (smoothed Absolute.SMOOTH (lowerarm_l ab) "lowerarm_l" 0 0 zLL
                       (smoothed Absolute.SMOOTH (upperarm_l ab) "upperarm_l" 0 0 zUL
                          (smoothRotations r))) !! "lowerarm_r") 0 0 zLR
               = Euler.mk 0 0 zLR)
    by (rewrite !smoothed_lookup_ne by discriminate; now rewrite Hlr).
  split; [| split; [| split; [| split; [| split]]]].
  - intros Hbs. rewrite !smoothed_lookup_ne by discriminate.
    rewrite smoothed_lookup_eq by exact Hbs. now rewrite E1.
  - intros Hbs. rewrite !smoothed_lookup_ne by discriminate.
    rewrite smoothed_lookup_eq by exact Hbs. now rewrite E2.
  - intros Hbs. rewrite !smoothed_lookup_ne by discriminate.
    rewrite smoothed_lookup_eq by exact Hbs. now rewrite E3.
  - intros Hbs. rewrite smoothed_lookup_eq by exact Hbs. now rewrite E4.
  - intros i b Hin Hb. rewrite Hbones2, E4. unfold wroteAbs at 1.
    rewrite decide_True by exact Hin.
    assert (Hn : Bone.name <$> bones w2 !! i = Some (Bone.name b)).
    { rewrite Hbones1, wroteAbs_name, Hbones0, wroteAbs_name, Hbones, wroteAbs_name.
      simpl. now rewrite Hb. }
    destruct (bones w2 !! i) as [b3 |]; simpl in Hn; [| discriminate].
    injection Hn as Hn. simpl. unfold Absolute.posed. now rewrite Hn.
  - intros i b Hin Hb.
    rewrite Hbones2, E4, Hbones1, E3, Hbones0, E2, Hbones, E1.
    simpl bones. rewrite Hb.
    unfold allBones in Hin. rewrite !elem_of_app in Hin.
    destruct Hin as [Hin | [Hin | [Hin | Hin]]].
    + do 3 apply wroteAbs_keep. now apply wroteAbs_in.
    + apply wroteAbs_keep. apply wroteAbs_in; [exact Hin |].
      now rewrite !wroteAbs_name.
    + do 2 apply wroteAbs_keep. apply wroteAbs_in; [exact Hin |].
      now rewrite !wroteAbs_name.
    + apply wroteAbs_in; [exact Hin |]. now rewrite !wroteAbs_name.
Qed.

Lemma absolute_first_frame_witness :
  let r := initEffect (Some dupRig) mountRefs dupWorld in
  exists r' w',
    Absolute.frameEffect (Some dupRig) scenarioFrame false r dupWorld = Done r' w'.
Proof.
  destruct (absolute_first_frame dupRig scenarioFrame false
              (initEffect (Some dupRig) mountRefs dupWorld) dupWorld
              (collectArmBones (bones dupWorld) dupRig) scenarioPose
              (scenarioLandmark 23) (scenarioLandmark 24)
              (scenarioLandmark 11) (scenarioLandmark 12)
              (scenarioLandmark 13) (scenarioLandmark 14)
              (scenarioLandmark 15) (scenarioLandmark 16)
              eq_refl eq_refl eq_refl eq_refl eq_refl eq_refl eq_refl
              eq_refl eq_refl eq_refl eq_refl
              eq_refl eq_refl eq_refl eq_refl)
    as (r' & w' & Hrun & _).
  exists r', w'. exact Hrun.
Defined.

Lemma Rabs_sign (a m : R) : m = 1 \/ m = -1 -> Rabs (a * m) = Rabs a.
Proof.
  intros [-> | ->].
  - now rewrite Rmult_1_r.
  - replace (a * -1) with (- a) by ring. apply Rabs_Ropp.
Qed.

Lemma atan2_positive_x (y x : R) : 0 < x -> JsMath.atan2 y x = atan (y / x).
Proof.
  intros Hx. unfold JsMath.atan2. destruct (Rlt_dec 0 x); [reflexivity | lra].
Qed.

(** The arm blocks of the absolute hook, on a left arm and its mirror image
    as right arm (opposite horizontal difference, same vertical one).  The
    forearm angles are opposite, as are the upper-arm angles of a vertical or
    a level arm; but for every other arm the left upper-arm block, which
    scales the horizontal difference by 415, gives an angle nearer to the
    horizontal than the right one.  The upper-arm angles stay within
    [-2 PI / 3, PI / 3] on the left and [-PI / 3, 2 PI / 3] on the right,
    the forearm angles within 0.3 PI either way. *)
Theorem upper_arm_blocks_differ (m : R) (s e s' e' : Landmark.t) :
  m = 1 \/ m = -1 ->
  Landmark.x e' - Landmark.x s' = - (Landmark.x e - Landmark.x s) ->
  Landmark.y e' - Landmark.y s' = Landmark.y e - Landmark.y s ->
  let dx := Landmark.x e - Landmark.x s in
  let dy := - (Landmark.y e - Landmark.y s) in
  Absolute.leftLowerZ m s e = - Absolute.rightLowerZ m s' e' /\
  (dx = 0 \/ dy = 0 -> Absolute.leftUpperZ m s e = - Absolute.rightUpperZ m s' e') /\
  (dx <> 0 -> dy < 0 -> - Absolute.rightUpperZ m s' e' < Absolute.leftUpperZ m s e) /\
  (dx <> 0 -> 0 < dy -> Absolute.leftUpperZ m s e < - Absolute.rightUpperZ m s' e') /\
  - (2 * PI / 3) <= Absolute.leftUpperZ m s e <= PI / 3 /\
  - (PI / 3) <= Absolute.rightUpperZ m s' e' <= 2 * PI / 3 /\
  - (0.3 * PI) <= Absolute.leftLowerZ m s e <= 0.3 * PI /\
  - (0.3 * PI) <= Absolute.rightLowerZ m s' e' <= 0.3 * PI.
Proof.
  intros Hm Hx Hy dx dy. pose proof PI_RGT_0 as Hpi.
  unfold Absolute.leftLowerZ, Absolute.rightLowerZ, Absolute.leftUpperZ,
    Absolute.rightUpperZ.
  rewrite Hx, Hy. fold dx dy.
  replace (dx * m * 415) with (415 * dx * m) by ring.
  rewrite !Rabs_sign by exact Hm. rewrite Rabs_Ropp.
  rewrite Rabs_mult, (Rabs_right 415) by lra.
  set (a := Rabs dx).
  assert (Ha : 0 <= a) by apply Rabs_pos.
  assert (H415 : 0 <= 415 * a) by lra.
  pose proof (atan2_half_plane dy a Ha) as Hb1.
  pose proof (atan2_half_plane dy (415 * a) H415) as Hb2.
  split; [ring |]. split; [| split; [| split]].
  - intros [H0 | H0].
    + assert (Ha0 : a = 0) by (unfold a; rewrite H0; apply Rabs_R0).
      rewrite Ha0, Rmult_0_r. ring.
    + rewrite H0.
      destruct (Req_dec a 0) as [Ha0 | Hne].
      * rewrite Ha0, Rmult_0_r. ring.
      * rewrite !atan2_level by lra. ring.
  - intros Hdx Hdy.
    assert (Hpos : 0 < a) by (apply Rabs_pos_lt; exact Hdx).
    rewrite !atan2_positive_x by lra.
    assert (Hq : dy / a < dy / (415 * a)).
    { unfold Rdiv. rewrite Rinv_mult.
      pose proof (Rinv_0_lt_compat a Hpos) as Hi.
      assert (Hi415 : / 415 = 1 / 415) by lra.
      rewrite Hi415. nra. }
    pose proof (atan_increasing _ _ Hq). lra.
  - intros Hdx Hdy.
    assert (Hpos : 0 < a) by (apply Rabs_pos_lt; exact Hdx).
    rewrite !atan2_positive_x by lra.
    assert (Hq : dy / (415 * a) < dy / a).
    { unfold Rdiv. rewrite Rinv_mult.
      pose proof (Rinv_0_lt_compat a Hpos) as Hi.
      assert (Hi415 : / 415 = 1 / 415) by lra.
      rewrite Hi415. nra. }
    pose proof (atan_increasing _ _ Hq). lra.
  - repeat split; lra.
Qed.

Lemma upper_arm_blocks_differ_witness :
  - Absolute.rightUpperZ 1 (Landmark.mk 0.7 0.4 None) (Landmark.mk 0.8 0.6 None)
  < Absolute.leftUpperZ 1 (Landmark.mk 0.3 0.4 None) (Landmark.mk 0.2 0.6 None).
Proof.
  destruct (upper_arm_blocks_differ 1
              (Landmark.mk 0.3 0.4 None) (Landmark.mk 0.2 0.6 None)
              (Landmark.mk 0.7 0.4 None) (Landmark.mk 0.8 0.6 None))
    as (_ & _ & Hlt & _).
  - now left.
  - simpl. lra.
  - simpl. lra.
  - apply Hlt; simpl; lra.
Defined.

(** ** Landmark coordinates *)

(** The coordinate helpers of the two utility modules.  Both midpoints do
    not depend on the order of the landmarks, lie at the same distance from
    the two points they average and fall on the point itself when the
    landmarks are equal; the screen midpoint has depth 0.  The two modules
    disagree on X: at scale 2 [landmarkToWorld] is [landmarkTo3D] with X
    negated and half the depth, while [landmarkToScreen] at aspect 1 is
    [landmarkTo3D] without depth. *)
Theorem landmark_conventions (l l1 l2 : Landmark.t) (aspect scale : R) :
  let mid := BoneMapping.landmarkMidpoint l1 l2 aspect in
  let mid' := PoseRetargeting.getLandmarkMidpoint l1 l2 scale in
  mid = BoneMapping.landmarkMidpoint l2 l1 aspect /\
  Vector3.z mid = 0 /\
  Vector3.lengthSq (Vector3.sub mid (BoneMapping.landmarkToScreen l1 aspect))
    = Vector3.lengthSq (Vector3.sub mid (BoneMapping.landmarkToScreen l2 aspect)) /\
  BoneMapping.landmarkMidpoint l l aspect = BoneMapping.landmarkToScreen l aspect /\
  mid' = PoseRetargeting.getLandmarkMidpoint l2 l1 scale /\
  Vector3.lengthSq (Vector3.sub mid' (PoseRetargeting.landmarkToWorld l1 scale))
    = Vector3.lengthSq (Vector3.sub mid' (PoseRetargeting.landmarkToWorld l2 scale)) /\
  PoseRetargeting.getLandmarkMidpoint l l scale = PoseRetargeting.landmarkToWorld l scale /\
  PoseRetargeting.landmarkToWorld l 2
    = Vector3.mk (- Vector3.x (BoneMapping.landmarkTo3D l))
                 (Vector3.y (BoneMapping.landmarkTo3D l))
                 (Vector3.z (BoneMapping.landmarkTo3D l) / 2) /\
  BoneMapping.landmarkToScreen l 1
    = Vector3.mk (Vector3.x (BoneMapping.landmarkTo3D l))
                 (Vector3.y (BoneMapping.landmarkTo3D l)) 0.
Proof.
  intros mid mid'. unfold mid, mid'.
  unfold BoneMapping.landmarkMidpoint, BoneMapping.landmarkToScreen,
    BoneMapping.landmarkTo3D, PoseRetargeting.getLandmarkMidpoint,
    PoseRetargeting.landmarkToWorld, Vector3.addVectors, Vector3.add, Vector3.sub,
    Vector3.multiplyScalar, Vector3.lengthSq.
  cbn [Vector3.x Vector3.y Vector3.z].
  repeat split; try (f_equal; lra); try lra; nra.
Qed.
